(** * pdfmm / PoDoFo core: the TrueType subsetter and the PDF variant model

    A shallow embedding of
      - [src/pdfmm/base/PdfFontTrueTypeSubset.cpp]  (module [TrueTypeSubset])
      - [src/podofo/base/PdfVariant.cpp], which also holds the
        [PdfDictionary] implementation               (module [Variant])
    together with the properties of the specification that concern them. *)

From Stdlib Require Import ZArith List Strings.String Strings.Ascii Init.Byte.
From Stdlib Require Import Floats.SpecFloat QArith Qround DecimalString Sorting.Sorted.
From Stdlib Require Structures.OrderedTypeEx.
From stdpp Require Import base gmap list.

Local Open Scope Z_scope.

(** ** Errors and outcomes *)

(** The error codes ([PdfErrorCode] in pdfmm, [EPdfError] in PoDoFo) that the
    embedded functions raise. *)
Inductive PdfErrorCode : Type :=
| UnsupportedFontFormat
| InternalLogic
| UnexpectedEOF
| InvalidEnumValue
| InvalidFontFile
| InvalidDataType
| InvalidHandle
| ChangeOnImmutable
| ValueOutOfRange.

(** What a call does: it returns, it throws a [PdfError], it runs into
    behaviour that C++ leaves undefined (a store through a pointer of the
    wrong type, a write past the end of a buffer, an out-of-range
    float-to-integer conversion), or the loop budget of the model ran out
    before the call finished. *)
Inductive outcome (A : Type) : Type :=
| Ok (a : A)
| Raise (e : PdfErrorCode)
| Undefined
| OutOfFuel.

Arguments Ok {A} a.
Arguments Raise {A} e.
Arguments Undefined {A}.
Arguments OutOfFuel {A}.

#[global] Instance outcome_ret : MRet outcome := fun A a => Ok a.
#[global] Instance outcome_bind : MBind outcome := fun A B f m =>
  match m with
  | Ok a => f a
  | Raise e => Raise e
  | Undefined => Undefined
  | OutOfFuel => OutOfFuel
  end.

Definition is_Ok {A} (m : outcome A) : bool :=
  match m with Ok _ => true | _ => false end.

(** ** Machine integers and bytes *)

Definition u16 (x : Z) : Z := x mod 2 ^ 16.
Definition u32 (x : Z) : Z := x mod 2 ^ 32.
(** Reading a 16-bit pattern as [int16_t]. *)
Definition s16 (x : Z) : Z := if u16 x <? 2 ^ 15 then u16 x else u16 x - 2 ^ 16.

Definition Z_of_byte (b : byte) : Z := Z.of_N (Byte.to_N b).
Definition byte_of_Z (z : Z) : byte :=
  match Byte.of_N (Z.to_N (z mod 256)) with
  | Some b => b
  | None => x00
  end.

(** Big-endian value of a byte string. *)
Definition be_combine (bs : list byte) : Z :=
  fold_left (fun acc b => acc * 256 + Z_of_byte b) bs 0.

Definition be16 (v : Z) : list byte :=
  [byte_of_Z (Z.shiftr v 8); byte_of_Z v].
Definition be32 (v : Z) : list byte :=
  [byte_of_Z (Z.shiftr v 24); byte_of_Z (Z.shiftr v 16);
   byte_of_Z (Z.shiftr v 8); byte_of_Z v].

Module TrueTypeSubset.

(** *** The input device *)

(** Modelled from the spec: [PdfInputDevice] ([Seek], [Read]) and the
    [utls::Read*BE] helpers are declared outside the sources embedded here.
    The font program is a random-access byte string; every read of the
    subsetter is preceded by its own [Seek], so a read is positional.
    A read that does not lie inside the input is the truncated-input error
    of the specification, [UnexpectedEOF]. *)
Definition device := list byte.

Definition Read (dev : device) (offset size : Z) : outcome (list byte) :=
  if (0 <=? offset) && (0 <=? size) && (offset + size <=? Z.of_nat (length dev))
  then Ok (take (Z.to_nat size) (drop (Z.to_nat offset) dev))
  else Raise UnexpectedEOF.

Definition ReadUInt16BE (dev : device) (offset : Z) : outcome Z :=
  bs ← Read dev offset 2; Ok (be_combine bs).
Definition ReadUInt32BE (dev : device) (offset : Z) : outcome Z :=
  bs ← Read dev offset 4; Ok (be_combine bs).
Definition ReadInt16BE (dev : device) (offset : Z) : outcome Z :=
  bs ← Read dev offset 2; Ok (s16 (be_combine bs)).

(** *** Table tags and the required-table mask *)

(** [FT_MAKE_TAG] of FreeType: four characters packed big-endian. *)
Definition MAKE_TAG (a b c d : ascii) : Z :=
  be_combine (map (fun ch => byte_of_Z (Z.of_N (N_of_ascii ch))) [a; b; c; d]).

Definition TTAG_head : Z := Eval vm_compute in MAKE_TAG "h" "e" "a" "d".
Definition TTAG_hhea : Z := Eval vm_compute in MAKE_TAG "h" "h" "e" "a".
Definition TTAG_loca : Z := Eval vm_compute in MAKE_TAG "l" "o" "c" "a".
Definition TTAG_maxp : Z := Eval vm_compute in MAKE_TAG "m" "a" "x" "p".
Definition TTAG_glyf : Z := Eval vm_compute in MAKE_TAG "g" "l" "y" "f".
Definition TTAG_hmtx : Z := Eval vm_compute in MAKE_TAG "h" "m" "t" "x".
Definition TTAG_cvt  : Z := Eval vm_compute in MAKE_TAG "c" "v" "t" " ".
Definition TTAG_fpgm : Z := Eval vm_compute in MAKE_TAG "f" "p" "g" "m".
Definition TTAG_prep : Z := Eval vm_compute in MAKE_TAG "p" "r" "e" "p".
Definition TTAG_post : Z := Eval vm_compute in MAKE_TAG "p" "o" "s" "t".
Definition TTAG_cmap : Z := Eval vm_compute in MAKE_TAG "c" "m" "a" "p".

(** [enum class ReqTable], a bit mask. *)
Definition ReqTable_none : Z := 0.
Definition ReqTable_head : Z := 1.
Definition ReqTable_hhea : Z := 2.
Definition ReqTable_loca : Z := 4.
Definition ReqTable_maxp : Z := 8.
Definition ReqTable_glyf : Z := 16.
Definition ReqTable_hmtx : Z := 32.
Definition ReqTable_all : Z :=
  Z.lor ReqTable_head (Z.lor ReqTable_hhea (Z.lor ReqTable_loca
    (Z.lor ReqTable_maxp (Z.lor ReqTable_glyf ReqTable_hmtx)))).

Definition LENGTH_HEADER12 : Z := 12.
Definition LENGTH_OFFSETTABLE16 : Z := 16.

Record TrueTypeTable : Type := mkTable {
  Tag : Z;
  Checksum : Z;
  Length : Z;
  Offset : Z
}.

(** The mask bit a directory entry contributes ([ReqTable_none] for a tag
    that is not one of the six). *)
Definition required_bit (tag : Z) : Z :=
  if tag =? TTAG_head then ReqTable_head
  else if tag =? TTAG_hhea then ReqTable_hhea
  else if tag =? TTAG_loca then ReqTable_loca
  else if tag =? TTAG_maxp then ReqTable_maxp
  else if tag =? TTAG_glyf then ReqTable_glyf
  else if tag =? TTAG_hmtx then ReqTable_hmtx
  else ReqTable_none.

(** The [switch] of [InitTables] on one directory entry: the new mask,
    [skipTable], and the entry as it is kept. *)
Definition classify_table (tableMask : Z) (tbl : TrueTypeTable)
  : Z * bool * TrueTypeTable :=
  let tag := Tag tbl in
  if tag =? TTAG_head then (Z.lor tableMask ReqTable_head, false, tbl)
  else if tag =? TTAG_hhea then (Z.lor tableMask ReqTable_hhea, false, tbl)
  else if tag =? TTAG_loca then (Z.lor tableMask ReqTable_loca, false, tbl)
  else if tag =? TTAG_maxp then (Z.lor tableMask ReqTable_maxp, false, tbl)
  else if tag =? TTAG_glyf then (Z.lor tableMask ReqTable_glyf, false, tbl)
  else if tag =? TTAG_hmtx then (Z.lor tableMask ReqTable_hmtx, false, tbl)
  else if (tag =? TTAG_cvt) || (tag =? TTAG_fpgm) || (tag =? TTAG_prep)
       then (tableMask, false, tbl)
  else if tag =? TTAG_post
       then (tableMask, Length tbl <? 32,
             mkTable (Tag tbl) (Checksum tbl) 32 (Offset tbl))
  else (tableMask, true, tbl).

(** One iteration of the directory scan, for entry [i]. *)
Definition scan_entry (dev : device) (i : Z) (st : Z * list TrueTypeTable)
  : outcome (Z * list TrueTypeTable) :=
  let '(tableMask, tables) := st in
  let base := LENGTH_HEADER12 + LENGTH_OFFSETTABLE16 * i in
  tag ← ReadUInt32BE dev base;
  chk ← ReadUInt32BE dev (base + 4 * 1);
  off ← ReadUInt32BE dev (base + 4 * 2);
  len ← ReadUInt32BE dev (base + 4 * 3);
  let '(tableMask', skipTable, tbl) := classify_table tableMask (mkTable tag chk len off) in
  Ok (tableMask', if skipTable then tables else tables ++ [tbl]).

(** The [for] loop of [InitTables]: entries [i], [i+1], ... ([n] of them). *)
Fixpoint scan_entries (dev : device) (n : nat) (i : Z) (st : Z * list TrueTypeTable)
  : outcome (Z * list TrueTypeTable) :=
  match n with
  | O => Ok st
  | S n' => st' ← scan_entry dev i st; scan_entries dev n' (i + 1) st'
  end.

(** [PdfFontTrueTypeSubset::InitTables]; the result is [m_tables]. *)
Definition InitTables (dev : device) : outcome (list TrueTypeTable) :=
  tableCount ← ReadUInt16BE dev (4 * 1);
  st ← scan_entries dev (Z.to_nat tableCount) 0 (ReqTable_none, []);
  let '(tableMask, tables) := st in
  if Z.land tableMask ReqTable_all =? ReqTable_none
  then Raise UnsupportedFontFormat
  else Ok tables.

(** [PdfFontTrueTypeSubset::GetTableOffset]. *)
Fixpoint GetTableOffset (tables : list TrueTypeTable) (tag : Z) : outcome Z :=
  match tables with
  | [] => Raise InternalLogic
  | table :: rest => if Tag table =? tag then Ok (Offset table) else GetTableOffset rest tag
  end.

(** *** Glyph records *)

(** A component of a compound glyph: where its glyph index sits, relative to
    the start of the glyph, and the index it gets in the subset. *)
Record GlyphCompoundComponentData : Type := mkComponent {
  cmp_Offset : Z;
  cmp_GlyphIndex : Z
}.

Record GlyphData : Type := mkGlyphData {
  IsCompound : bool;
  GlyphOffset : Z;
  GlyphLength : Z;
  GlyphAdvOffset : Z;
  CompoundComponents : list GlyphCompoundComponentData
}.

(** The value-initialised record ([= { }]). *)
Definition GlyphData_default : GlyphData := mkGlyphData false 0 0 0 [].

(** Modelled from the spec: the type of [m_glyphDatas] is declared in the
    header, which is not among the sources embedded here.  The records are
    keyed by the original glyph index; the container is taken to be the one
    the local [glyphIndexMap] of [LoadGlyphs] is declared with, a
    [std::map<unsigned, GlyphData>], so the entries are kept, and iterated,
    in increasing order of the key. *)
Definition GlyphDatas := list (Z * GlyphData).

Fixpoint gd_find (gid : Z) (m : GlyphDatas) : option GlyphData :=
  match m with
  | [] => None
  | (k, v) :: rest => if k =? gid then Some v else gd_find gid rest
  end.

(** [m[gid] = v]: assignment through [operator[]], keeping the key order. *)
Fixpoint gd_put (gid : Z) (v : GlyphData) (m : GlyphDatas) : GlyphDatas :=
  match m with
  | [] => [(gid, v)]
  | (k, w) :: rest =>
      if gid <? k then (gid, v) :: m
      else if gid =? k then (gid, v) :: rest
      else (k, w) :: gd_put gid v rest
  end.

(** [m[gid]] as an rvalue: a missing key is inserted with the default record. *)
Definition gd_index (gid : Z) (m : GlyphDatas) : GlyphData * GlyphDatas :=
  match gd_find gid m with
  | Some v => (v, m)
  | None => (GlyphData_default, gd_put gid GlyphData_default m)
  end.

Record GlyphContext : Type := mkContext {
  GlyfTableOffset : Z;
  LocaTableOffset : Z
}.

Record GlyphCompoundData : Type := mkCompound {
  Flags : Z;
  GlyphIndex : Z
}.

(** The members of [PdfFontTrueTypeSubset]. *)
Record Subset : Type := mkSubset {
  m_device : device;
  m_isLongLoca : bool;
  m_glyphCount : Z;
  m_HMetricsCount : Z;
  m_tables : list TrueTypeTable;
  m_glyphDatas : GlyphDatas;
  m_orderedGIDs : list Z
}.

Definition set_glyphDatas (this : Subset) (g : GlyphDatas) : Subset :=
  mkSubset (m_device this) (m_isLongLoca this) (m_glyphCount this)
           (m_HMetricsCount this) (m_tables this) g (m_orderedGIDs this).

Definition set_orderedGIDs (this : Subset) (o : list Z) : Subset :=
  mkSubset (m_device this) (m_isLongLoca this) (m_glyphCount this)
           (m_HMetricsCount this) (m_tables this) (m_glyphDatas this) o.

(** [PdfFontTrueTypeSubset::Init]: [InitTables], [GetNumberOfGlyphs],
    [SeeIfLongLocaOrNot]. *)
Definition Init (dev : device) : outcome Subset :=
  tables ← InitTables dev;
  maxp ← GetTableOffset tables TTAG_maxp;
  glyphCount ← ReadUInt16BE dev (maxp + 4 * 1);
  hhea ← GetTableOffset tables TTAG_hhea;
  hMetricsCount ← ReadUInt16BE dev (hhea + 2 * 17);
  headOffset ← GetTableOffset tables TTAG_head;
  isLong ← ReadUInt16BE dev (headOffset + 50);
  Ok (mkSubset dev (negb (isLong =? 0)) glyphCount hMetricsCount tables [] []).

(** [PdfFontTrueTypeSubset::ReadGlyphCompoundData]. *)
Definition ReadGlyphCompoundData (dev : device) (offset : Z) : outcome GlyphCompoundData :=
  flags ← ReadUInt16BE dev offset;
  index ← ReadUInt16BE dev (offset + 2);
  Ok (mkCompound flags index).

Definition ARG_1_AND_2_ARE_WORDS : Z := 0x01.
Definition WE_HAVE_A_SCALE : Z := 0x08.
Definition MORE_COMPONENTS : Z := 0x20.
Definition WE_HAVE_AN_X_AND_Y_SCALE : Z := 0x40.
Definition WE_HAVE_TWO_BY_TWO : Z := 0x80.

(** [TryAdvanceCompoundOffset]: the returned flag and the [offset] after the
    call (an [unsigned], so the additions wrap). *)
Definition TryAdvanceCompoundOffset (offset flags : Z) : bool * Z :=
  if Z.land flags MORE_COMPONENTS =? 0 then (false, offset)
  else
    let offset1 :=
      u32 (offset + (if negb (Z.land flags ARG_1_AND_2_ARE_WORDS =? 0) then 4 * 2 else 3 * 2)) in
    let offset2 :=
      if negb (Z.land flags WE_HAVE_A_SCALE =? 0) then u32 (offset1 + 2)
      else if negb (Z.land flags WE_HAVE_AN_X_AND_Y_SCALE =? 0) then u32 (offset1 + 2 * 2)
      else if negb (Z.land flags WE_HAVE_TWO_BY_TWO =? 0) then u32 (offset1 + 4 * 2)
      else offset1 in
    (true, offset2).

(** The part of [LoadGID] that fills the fresh record from [loca]. *)
Definition read_glyph_location (this : Subset) (ctx : GlyphContext) (gid : Z)
  : outcome GlyphData :=
  let dev := m_device this in
  if m_isLongLoca this then
    offset1 ← ReadUInt32BE dev (LocaTableOffset ctx + 4 * gid);
    offset2 ← ReadUInt32BE dev (LocaTableOffset ctx + 4 * u32 (gid + 1));
    let glyphOffset := u32 (GlyfTableOffset ctx + offset1) in
    Ok (mkGlyphData false glyphOffset (u32 (offset2 - offset1))
                    (u32 (glyphOffset + 5 * 2)) [])
  else
    offset1 ← ReadUInt16BE dev (LocaTableOffset ctx + 2 * gid);
    let uoffset1 := Z.shiftl offset1 1 in
    offset2 ← ReadUInt16BE dev (LocaTableOffset ctx + 2 * u32 (gid + 1));
    let uoffset2 := Z.shiftl offset2 1 in
    let glyphOffset := u32 (GlyfTableOffset ctx + uoffset1) in
    Ok (mkGlyphData false glyphOffset (u32 (uoffset2 - uoffset1))
                    (u32 (glyphOffset + 5 * 2)) []).

Definition set_IsCompound (g : GlyphData) (b : bool) : GlyphData :=
  mkGlyphData b (GlyphOffset g) (GlyphLength g) (GlyphAdvOffset g) (CompoundComponents g).

Definition set_CompoundComponents (g : GlyphData) (c : list GlyphCompoundComponentData)
  : GlyphData :=
  mkGlyphData (IsCompound g) (GlyphOffset g) (GlyphLength g) (GlyphAdvOffset g) c.

(** [PdfFontTrueTypeSubset::LoadGID] and [LoadCompound], which call each
    other.  [fuel] bounds the number of nested calls and loop iterations.
    [ctx.ContourCount] is written and read back at once, so it is a local. *)
Fixpoint LoadGID (fuel : nat) (this : Subset) (ctx : GlyphContext) (gid : Z)
  : outcome Subset :=
  match fuel with
  | O => OutOfFuel
  | S fuel' =>
      if m_glyphCount this <=? gid then Raise InternalLogic
      else match gd_find gid (m_glyphDatas this) with
      | Some _ => Ok this
      | None =>
          let this0 := set_glyphDatas this (gd_put gid GlyphData_default (m_glyphDatas this)) in
          glyphData ← read_glyph_location this0 ctx gid;
          let this1 := set_glyphDatas this0 (gd_put gid glyphData (m_glyphDatas this0)) in
          contourCount ← ReadInt16BE (m_device this1) (GlyphOffset glyphData);
          if contourCount <? 0 then
            let glyphData' := set_IsCompound glyphData true in
            let this2 := set_glyphDatas this1 (gd_put gid glyphData' (m_glyphDatas this1)) in
            LoadCompound fuel' this2 ctx glyphData' 0
          else Ok this1
      end
  end
with LoadCompound (fuel : nat) (this : Subset) (ctx : GlyphContext)
                  (data : GlyphData) (offset : Z) : outcome Subset :=
  match fuel with
  | O => OutOfFuel
  | S fuel' =>
      cmpData ← ReadGlyphCompoundData (m_device this) (u32 (GlyphAdvOffset data + offset));
      this' ← LoadGID fuel' this ctx (GlyphIndex cmpData);
      match TryAdvanceCompoundOffset offset (Flags cmpData) with
      | (false, _) => Ok this'
      | (true, offset') => LoadCompound fuel' this' ctx data offset'
      end
  end.

(** [for (unsigned gid : gidList) LoadGID(ctx, gid);] *)
Fixpoint LoadGIDs (fuel : nat) (this : Subset) (ctx : GlyphContext) (gids : list Z)
  : outcome Subset :=
  match gids with
  | [] => Ok this
  | gid :: rest => this' ← LoadGID fuel this ctx gid; LoadGIDs fuel this' ctx rest
  end.

(** The second loop of [LoadGlyphs]: number the caller's glyphs.
    [glyphIndexMap.insert] leaves an existing key alone; the [push_back] is
    not guarded. *)
Fixpoint number_gids (gids : list Z) (glyphIndexMap : gmap Z Z) (ordered : list Z)
  : gmap Z Z * list Z :=
  match gids with
  | [] => (glyphIndexMap, ordered)
  | gid :: rest =>
      let glyphIndexMap' :=
        match glyphIndexMap !! gid with
        | Some _ => glyphIndexMap
        | None => <[gid := Z.of_nat (size glyphIndexMap)]> glyphIndexMap
        end in
      number_gids rest glyphIndexMap' (ordered ++ [gid])
  end.

(** The [while (true)] loop of [LoadGlyphs] over the components of one
    compound glyph. *)
Fixpoint remap_components (fuel : nat) (dev : device) (glyphData : GlyphData) (offset : Z)
    (glyphIndexMap : gmap Z Z) (ordered : list Z)
  : outcome (GlyphData * gmap Z Z * list Z) :=
  match fuel with
  | O => OutOfFuel
  | S fuel' =>
      let componentGlyphIdOffset := u32 (GlyphAdvOffset glyphData + offset) in
      cmpData ← ReadGlyphCompoundData dev componentGlyphIdOffset;
      let '(glyphIndexMap', ordered', assigned) :=
        match glyphIndexMap !! GlyphIndex cmpData with
        | Some assigned => (glyphIndexMap, ordered, assigned)
        | None =>
            let fresh := Z.of_nat (size glyphIndexMap) in
            (<[GlyphIndex cmpData := fresh]> glyphIndexMap,
             ordered ++ [GlyphIndex cmpData], fresh)
        end in
      let glyphData' :=
        set_CompoundComponents glyphData
          (CompoundComponents glyphData ++
           [mkComponent (u32 (u32 (componentGlyphIdOffset + 2) - GlyphOffset glyphData))
                        assigned]) in
      match TryAdvanceCompoundOffset offset (Flags cmpData) with
      | (false, _) => Ok (glyphData', glyphIndexMap', ordered')
      | (true, offset') => remap_components fuel' dev glyphData' offset' glyphIndexMap' ordered'
      end
  end.

(** The [for (auto& pair : m_glyphDatas)] loop of [LoadGlyphs], in the
    order of the map. *)
Fixpoint remap_glyphs (fuel : nat) (dev : device) (entries : GlyphDatas)
    (glyphIndexMap : gmap Z Z) (ordered : list Z)
  : outcome (GlyphDatas * gmap Z Z * list Z) :=
  match entries with
  | [] => Ok ([], glyphIndexMap, ordered)
  | (gid, glyphData) :: rest =>
      r ← (if IsCompound glyphData
           then remap_components fuel dev glyphData 0 glyphIndexMap ordered
           else Ok (glyphData, glyphIndexMap, ordered));
      let '(glyphData', glyphIndexMap', ordered') := r in
      r' ← remap_glyphs fuel dev rest glyphIndexMap' ordered';
      let '(rest', glyphIndexMap'', ordered'') := r' in
      Ok ((gid, glyphData') :: rest', glyphIndexMap'', ordered'')
  end.

(** [PdfFontTrueTypeSubset::LoadGlyphs]; also returns the local
    [glyphIndexMap], the renumbering. *)
Definition LoadGlyphs (fuel : nat) (this : Subset) (ctx : GlyphContext) (gidList : list Z)
  : outcome (Subset * gmap Z Z) :=
  this0 ← LoadGID fuel this ctx 0;
  this1 ← LoadGIDs fuel this0 ctx gidList;
  let '(glyphIndexMap, ordered) :=
    number_gids gidList (<[0 := 0]> ∅) (m_orderedGIDs this1 ++ [0]) in
  r ← remap_glyphs fuel (m_device this1) (m_glyphDatas this1) glyphIndexMap ordered;
  let '(glyphDatas, glyphIndexMap', ordered') := r in
  Ok (set_orderedGIDs (set_glyphDatas this1 glyphDatas) ordered', glyphIndexMap').

(** *** The output buffer *)

(** The output is the caller's [std::string]; [PdfStringOutputDevice]
    appends to it, so [Tell()] is its length, and the fix-ups after a copy
    store through [buffer.data() + offset].  A store that does not lie
    inside the buffer is undefined. *)
Definition buffer := list byte.

Definition Tell (buf : buffer) : Z := Z.of_nat (length buf).

Definition poke (buf : buffer) (offset : Z) (bs : list byte) : outcome buffer :=
  if (0 <=? offset) && (offset + Z.of_nat (length bs) <=? Z.of_nat (length buf))
  then Ok (take (Z.to_nat offset) buf ++ bs
           ++ drop (Z.to_nat offset + length bs) buf)
  else Undefined.

(** [PdfFontTrueTypeSubset::CopyData]. *)
Definition CopyData (dev : device) (output : buffer) (offset size : Z) : outcome buffer :=
  bs ← Read dev offset size; Ok (output ++ bs).

(** [PdfFontTrueTypeSubset::WriteGlyphTable].  [m_glyphDatas[gid]] may
    insert, so the map is returned as well. *)
Fixpoint WriteGlyphTable (dev : device) (gids : list Z) (glyphDatas : GlyphDatas)
    (output : buffer) : outcome (buffer * GlyphDatas) :=
  match gids with
  | [] => Ok (output, glyphDatas)
  | gid :: rest =>
      let '(glyphData, glyphDatas') := gd_index gid glyphDatas in
      if GlyphLength glyphData =? 0 then WriteGlyphTable dev rest glyphDatas' output
      else if IsCompound glyphData then
        tmpBuffer ← Read dev (GlyphOffset glyphData) (GlyphLength glyphData);
        tmpBuffer' ← foldl (fun acc component =>
                              tmp ← acc;
                              poke tmp (cmp_Offset component) (be16 (u16 (cmp_GlyphIndex component))))
                           (Ok tmpBuffer) (CompoundComponents glyphData);
        WriteGlyphTable dev rest glyphDatas' (output ++ tmpBuffer')
      else
        output' ← CopyData dev output (GlyphOffset glyphData) (GlyphLength glyphData);
        WriteGlyphTable dev rest glyphDatas' output'
  end.

(** [PdfFontTrueTypeSubset::WriteHmtxTable]; [sizeof(LongHorMetrics)] is 4. *)
Fixpoint copy_metrics (dev : device) (tableOffset : Z) (gids : list Z) (output : buffer)
  : outcome buffer :=
  match gids with
  | [] => Ok output
  | gid :: rest =>
      output' ← CopyData dev output (u32 (tableOffset + gid * 4)) 4;
      copy_metrics dev tableOffset rest output'
  end.

Definition WriteHmtxTable (this : Subset) (output : buffer) : outcome buffer :=
  tableOffset ← GetTableOffset (m_tables this) TTAG_hmtx;
  copy_metrics (m_device this) tableOffset (m_orderedGIDs this) output.

(** [PdfFontTrueTypeSubset::WriteLocaTable]: the loop, then the extra entry. *)
Fixpoint write_loca_entries (isLong : bool) (gids : list Z) (glyphDatas : GlyphDatas)
    (glyphAddress : Z) (output : buffer) : buffer * GlyphDatas :=
  match gids with
  | [] =>
      (output ++ (if isLong then be32 glyphAddress
                  else be16 (u16 (Z.shiftr glyphAddress 1))),
       glyphDatas)
  | gid :: rest =>
      let '(glyphData, glyphDatas') := gd_index gid glyphDatas in
      write_loca_entries isLong rest glyphDatas'
        (u32 (glyphAddress + GlyphLength glyphData))
        (output ++ (if isLong then be32 glyphAddress
                    else be16 (u16 (Z.shiftr glyphAddress 1))))
  end.

Definition WriteLocaTable (this : Subset) (output : buffer) : buffer * GlyphDatas :=
  write_loca_entries (m_isLongLoca this) (m_orderedGIDs this) (m_glyphDatas this) 0 output.

Section Writer.

(** Whether plain [char] is signed is left to the platform (it is on x86-64,
    it is not on AArch64 Linux); the checksum below depends on it. *)
Variable char_is_signed : bool.

Definition char_value (b : byte) : Z :=
  if char_is_signed && (128 <=? Z_of_byte b) then Z_of_byte b - 256 else Z_of_byte b.

(** [GetTableCheksum]: [buf] is a [const char*], so [*buf++] reads one
    [char] and steps one byte; [nLongs] of them are added up.  [buf] is the
    buffer from the first byte of the range on. *)
Fixpoint sum_chars (sum : Z) (nLongs : nat) (buf : list byte) : outcome Z :=
  match nLongs with
  | O => Ok sum
  | S n =>
      match buf with
      | [] => Undefined
      | c :: buf' => sum_chars (u32 (sum + char_value c)) n buf'
      end
  end.

Definition GetTableCheksum (buf : list byte) (size : Z) : outcome Z :=
  let nLongs := u32 (size + 3) / 4 in
  sum_chars 0 (Z.to_nat nLongs) buf.

(** The body of the [switch] of [WriteTables] for one table. *)
Definition write_table (this : Subset) (table : TrueTypeTable) (output : buffer)
  : outcome (buffer * GlyphDatas) :=
  let dev := m_device this in
  let tableOffset := Tell output in
  let tag := Tag table in
  let keep (o : outcome buffer) := buf ← o; Ok (buf, m_glyphDatas this) in
  if tag =? TTAG_head then
    keep (buf ← CopyData dev output (Offset table) (Length table);
          poke buf (tableOffset + 4) (be32 0))
  else if tag =? TTAG_maxp then
    keep (buf ← CopyData dev output (Offset table) (Length table);
          poke buf (tableOffset + 4) (be16 (u16 (Z.of_nat (length (m_glyphDatas this))))))
  else if tag =? TTAG_hhea then
    keep (buf ← CopyData dev output (Offset table) (Length table);
          poke buf (tableOffset + 34) (be16 (u16 (Z.of_nat (length (m_glyphDatas this))))))
  else if tag =? TTAG_post then
    keep (buf ← CopyData dev output (Offset table) (Length table);
          buf' ← poke buf tableOffset (be32 0x00030000);
          poke buf' (tableOffset + 16) (replicate 16 x00))
  else if tag =? TTAG_glyf then
    WriteGlyphTable dev (m_orderedGIDs this) (m_glyphDatas this) output
  else if tag =? TTAG_loca then
    Ok (WriteLocaTable this output)
  else if tag =? TTAG_hmtx then
    keep (WriteHmtxTable this output)
  else if (tag =? TTAG_cvt) || (tag =? TTAG_fpgm) || (tag =? TTAG_prep) then
    keep (CopyData dev output (Offset table) (Length table))
  else Raise InvalidEnumValue.

(** The second [for] loop of [WriteTables], from table [i] on; returns the
    buffer and [headOffset]. *)
Fixpoint write_tables (this : Subset) (directoryTableOffset : Z) (i : Z)
    (tables : list TrueTypeTable) (headOffset : option Z) (output : buffer)
  : outcome (buffer * option Z) :=
  match tables with
  | [] => Ok (output, headOffset)
  | table :: rest =>
      let tableOffset := Tell output in
      let headOffset' := if Tag table =? TTAG_head then Some tableOffset else headOffset in
      r ← write_table this table output;
      let '(buf, glyphDatas) := r in
      let tableLength := Tell buf - tableOffset in
      let tableLengthPadded := Z.land (tableLength + 3) (Z.lnot 3) in
      let buf1 := buf ++ replicate (Z.to_nat (tableLengthPadded - tableLength)) x00 in
      let currDirTableOffset := directoryTableOffset + i * LENGTH_OFFSETTABLE16 in
      sum ← GetTableCheksum (drop (Z.to_nat tableOffset) buf1) (u32 tableLength);
      buf2 ← poke buf1 (currDirTableOffset + 4) (be32 sum);
      buf3 ← poke buf2 (currDirTableOffset + 8) (be32 (u32 tableOffset));
      buf4 ← poke buf3 (currDirTableOffset + 12) (be32 (u32 tableLength));
      write_tables (set_glyphDatas this glyphDatas) directoryTableOffset (i + 1)
                   rest headOffset' buf4
  end.

(** [PdfFontTrueTypeSubset::WriteTables], into an empty [buffer].
    [ceil(log2(n))] is [Z.log2_up n] for [n >= 1]; for no table at all, and
    for a [searchRange] that does not fit 16 bits, the conversions from
    [double] are undefined. *)
Definition WriteTables (this : Subset) : outcome buffer :=
  let numTables := Z.of_nat (length (m_tables this)) in
  if (numTables <? 1) || (2 ^ 15 <? numTables) then Undefined
  else
    let entrySelector := u16 (Z.log2_up numTables) in
    let searchRange := u16 (2 ^ entrySelector) in
    let rangeShift := u16 (16 * u16 numTables - searchRange) in
    let output0 := be32 0x00010000 ++ be16 (u16 numTables) ++ be16 searchRange
                   ++ be16 entrySelector ++ be16 rangeShift in
    let directoryTableOffset := Tell output0 in
    let output1 :=
      foldl (fun out table => out ++ be32 (Tag table) ++ be32 0 ++ be32 0 ++ be32 0)
            output0 (m_tables this) in
    r ← write_tables this directoryTableOffset 0 (m_tables this) None output1;
    let '(buf, headOffset) := r in
    match headOffset with
    | None => Raise InternalLogic
    | Some headOffset =>
        sum ← GetTableCheksum buf (u32 (Tell buf));
        let fontChecksum := u32 (0xB1B0AFBA - sum) in
        poke buf (headOffset + 4) (be32 fontChecksum)
    end.

(** [PdfFontTrueTypeSubset::BuildFont(string&, const GIDList&)]. *)
Definition BuildFont (fuel : nat) (dev : device) (gidList : list Z) : outcome buffer :=
  this ← Init dev;
  glyf ← GetTableOffset (m_tables this) TTAG_glyf;
  loca ← GetTableOffset (m_tables this) TTAG_loca;
  r ← LoadGlyphs fuel this (mkContext glyf loca) gidList;
  WriteTables (fst r).

End Writer.

End TrueTypeSubset.

(** ** The PDF variant and the dictionary ([PdfVariant.cpp]) *)

Module Variant.

Inductive EPdfDataType : Type :=
| ePdfDataType_Bool
| ePdfDataType_Number
| ePdfDataType_Real
| ePdfDataType_String
| ePdfDataType_HexString
| ePdfDataType_Name
| ePdfDataType_Array
| ePdfDataType_Dictionary
| ePdfDataType_Null
| ePdfDataType_Reference
| ePdfDataType_RawData
| ePdfDataType_Unknown.

Definition EPdfDataType_eqb (a b : EPdfDataType) : bool :=
  match a, b with
  | ePdfDataType_Bool, ePdfDataType_Bool
  | ePdfDataType_Number, ePdfDataType_Number
  | ePdfDataType_Real, ePdfDataType_Real
  | ePdfDataType_String, ePdfDataType_String
  | ePdfDataType_HexString, ePdfDataType_HexString
  | ePdfDataType_Name, ePdfDataType_Name
  | ePdfDataType_Array, ePdfDataType_Array
  | ePdfDataType_Dictionary, ePdfDataType_Dictionary
  | ePdfDataType_Null, ePdfDataType_Null
  | ePdfDataType_Reference, ePdfDataType_Reference
  | ePdfDataType_RawData, ePdfDataType_RawData
  | ePdfDataType_Unknown, ePdfDataType_Unknown => true
  | _, _ => false
  end.

(** A name is its bytes; the empty name is a name. *)
Definition PdfName : Type := string.

Record PdfString : Type := mkString {
  str_bytes : string;
  IsHex : bool
}.

Record PdfReference : Type := mkReference {
  ObjectNumber : Z;
  GenerationNumber : Z
}.

(** *** The containers, over the type of their elements

    The elements are [PdfObject]s; a [PdfObject] is a [PdfVariant] with an
    identity, a stream and an owner, none of which the functions below
    look at, so an element is its [PdfVariant] part. *)

(** Modelled from the spec: [PdfArray] is implemented outside the sources
    embedded here.  It is an ordered sequence with a dirty flag of its own. *)
Record PdfArray (A : Type) : Type := mkArray {
  arr_objects : list A;
  arr_bDirty : bool
}.
Arguments mkArray {A} _ _.
Arguments arr_objects {A} _.
Arguments arr_bDirty {A} _.

(** [PdfDictionary]: [m_mapKeys] is a [std::map<PdfName, PdfObject>], kept
    and iterated in the order of the keys; [m_bDirty]; and the immutable
    flag of the [PdfDataType] base, which [AssertMutable] tests. *)
Record PdfDictionary (A : Type) : Type := mkDictionary {
  m_mapKeys : list (PdfName * A);
  dict_bDirty : bool;
  dict_bImmutable : bool
}.
Arguments mkDictionary {A} _ _ _.
Arguments m_mapKeys {A} _.
Arguments dict_bDirty {A} _.
Arguments dict_bImmutable {A} _.

(** What [m_Data.pData] points to. *)
Inductive PdfDataType (A : Type) : Type :=
| DataString (s : PdfString)
| DataName (n : PdfName)
| DataReference (r : PdfReference)
| DataArray (a : PdfArray A)
| DataDictionary (d : PdfDictionary A)
| DataRaw (bytes : string).
Arguments DataString {A} _.
Arguments DataName {A} _.
Arguments DataReference {A} _.
Arguments DataArray {A} _.
Arguments DataDictionary {A} _.
Arguments DataRaw {A} _.

Scheme All for list.
Scheme All for prod.
Scheme All for PdfArray.
Scheme All for PdfDictionary.
Scheme All for PdfDataType.

(** The union [UVariant], by the member that was stored last; [zeroed] is
    the union after the [memset] of [Init] (a null [pData], [false], [0]). *)
Inductive UVariant (A : Type) : Type :=
| zeroed
| bBoolValue (b : bool)
| nNumber (n : Z)
| dNumber (d : spec_float)
| pData (p : PdfDataType A).
Arguments zeroed {A}.
Arguments bBoolValue {A} _.
Arguments nNumber {A} _.
Arguments dNumber {A} _.
Arguments pData {A} _.

Scheme All for UVariant.

Inductive PdfVariant : Type := mkVariant {
  m_Data : UVariant PdfVariant;
  m_bDelayedLoadDone : bool;
  m_bDirty : bool;
  m_eDataType : EPdfDataType;
  m_bImmutable : bool
}.

Definition PdfObject : Type := PdfVariant.

(** [PdfVariant::Init]. *)
Definition Init : PdfVariant := mkVariant zeroed true false ePdfDataType_Unknown false.

Definition with_type (v : PdfVariant) (t : EPdfDataType) : PdfVariant :=
  mkVariant (m_Data v) (m_bDelayedLoadDone v) (m_bDirty v) t (m_bImmutable v).
Definition with_data (v : PdfVariant) (d : UVariant PdfVariant) : PdfVariant :=
  mkVariant d (m_bDelayedLoadDone v) (m_bDirty v) (m_eDataType v) (m_bImmutable v).
Definition with_dirty (v : PdfVariant) (b : bool) : PdfVariant :=
  mkVariant (m_Data v) (m_bDelayedLoadDone v) b (m_eDataType v) (m_bImmutable v).
Definition with_immutable (v : PdfVariant) (b : bool) : PdfVariant :=
  mkVariant (m_Data v) (m_bDelayedLoadDone v) (m_bDirty v) (m_eDataType v) b.

(** The constructors, each [Init] followed by the type and the payload. *)
Definition PdfVariant_null : PdfVariant := with_type Init ePdfDataType_Null.
Definition PdfVariant_bool (b : bool) : PdfVariant :=
  with_data (with_type Init ePdfDataType_Bool) (bBoolValue b).
Definition PdfVariant_number (l : Z) : PdfVariant :=
  with_data (with_type Init ePdfDataType_Number) (nNumber l).
Definition PdfVariant_real (d : spec_float) : PdfVariant :=
  with_data (with_type Init ePdfDataType_Real) (dNumber d).
Definition PdfVariant_string (s : PdfString) : PdfVariant :=
  with_data (with_type Init (if IsHex s then ePdfDataType_HexString else ePdfDataType_String))
            (pData (DataString s)).
Definition PdfVariant_name (n : PdfName) : PdfVariant :=
  with_data (with_type Init ePdfDataType_Name) (pData (DataName n)).
Definition PdfVariant_reference (r : PdfReference) : PdfVariant :=
  with_data (with_type Init ePdfDataType_Reference) (pData (DataReference r)).

(** [PdfVariant::DelayedLoad]: nothing to do once the load is done; the
    base class has no loader, its [DelayedLoadImpl] throws. *)
Definition DelayedLoad (v : PdfVariant) : outcome unit :=
  if m_bDelayedLoadDone v then Ok tt else Raise InternalLogic.

Definition GetDataType (v : PdfVariant) : outcome EPdfDataType :=
  _ ← DelayedLoad v; Ok (m_eDataType v).

Definition IsReal (v : PdfVariant) : outcome bool :=
  t ← GetDataType v; Ok (EPdfDataType_eqb t ePdfDataType_Real).
Definition IsNumber (v : PdfVariant) : outcome bool :=
  t ← GetDataType v; Ok (EPdfDataType_eqb t ePdfDataType_Number).
Definition IsReference (v : PdfVariant) : outcome bool :=
  t ← GetDataType v; Ok (EPdfDataType_eqb t ePdfDataType_Reference).

(** [PdfVariant::AssertMutable]. *)
Definition AssertMutable (v : PdfVariant) : outcome unit :=
  if m_bImmutable v then Raise ChangeOnImmutable else Ok tt.

(** *** Reading a number *)

(** [floor] of a [double], as an integer; [None] for an infinity or a NaN. *)
Definition floor_double (d : spec_float) : option Z :=
  match d with
  | S754_zero _ => Some 0
  | S754_finite s m e =>
      let z := if s then Z.neg m else Z.pos m in
      Some (if 0 <=? e then z * 2 ^ e else z / 2 ^ (- e))
  | S754_infinity _ | S754_nan => None
  end.

(** [static_cast<long>] of a [double] that holds an integer: the value when
    a 64-bit [long] can hold it, undefined otherwise. *)
Definition double_to_long (f : option Z) : outcome Z :=
  match f with
  | Some z => if (- 2 ^ 63 <=? z) && (z <? 2 ^ 63) then Ok z else Undefined
  | None => Undefined
  end.

(** [PdfVariant::GetNumber]. *)
Definition GetNumber (v : PdfVariant) : outcome Z :=
  _ ← DelayedLoad v;
  isReal ← IsReal v;
  isNumber ← IsNumber v;
  if negb isReal && negb isNumber then Raise InvalidDataType
  else if isReal then
    match m_Data v with
    | dNumber d => double_to_long (floor_double d)
    | zeroed => Ok 0
    | _ => Undefined
    end
  else
    match m_Data v with
    | nNumber n => Ok n
    | zeroed => Ok 0
    | _ => Undefined
    end.

(** *** Setters *)

(** [PdfVariant::SetReference].  The store goes through [m_Data.pData] as a
    [PdfReference*]; when it is reached, the variant is not a reference and
    the pointer is not one to a [PdfReference]. *)
Definition SetReference (v : PdfVariant) (ref : PdfReference) : outcome PdfVariant :=
  _ ← DelayedLoad v;
  isReference ← IsReference v;
  if (isReference : bool) then Raise InvalidDataType
  else
    _ ← AssertMutable v;
    match m_Data v with
    | pData (DataReference _) => Ok (with_dirty (with_data v (pData (DataReference ref))) true)
    | _ => Undefined
    end.

(** [PdfVariant::SetName], one of the sibling setters. *)
Definition SetName (v : PdfVariant) (name : PdfName) : outcome PdfVariant :=
  _ ← DelayedLoad v;
  t ← GetDataType v;
  if negb (EPdfDataType_eqb t ePdfDataType_Name) then Raise InvalidDataType
  else
    _ ← AssertMutable v;
    match m_Data v with
    | pData (DataName _) => Ok (with_dirty (with_data v (pData (DataName name))) true)
    | _ => Undefined
    end.

(** [PdfVariant::SetBool], another one. *)
Definition SetBool (v : PdfVariant) (b : bool) : outcome PdfVariant :=
  _ ← DelayedLoad v;
  t ← GetDataType v;
  if negb (EPdfDataType_eqb t ePdfDataType_Bool) then Raise InvalidDataType
  else
    _ ← AssertMutable v;
    Ok (with_dirty (with_data v (bBoolValue b)) true).

(** *** Container operations, over the operations of the elements *)

Section Containers.

Context {A : Type}.
(** [IsDirty], [SetDirty], the copy constructor and the assignment of an
    element. *)
Variable IsDirtyA : A -> outcome bool.
Variable SetDirtyA : A -> bool -> outcome A.
Variable CopyA : A -> outcome A.
Variable AssignA : A -> outcome A.

(** The [while] loop of [PdfDictionary::IsDirty]. *)
Fixpoint any_dirty (it : list (PdfName * A)) : outcome bool :=
  match it with
  | [] => Ok false
  | (_, second) :: it' =>
      dirty ← IsDirtyA second;
      if (dirty : bool) then Ok true else any_dirty it'
  end.

(** [PdfDictionary::IsDirty]. *)
Definition Dictionary_IsDirty (d : PdfDictionary A) : outcome bool :=
  if dict_bDirty d then Ok true else any_dirty (m_mapKeys d).

(** The [while] loop of [PdfDictionary::SetDirty]. *)
Fixpoint set_dirty_all (bDirty : bool) (it : list (PdfName * A))
  : outcome (list (PdfName * A)) :=
  match it with
  | [] => Ok []
  | (first, second) :: it' =>
      second' ← SetDirtyA second bDirty;
      rest ← set_dirty_all bDirty it';
      Ok ((first, second') :: rest)
  end.

(** [PdfDictionary::SetDirty]. *)
Definition Dictionary_SetDirty (d : PdfDictionary A) (bDirty : bool)
  : outcome (PdfDictionary A) :=
  if negb bDirty then
    keys ← set_dirty_all bDirty (m_mapKeys d);
    Ok (mkDictionary keys bDirty (dict_bImmutable d))
  else Ok (mkDictionary (m_mapKeys d) bDirty (dict_bImmutable d)).

(** [m_mapKeys = rhs.m_mapKeys]: every entry is copy-constructed. *)
Fixpoint copy_entries (it : list (PdfName * A)) : outcome (list (PdfName * A)) :=
  match it with
  | [] => Ok []
  | (first, second) :: it' =>
      second' ← CopyA second;
      rest ← copy_entries it';
      Ok ((first, second') :: rest)
  end.

(** [PdfDictionary::operator=]; [PdfOwnedDataType::operator=] does not touch
    what is modelled here. *)
Definition Dictionary_assign (this rhs : PdfDictionary A) : outcome (PdfDictionary A) :=
  keys ← copy_entries (m_mapKeys rhs);
  Ok (mkDictionary keys true (dict_bImmutable this)).

(** [PdfDictionary::PdfDictionary(const PdfDictionary&)]: a default
    [PdfOwnedDataType], the assignment, then [m_bDirty = false]. *)
Definition Dictionary_copy (rhs : PdfDictionary A) : outcome (PdfDictionary A) :=
  this ← Dictionary_assign (mkDictionary [] false false) rhs;
  Ok (mkDictionary (m_mapKeys this) false (dict_bImmutable this)).

(** Modelled from the spec: [PdfArray::IsDirty] and [PdfArray::SetDirty]
    are implemented outside the sources embedded here.  An array is dirty when
    its own flag or the flag of a child is set (I2), and clearing the flag
    clears it in all children (P3). *)
Fixpoint any_dirty_elem (it : list A) : outcome bool :=
  match it with
  | [] => Ok false
  | x :: it' =>
      dirty ← IsDirtyA x;
      if (dirty : bool) then Ok true else any_dirty_elem it'
  end.

Definition Array_IsDirty (a : PdfArray A) : outcome bool :=
  if arr_bDirty a then Ok true else any_dirty_elem (arr_objects a).

Fixpoint set_dirty_elems (bDirty : bool) (it : list A) : outcome (list A) :=
  match it with
  | [] => Ok []
  | x :: it' =>
      x' ← SetDirtyA x bDirty;
      rest ← set_dirty_elems bDirty it';
      Ok (x' :: rest)
  end.

Definition Array_SetDirty (a : PdfArray A) (bDirty : bool) : outcome (PdfArray A) :=
  if negb bDirty then
    objs ← set_dirty_elems bDirty (arr_objects a);
    Ok (mkArray objs bDirty)
  else Ok (mkArray (arr_objects a) bDirty).

(** Modelled from the spec: the copy constructor of [PdfArray] is outside
    the sources embedded here.  A clone is a deep copy of the owned payload:
    every element is copy-constructed; the flag of the array is carried
    over as it is. *)
Fixpoint copy_elems (it : list A) : outcome (list A) :=
  match it with
  | [] => Ok []
  | x :: it' =>
      x' ← CopyA x;
      rest ← copy_elems it';
      Ok (x' :: rest)
  end.

Definition Array_copy (rhs : PdfArray A) : outcome (PdfArray A) :=
  objs ← copy_elems (arr_objects rhs);
  Ok (mkArray objs (arr_bDirty rhs)).

(** **** The sorted map *)

Fixpoint map_find (key : PdfName) (m : list (PdfName * A)) : option A :=
  match m with
  | [] => None
  | (k, v) :: rest => if String.eqb k key then Some v else map_find key rest
  end.

(** [std::map::insert]: an existing entry is kept; the flag tells whether
    the pair went in. *)
Fixpoint map_insert (key : PdfName) (v : A) (m : list (PdfName * A))
  : list (PdfName * A) * bool :=
  match m with
  | [] => ([(key, v)], true)
  | (k, w) :: rest =>
      if String.ltb key k then ((key, v) :: m, true)
      else if String.eqb key k then (m, false)
      else let '(rest', inserted) := map_insert key v rest in ((k, w) :: rest', inserted)
  end.

(** [it->second = v] for the entry of [key]. *)
Fixpoint map_store (key : PdfName) (v : A) (m : list (PdfName * A)) : list (PdfName * A) :=
  match m with
  | [] => []
  | (k, w) :: rest =>
      if String.eqb k key then (k, v) :: rest else (k, w) :: map_store key v rest
  end.

Fixpoint map_erase (key : PdfName) (m : list (PdfName * A)) : list (PdfName * A) :=
  match m with
  | [] => []
  | (k, w) :: rest => if String.eqb k key then rest else (k, w) :: map_erase key rest
  end.

(** [PdfDataType::AssertMutable] on a dictionary. *)
Definition Dictionary_AssertMutable (d : PdfDictionary A) : outcome unit :=
  if dict_bImmutable d then Raise ChangeOnImmutable else Ok tt.

(** [PdfDictionary::AddKey(const PdfName&, const PdfObject&)]: the new
    dictionary (the returned reference is its entry for [identifier]).
    [std::make_pair] copies [rObject] and the insertion copies the pair;
    the owner links are not modelled. *)
Definition AddKey (d : PdfDictionary A) (identifier : PdfName) (rObject : A)
  : outcome (PdfDictionary A) :=
  _ ← Dictionary_AssertMutable d;
  paired ← CopyA rObject;
  node ← CopyA paired;
  let '(keys, inserted) := map_insert identifier node (m_mapKeys d) in
  keys' ← (if (inserted : bool) then Ok keys
           else assigned ← AssignA rObject; Ok (map_store identifier assigned keys));
  Ok (mkDictionary keys' true (dict_bImmutable d)).

(** [PdfDictionary::getKey]. *)
Definition getKey (d : PdfDictionary A) (key : PdfName) : option A :=
  if negb (0 <? String.length key)%nat then None
  else map_find key (m_mapKeys d).

(** [PdfDictionary::HasKey]. *)
Definition HasKey (d : PdfDictionary A) (key : PdfName) : bool :=
  match map_find key (m_mapKeys d) with Some _ => true | None => false end.

(** [PdfDictionary::RemoveKey]. *)
Definition RemoveKey (d : PdfDictionary A) (identifier : PdfName)
  : outcome (PdfDictionary A * bool) :=
  _ ← Dictionary_AssertMutable d;
  match map_find identifier (m_mapKeys d) with
  | None => Ok (d, false)
  | Some _ => Ok (mkDictionary (map_erase identifier (m_mapKeys d)) true (dict_bImmutable d), true)
  end.

(** **** [PdfDictionary::operator==] *)

(** The comparison [!=] of two [PdfObject]s is declared outside the sources
    embedded here. *)
Variable PdfObject_ne : A -> A -> outcome bool.

(** The [while] loop.  [thisIt] and [rhsIt] are declared [const] and the
    body has no increment: an iteration that finds no mismatch leaves both
    where they were. *)
Fixpoint lockstep (fuel : nat) (thisIt rhsIt : list (PdfName * A)) : outcome bool :=
  match fuel with
  | O => OutOfFuel
  | S fuel' =>
      match thisIt, rhsIt with
      | (k1, v1) :: _, (k2, v2) :: _ =>
          if negb (String.eqb k1 k2) then Ok false
          else
            differ ← PdfObject_ne v1 v2;
            if (differ : bool) then Ok false
            else lockstep fuel' thisIt rhsIt
      | [], [] => Ok true
      | _, _ => Raise InternalLogic
      end
  end.

(** [same_object] is [this == &rhs]. *)
Definition Dictionary_eq (fuel : nat) (same_object : bool) (this rhs : PdfDictionary A)
  : outcome bool :=
  if same_object then Ok true
  else if negb (length (m_mapKeys this) =? length (m_mapKeys rhs))%nat then Ok false
  else lockstep fuel (m_mapKeys this) (m_mapKeys rhs).

End Containers.

(** *** Dirty flags and copies of a variant *)

(** [PdfVariant::IsDirty]; the call on [m_Data.pData] is virtual. *)
Fixpoint IsDirty (v : PdfVariant) : outcome bool :=
  if m_bDirty v then Ok true
  else match m_eDataType v with
  | ePdfDataType_Array | ePdfDataType_Dictionary =>
      match m_Data v with
      | pData (DataArray a) => Array_IsDirty IsDirty a
      | pData (DataDictionary d) => Dictionary_IsDirty IsDirty d
      | _ => Undefined
      end
  | _ => Ok (m_bDirty v)
  end.

(** [PdfVariant::SetDirty]. *)
Fixpoint SetDirty (v : PdfVariant) (bDirty : bool) : outcome PdfVariant :=
  let v' := with_dirty v bDirty in
  if negb bDirty then
    match m_eDataType v with
    | ePdfDataType_Array | ePdfDataType_Dictionary =>
        match m_Data v with
        | pData (DataArray a) =>
            a' ← Array_SetDirty SetDirty a bDirty; Ok (with_data v' (pData (DataArray a')))
        | pData (DataDictionary d) =>
            d' ← Dictionary_SetDirty SetDirty d bDirty; Ok (with_data v' (pData (DataDictionary d')))
        | _ => Undefined
        end
    | _ => Ok v'
    end
  else Ok v'.

(** [PdfVariant::operator=], given the copy constructor of the elements of
    a container: [Clear()] makes [*this] what [Init] makes it, whatever it
    was.  A null [rhs.m_Data.pData] is left null. *)
Definition assign_with (CopyA : PdfVariant -> outcome PdfVariant) (rhs : PdfVariant)
  : outcome PdfVariant :=
  _ ← DelayedLoad rhs;
  let this := with_type Init (m_eDataType rhs) in
  this' ←
    match m_eDataType rhs with
    | ePdfDataType_Array =>
        match m_Data rhs with
        | zeroed => Ok this
        | pData (DataArray a) => a' ← Array_copy CopyA a; Ok (with_data this (pData (DataArray a')))
        | _ => Undefined
        end
    | ePdfDataType_Reference =>
        match m_Data rhs with
        | zeroed => Ok this
        | pData (DataReference r) => Ok (with_data this (pData (DataReference r)))
        | _ => Undefined
        end
    | ePdfDataType_Dictionary =>
        match m_Data rhs with
        | zeroed => Ok this
        | pData (DataDictionary d) =>
            d' ← Dictionary_copy CopyA d; Ok (with_data this (pData (DataDictionary d')))
        | _ => Undefined
        end
    | ePdfDataType_Name =>
        match m_Data rhs with
        | zeroed => Ok this
        | pData (DataName n) => Ok (with_data this (pData (DataName n)))
        | _ => Undefined
        end
    | ePdfDataType_String | ePdfDataType_HexString =>
        match m_Data rhs with
        | zeroed => Ok this
        | pData (DataString s) => Ok (with_data this (pData (DataString s)))
        | _ => Undefined
        end
    | ePdfDataType_RawData =>
        match m_Data rhs with
        | zeroed => Ok this
        | pData (DataRaw b) => Ok (with_data this (pData (DataRaw b)))
        | _ => Undefined
        end
    | ePdfDataType_Bool | ePdfDataType_Null | ePdfDataType_Number | ePdfDataType_Real =>
        Ok (with_data this (m_Data rhs))
    | ePdfDataType_Unknown => Ok this
    end;
  SetDirty this' true.

(** [PdfVariant::PdfVariant(const PdfVariant&)]: [Init], the assignment,
    [SetDirty(false)].  The elements of a container are [PdfObject]s, whose
    copy constructor starts with this one. *)
Fixpoint PdfVariant_copy (rhs : PdfVariant) : outcome PdfVariant :=
  this ← assign_with PdfVariant_copy rhs;
  SetDirty this false.

Definition PdfVariant_assign (rhs : PdfVariant) : outcome PdfVariant :=
  assign_with PdfVariant_copy rhs.

(** *** Writing a variant *)

(** [EPdfWriteMode], a bit field; the values are declared in
    [PdfDefines.h]. *)
Definition ePdfWriteMode_Compact : Z := 0x01.
Definition ePdfWriteMode_Clean : Z := 0x02.

Definition is_compact (eWriteMode : Z) : bool :=
  Z.land eWriteMode ePdfWriteMode_Compact =? ePdfWriteMode_Compact.

Definition chars (s : string) : list ascii := list_ascii_of_string s.

(** Decimal digits of a natural number. *)
Definition decimal (n : Z) : list ascii :=
  chars (NilZero.string_of_uint (N.to_uint (Z.to_N n))).

(** Six decimal digits, with leading zeros. *)
Definition six_digits (n : Z) : list ascii :=
  drop 1 (decimal (10 ^ 6 + n mod 10 ^ 6)).

(** [num / den] rounded to the nearest integer, ties to the even one. *)
Definition round_half_even (num den : Z) : Z :=
  let q := num / den in
  let r := num mod den in
  if 2 * r <? den then q
  else if den <? 2 * r then q + 1
  else if Z.even q then q else q + 1.

(** The magnitude of a finite [double], times [10^6], rounded. *)
Definition scaled_magnitude (m : positive) (e : Z) : Z :=
  if 0 <=? e then Z.pos m * 2 ^ e * 10 ^ 6
  else round_half_even (Z.pos m * 10 ^ 6) (2 ^ (- e)).

Definition sign_chars (s : bool) : list ascii := if s then chars "-" else [].

(** [oss << std::fixed << d] in the classic locale, which [PdfLocaleImbue]
    sets: the fixed notation of the C++ stream library with its default
    precision of six digits, the value rounded to nearest. *)
Definition fixed (d : spec_float) : list ascii :=
  match d with
  | S754_zero s => sign_chars s ++ chars "0.000000"
  | S754_infinity s => sign_chars s ++ chars "inf"
  | S754_nan => chars "nan"
  | S754_finite s m e =>
      let n := scaled_magnitude m e in
      sign_chars s ++ decimal (n / 10 ^ 6) ++ chars "." ++ six_digits n
  end.

Definition is_char (c : ascii) (o : option ascii) : bool :=
  match o with Some c' => Ascii.eqb c' c | None => false end.

(** [while (str[len - 1] == '0') --len;] with [len] a [size_t]: at [len = 0]
    the subscript is out of the string. *)
Fixpoint skip_zeros (str : list ascii) (len : nat) : outcome nat :=
  match len with
  | O => Undefined
  | S len' => if is_char "0" (str !! len') then skip_zeros str len' else Ok len
  end.

(** The part of the [ePdfDataType_Real] case of [PdfVariant::Write] after
    the leading space: what is written for the rendering [copy]. *)
Definition write_real_digits (eWriteMode : Z) (copy : list ascii) : outcome (list ascii) :=
  let len := length copy in
  if is_compact eWriteMode && bool_decide ("."%char ∈ copy) then
    len1 ← skip_zeros copy len;
    let len2 := if is_char "." (copy !! (len1 - 1)%nat) then (len1 - 1)%nat else len1 in
    if (len2 =? 0)%nat then Ok (chars "0")
    else Ok (take len2 copy)
  else Ok (take len copy).

Section Write.

(** [m_Data.pData->Write(...)], the virtual [Write] of the payload; only
    that of [PdfDictionary] is in the sources embedded here, and it in turn
    writes names. *)
Variable WriteData : PdfDataType PdfVariant -> Z -> outcome (list ascii).

(** [PdfVariant::Write]: the bytes that go to the device.  [%lld] of a
    signed 64-bit number is its decimal notation. *)
Definition Write (v : PdfVariant) (eWriteMode : Z) : outcome (list ascii) :=
  _ ← DelayedLoad v;
  let t := m_eDataType v in
  let space := if is_compact eWriteMode then chars " " else [] in
  match t with
  | ePdfDataType_Bool =>
      match m_Data v with
      | bBoolValue true => Ok (space ++ chars "true")
      | bBoolValue false | zeroed => Ok (space ++ chars "false")
      | _ => Undefined
      end
  | ePdfDataType_Number =>
      match m_Data v with
      | nNumber n => Ok (space ++ chars (NilZero.string_of_int (Z.to_int n)))
      | zeroed => Ok (space ++ chars "0")
      | _ => Undefined
      end
  | ePdfDataType_Real =>
      match m_Data v with
      | dNumber d => digits ← write_real_digits eWriteMode (fixed d); Ok (space ++ digits)
      | zeroed => digits ← write_real_digits eWriteMode (fixed (S754_zero false)); Ok (space ++ digits)
      | _ => Undefined
      end
  | ePdfDataType_HexString | ePdfDataType_String | ePdfDataType_Name
  | ePdfDataType_Array | ePdfDataType_RawData | ePdfDataType_Dictionary =>
      match m_Data v with
      | pData p => WriteData p eWriteMode
      | zeroed => Raise InvalidHandle
      | _ => Undefined
      end
  | ePdfDataType_Reference =>
      match m_Data v with
      | pData p => WriteData p eWriteMode
      | _ => Undefined
      end
  | ePdfDataType_Null => Ok (space ++ chars "null")
  | ePdfDataType_Unknown => Raise InvalidDataType
  end.

End Write.

(** *** Typed access

    The [Is...] tests are the inline members of the header, each
    [GetDataType() == ...], as [IsReal] above. *)

Definition IsBool (v : PdfVariant) : outcome bool :=
  t ← GetDataType v; Ok (EPdfDataType_eqb t ePdfDataType_Bool).
Definition IsString (v : PdfVariant) : outcome bool :=
  t ← GetDataType v; Ok (EPdfDataType_eqb t ePdfDataType_String).
Definition IsHexString (v : PdfVariant) : outcome bool :=
  t ← GetDataType v; Ok (EPdfDataType_eqb t ePdfDataType_HexString).
Definition IsName (v : PdfVariant) : outcome bool :=
  t ← GetDataType v; Ok (EPdfDataType_eqb t ePdfDataType_Name).
Definition IsDictionary (v : PdfVariant) : outcome bool :=
  t ← GetDataType v; Ok (EPdfDataType_eqb t ePdfDataType_Dictionary).
Definition IsRawData (v : PdfVariant) : outcome bool :=
  t ← GetDataType v; Ok (EPdfDataType_eqb t ePdfDataType_RawData).
Definition IsNull (v : PdfVariant) : outcome bool :=
  t ← GetDataType v; Ok (EPdfDataType_eqb t ePdfDataType_Null).

(** [PdfVariant::GetBool]. *)
Definition GetBool (v : PdfVariant) : outcome bool :=
  _ ← DelayedLoad v;
  isBool ← IsBool v;
  if negb isBool then Raise InvalidDataType
  else
    match m_Data v with
    | bBoolValue b => Ok b
    | zeroed => Ok false
    | _ => Undefined
    end.

(** [static_cast<double>] of a [long]: the nearest [double]. *)
Definition long_to_double (n : Z) : spec_float := binary_normalize 53 1024 n 0 false.

(** [PdfVariant::GetReal]. *)
Definition GetReal (v : PdfVariant) : outcome spec_float :=
  _ ← DelayedLoad v;
  isReal ← IsReal v;
  isNumber ← IsNumber v;
  if negb isReal && negb isNumber then Raise InvalidDataType
  else if isReal then
    match m_Data v with
    | dNumber d => Ok d
    | zeroed => Ok (S754_zero false)
    | _ => Undefined
    end
  else
    match m_Data v with
    | nNumber n => Ok (long_to_double n)
    | zeroed => Ok (S754_zero false)
    | _ => Undefined
    end.

(** [PdfVariant::GetRawData]; the result is what [m_Data.pData] points to. *)
Definition GetRawData (v : PdfVariant) : outcome string :=
  _ ← DelayedLoad v;
  isRawData ← IsRawData v;
  if negb isRawData then Raise InvalidDataType
  else
    match m_Data v with
    | pData (DataRaw bytes) => Ok bytes
    | _ => Undefined
    end.

(** [PdfVariant::GetString]. *)
Definition GetString (v : PdfVariant) : outcome PdfString :=
  _ ← DelayedLoad v;
  isString ← IsString v;
  isHexString ← IsHexString v;
  if negb isString && negb isHexString then Raise InvalidDataType
  else
    match m_Data v with
    | pData (DataString s) => Ok s
    | _ => Undefined
    end.

(** [PdfVariant::GetName]. *)
Definition GetName (v : PdfVariant) : outcome PdfName :=
  _ ← DelayedLoad v;
  isName ← IsName v;
  if negb isName then Raise InvalidDataType
  else
    match m_Data v with
    | pData (DataName n) => Ok n
    | _ => Undefined
    end.

(** [PdfVariant::GetArray_NoDL] and [GetArray]: the type is tested on
    [m_eDataType] itself. *)
Definition GetArray_NoDL (v : PdfVariant) : outcome (PdfArray PdfVariant) :=
  if negb (EPdfDataType_eqb (m_eDataType v) ePdfDataType_Array) then Raise InvalidDataType
  else
    match m_Data v with
    | pData (DataArray a) => Ok a
    | _ => Undefined
    end.

Definition GetArray (v : PdfVariant) : outcome (PdfArray PdfVariant) :=
  _ ← DelayedLoad v; GetArray_NoDL v.

(** [PdfVariant::GetDictionary_NoDL] and [GetDictionary]. *)
Definition GetDictionary_NoDL (v : PdfVariant) : outcome (PdfDictionary PdfVariant) :=
  if negb (EPdfDataType_eqb (m_eDataType v) ePdfDataType_Dictionary) then Raise InvalidDataType
  else
    match m_Data v with
    | pData (DataDictionary d) => Ok d
    | _ => Undefined
    end.

Definition GetDictionary (v : PdfVariant) : outcome (PdfDictionary PdfVariant) :=
  _ ← DelayedLoad v; GetDictionary_NoDL v.

(** [PdfVariant::GetReference]. *)
Definition GetReference (v : PdfVariant) : outcome PdfReference :=
  _ ← DelayedLoad v;
  isReference ← IsReference v;
  if negb isReference then Raise InvalidDataType
  else
    match m_Data v with
    | pData (DataReference r) => Ok r
    | _ => Undefined
    end.

(** *** The other setters *)

(** [PdfVariant::SetNumber]. *)
Definition SetNumber (v : PdfVariant) (l : Z) : outcome PdfVariant :=
  _ ← DelayedLoad v;
  isReal ← IsReal v;
  isNumber ← IsNumber v;
  if negb isReal && negb isNumber then Raise InvalidDataType
  else
    _ ← AssertMutable v;
    SetDirty (with_data v (if (isReal : bool) then dNumber (long_to_double l) else nNumber l))
             true.

(** [PdfVariant::SetReal]. *)
Definition SetReal (v : PdfVariant) (d : spec_float) : outcome PdfVariant :=
  _ ← DelayedLoad v;
  isReal ← IsReal v;
  isNumber ← IsNumber v;
  if negb isReal && negb isNumber then Raise InvalidDataType
  else
    _ ← AssertMutable v;
    if (isReal : bool) then SetDirty (with_data v (dNumber d)) true
    else
      n ← double_to_long (floor_double d);
      SetDirty (with_data v (nNumber n)) true.

(** [PdfVariant::SetString]. *)
Definition SetString (v : PdfVariant) (str : PdfString) : outcome PdfVariant :=
  _ ← DelayedLoad v;
  dataType ← GetDataType v;
  if (IsHex str && negb (EPdfDataType_eqb dataType ePdfDataType_HexString))
     || (negb (IsHex str) && negb (EPdfDataType_eqb dataType ePdfDataType_String))
  then Raise InvalidDataType
  else
    _ ← AssertMutable v;
    match m_Data v with
    | pData (DataString _) => SetDirty (with_data v (pData (DataString str))) true
    | _ => Undefined
    end.

(** *** Comparison of variants *)

Section Equality.

(** The comparisons of the payload types are declared outside the sources
    embedded here. *)
Variable PdfString_eq : PdfString -> PdfString -> bool.
Variable PdfName_eq : PdfName -> PdfName -> bool.
Variable PdfReference_eq : PdfReference -> PdfReference -> bool.
Variable PdfArray_eq : PdfArray PdfVariant -> PdfArray PdfVariant -> outcome bool.
Variable PdfDictionary_eq
  : PdfDictionary PdfVariant -> PdfDictionary PdfVariant -> outcome bool.

(** The [catch] of [operator==]: a [PdfError] with [InvalidDataType] makes
    the result [false], any other is thrown again. *)
Definition catch_InvalidDataType (body : outcome bool) : outcome bool :=
  match body with
  | Raise InvalidDataType => Ok false
  | _ => body
  end.

(** [PdfVariant::operator==].  The two types for which the [switch] breaks
    reach the [PODOFO_RAISE_ERROR_INFO] behind the [try] block. *)
Definition PdfVariant_eq (v rhs : PdfVariant) : outcome bool :=
  _ ← DelayedLoad v;
  match m_eDataType v with
  | ePdfDataType_RawData | ePdfDataType_Unknown => Raise InvalidDataType
  | ePdfDataType_Bool =>
      catch_InvalidDataType (a ← GetBool v; b ← GetBool rhs; Ok (Bool.eqb a b))
  | ePdfDataType_Number =>
      catch_InvalidDataType (a ← GetNumber v; b ← GetNumber rhs; Ok (a =? b))
  | ePdfDataType_Real =>
      catch_InvalidDataType (a ← GetReal v; b ← GetReal rhs; Ok (SFeqb a b))
  | ePdfDataType_String | ePdfDataType_HexString =>
      catch_InvalidDataType (a ← GetString v; b ← GetString rhs; Ok (PdfString_eq a b))
  | ePdfDataType_Name =>
      catch_InvalidDataType (a ← GetName v; b ← GetName rhs; Ok (PdfName_eq a b))
  | ePdfDataType_Array =>
      catch_InvalidDataType (a ← GetArray v; b ← GetArray rhs; PdfArray_eq a b)
  | ePdfDataType_Dictionary =>
      catch_InvalidDataType (a ← GetDictionary v; b ← GetDictionary rhs; PdfDictionary_eq a b)
  | ePdfDataType_Null => catch_InvalidDataType (IsNull rhs)
  | ePdfDataType_Reference =>
      catch_InvalidDataType (a ← GetReference v; b ← GetReference rhs;
                             Ok (PdfReference_eq a b))
  end.

End Equality.

(** *** More of the dictionary *)

(** [PdfDictionary::Clear]. *)
Definition Dictionary_Clear {A : Type} (d : PdfDictionary A) : outcome (PdfDictionary A) :=
  _ ← Dictionary_AssertMutable d;
  match m_mapKeys d with
  | [] => Ok d
  | _ => Ok (mkDictionary [] true (dict_bImmutable d))
  end.

(** Modelled from the spec: [PdfDictionary::GetKey] is an inline member of
    the header, the public face of [getKey]. *)
Definition GetKey {A : Type} (d : PdfDictionary A) (key : PdfName) : option A := getKey d key.

(** [PdfDictionary::GetKeyAsLong]. *)
Definition GetKeyAsLong (d : PdfDictionary PdfVariant) (key : PdfName) (lDefault : Z)
  : outcome Z :=
  match GetKey d key with
  | Some pObject =>
      t ← GetDataType pObject;
      if EPdfDataType_eqb t ePdfDataType_Number then GetNumber pObject else Ok lDefault
  | None => Ok lDefault
  end.

(** [PdfDictionary::GetKeyAsReal]. *)
Definition GetKeyAsReal (d : PdfDictionary PdfVariant) (key : PdfName) (dDefault : spec_float)
  : outcome spec_float :=
  match GetKey d key with
  | Some pObject =>
      t ← GetDataType pObject;
      if EPdfDataType_eqb t ePdfDataType_Real then GetReal pObject
      else
        t' ← GetDataType pObject;
        if EPdfDataType_eqb t' ePdfDataType_Number then GetReal pObject else Ok dDefault
  | None => Ok dDefault
  end.

(** [PdfDictionary::GetKeyAsBool]. *)
Definition GetKeyAsBool (d : PdfDictionary PdfVariant) (key : PdfName) (bDefault : bool)
  : outcome bool :=
  match GetKey d key with
  | Some pObject =>
      t ← GetDataType pObject;
      if EPdfDataType_eqb t ePdfDataType_Bool then GetBool pObject else Ok bDefault
  | None => Ok bDefault
  end.

(** [PdfDictionary::GetKeyAsName]. *)
Definition GetKeyAsName (d : PdfDictionary PdfVariant) (key : PdfName) : outcome PdfName :=
  match GetKey d key with
  | Some pObject =>
      t ← GetDataType pObject;
      if EPdfDataType_eqb t ePdfDataType_Name then GetName pObject else Ok EmptyString
  | None => Ok EmptyString
  end.

Section Lookup.

(** [PdfOwnedDataType::GetIndirectObject] is implemented outside the
    sources embedded here: the object a reference stands for, a null pointer
    when there is none.  The dictionaries reached through it look their
    references up in the same place. *)
Variable GetIndirectObject : PdfReference -> outcome (option PdfVariant).

(** [PdfDictionary::findKey]. *)
Definition findKey (d : PdfDictionary PdfVariant) (key : PdfName)
  : outcome (option PdfVariant) :=
  match getKey d key with
  | Some obj =>
      isReference ← IsReference obj;
      if (isReference : bool) then ref ← GetReference obj; GetIndirectObject ref
      else Ok (Some obj)
  | None => Ok None
  end.

(** The name [Parent]. *)
Definition KeyParent : PdfName :=
  String "P" (String "a" (String "r" (String "e" (String "n" (String "t" EmptyString))))).

(** [PdfDictionary::findKeyParent], which calls itself on the dictionary
    of [/Parent]; [fuel] bounds the number of nested calls. *)
Fixpoint findKeyParent (fuel : nat) (d : PdfDictionary PdfVariant) (key : PdfName)
  : outcome (option PdfVariant) :=
  match fuel with
  | O => OutOfFuel
  | S fuel' =>
      obj ← findKey d key;
      match obj with
      | None =>
          parent ← findKey d KeyParent;
          match parent with
          | None => Ok None
          | Some parent =>
              isDictionary ← IsDictionary parent;
              if (isDictionary : bool) then
                parentDictionary ← GetDictionary parent;
                findKeyParent fuel' parentDictionary key
              else Ok None
          end
      | Some obj => Ok (Some obj)
      end
  end.

End Lookup.

(** *** Writing a dictionary *)

Definition is_clean (eWriteMode : Z) : bool :=
  Z.land eWriteMode ePdfWriteMode_Clean =? ePdfWriteMode_Clean.

Definition newline : list ascii := ["010"%char].

Section DictionaryWrite.

Context {A : Type}.

(** [PdfName::KeyNull] and [PdfName::KeyType] are defined, and
    [PdfName::Write] is implemented, outside the sources embedded here; so is
    the [Write] of the elements when they are not variants. *)
Variable KeyNull : PdfName.
Variable KeyType : PdfName.
Variable WriteName : PdfName -> Z -> outcome (list ascii).
Variable WriteObject : A -> Z -> outcome (list ascii).

(** [keyStop != PdfName::KeyNull && keyStop.GetLength() && key == keyStop]. *)
Definition stops_at (keyStop key : PdfName) : bool :=
  negb (String.eqb keyStop KeyNull) && (0 <? String.length keyStop)%nat
  && String.eqb key keyStop.

(** The [while] loop of [PdfDictionary::Write] and the closing [>>];
    [out] is what has gone to the device. *)
Fixpoint write_keys (itKeys : list (PdfName * A)) (eWriteMode : Z) (keyStop : PdfName)
    (out : list ascii) : outcome (list ascii) :=
  match itKeys with
  | [] => Ok (out ++ chars ">>")
  | (first, second) :: itKeys' =>
      if negb (String.eqb first KeyType) then
        if stops_at keyStop first then Ok out
        else
          name ← WriteName first eWriteMode;
          value ← WriteObject second eWriteMode;
          write_keys itKeys' eWriteMode keyStop
            (out ++ name ++ (if is_clean eWriteMode then chars " " else [])
                 ++ value ++ (if is_clean eWriteMode then newline else []))
      else write_keys itKeys' eWriteMode keyStop out
  end.

(** [PdfDictionary::Write]: what goes to the device. *)
Definition Dictionary_Write (d : PdfDictionary A) (eWriteMode : Z) (keyStop : PdfName)
  : outcome (list ascii) :=
  let out := if is_clean eWriteMode then chars "<<" ++ newline else chars "<<" in
  if stops_at keyStop KeyType then Ok out
  else
    out' ←
      (if HasKey d KeyType then
         match GetKey d KeyType with
         | Some type =>
             value ← WriteObject type eWriteMode;
             Ok (out ++ (if is_clean eWriteMode then chars "/Type " else chars "/Type")
                     ++ value ++ (if is_clean eWriteMode then newline else []))
         | None => Undefined
         end
       else Ok out);
    write_keys (m_mapKeys d) eWriteMode keyStop out'.

End DictionaryWrite.

End Variant.

(** ** A small font for the closure scenario

    Eleven glyphs; glyph 10 is compound over glyphs 5 and 7, glyph 7 is
    compound over glyph 3, glyphs 0, 3 and 5 are simple, the others are
    empty.  The font has the six required tables and a short [loca]. *)
Module Fixture.
Import TrueTypeSubset.

Definition simple_glyph : list byte := be16 0 ++ replicate 10 x00.

(** A component record with byte arguments: flags, glyph index, two
    argument bytes. *)
Definition component (flags gid : Z) : list byte := be16 flags ++ be16 gid ++ [x00; x00].

Definition compound_header : list byte := be16 0xFFFF ++ replicate 8 x00.

Definition glyph7 : list byte := compound_header ++ component 0 3.
Definition glyph10 : list byte :=
  compound_header ++ component MORE_COMPONENTS 5 ++ component 0 7 ++ [x00; x00].

Definition glyphs : list (list byte) :=
  [simple_glyph; []; []; simple_glyph; []; simple_glyph; []; glyph7; []; []; glyph10].

Definition glyf_table (gs : list (list byte)) : list byte := concat gs.

(** Short [loca]: the running offsets, halved, with the closing entry. *)
Fixpoint loca_table (gs : list (list byte)) (at_ : Z) : list byte :=
  match gs with
  | [] => be16 (Z.shiftr at_ 1)
  | g :: rest => be16 (Z.shiftr at_ 1) ++ loca_table rest (at_ + Z.of_nat (length g))
  end.

Definition head_table : list byte :=
  be32 0x00010000 ++ be32 0x00010000 ++ be32 0 ++ be32 0x5F0F3CF5
  ++ be16 0 ++ be16 1000 ++ replicate 30 x00 ++ be16 0 ++ be16 0.

Definition hhea_table (n : Z) : list byte :=
  be32 0x00010000 ++ replicate 30 x00 ++ be16 n.

Definition maxp_table (n : Z) : list byte :=
  be32 0x00010000 ++ be16 n ++ replicate 26 x00.

(** One [longHorMetric] per glyph: advance [500 + gid], bearing 0. *)
Definition hmtx_table (n : nat) : list byte :=
  concat (map (fun gid => be16 (500 + Z.of_nat gid) ++ be16 0) (seq 0 n)).

(** The table directory, the tables laid out one after the other behind it. *)
Fixpoint directory (tables : list (Z * list byte)) (at_ : Z) : list byte :=
  match tables with
  | [] => []
  | (tag, body) :: rest =>
      be32 tag ++ be32 0 ++ be32 at_ ++ be32 (Z.of_nat (length body))
      ++ directory rest (at_ + Z.of_nat (length body))
  end.

Definition font_of (tables : list (Z * list byte)) : device :=
  let n := Z.of_nat (length tables) in
  be32 0x00010000 ++ be16 n ++ be16 0 ++ be16 0 ++ be16 0
  ++ directory tables (12 + 16 * n)
  ++ concat (map snd tables).

Definition closure_tables : list (Z * list byte) :=
  [ (TTAG_glyf, glyf_table glyphs);
    (TTAG_head, head_table);
    (TTAG_hhea, hhea_table 11);
    (TTAG_hmtx, hmtx_table 11);
    (TTAG_loca, loca_table glyphs 0);
    (TTAG_maxp, maxp_table 11) ].

Definition closure_font : device := Eval vm_compute in font_of closure_tables.

(** The same font without its [hmtx] table. *)
Definition font_without_hmtx : device :=
  Eval vm_compute in
    font_of (filter (fun t => negb (fst t =? TTAG_hmtx)) closure_tables).

(** A font whose only table is [head]. *)
Definition font_head_only : device :=
  Eval vm_compute in font_of [ (TTAG_head, head_table) ].






End Fixture.

(** ** Definitions for the statements

    What the specification says, in its words, to compare the code with;
    the invariants of the glyph loader; and the values the statements are
    tried on. *)
Module Spec.

(** The checksum: the sum, wrapping in 32 bits, of the big-endian 32-bit
    words of the range, read as zeros past its end. *)
Fixpoint word_sum (n : nat) (bs : list byte) : Z :=
  match n with
  | O => 0
  | S n' =>
      match bs with
      | [] => 0
      | _ => u32 (be_combine (take 4 (bs ++ replicate 3 x00)) + word_sum n' (drop 4 bs))
      end
  end.

Definition checksum_words (bs : list byte) : Z := word_sum (length bs) bs.

(** The mask is zero exactly when no entry that was kept is one of the six
    tables. *)
Definition mask_tells (st : Z * list TrueTypeSubset.TrueTypeTable) : Prop :=
  0 <= fst st < 64
  /\ (fst st = 0 <-> Forall (fun t => TrueTypeSubset.required_bit (TrueTypeSubset.Tag t) = 0) (snd st)).

(** The value of a [double], when it is finite. *)
Definition SF2Q (d : spec_float) : option Q :=
  match d with
  | S754_zero _ => Some 0%Q
  | S754_finite s m e =>
      let z := if s then Z.neg m else Z.pos m in
      Some (if 0 <=? e then inject_Z (z * 2 ^ e)
            else Qmake z (Pos.pow 2 (Z.to_pos (- e))))
  | S754_infinity _ | S754_nan => None
  end.

(** Truncation toward zero. *)
Definition Qtruncate (q : Q) : Z := Z.quot (Qnum q) (Z.pos (Qden q)).

Definition minus_half : spec_float := S754_finite true 1 (-1).
Definition two_to_the_63 : spec_float := S754_finite false 4503599627370496 11.
Definition one_and_a_half : spec_float := S754_finite false 3 (-1).
Definition one : spec_float := S754_finite false 1 0.

(** A comparison of two number objects, to run the dictionary comparison
    on. *)
Definition number_ne (a b : Variant.PdfVariant) : outcome bool :=
  x ← Variant.GetNumber a; y ← Variant.GetNumber b; Ok (negb (x =? y)).

Definition dict_A1 : Variant.PdfDictionary Variant.PdfVariant :=
  Variant.mkDictionary [(String "A" EmptyString, Variant.PdfVariant_number 1)] false false.

(** A digit string without its trailing zeros. *)
Fixpoint strip_trailing_zeros (l : list ascii) : list ascii :=
  match l with
  | [] => []
  | c :: r =>
      match strip_trailing_zeros r with
      | [] => if Ascii.eqb c "0" then [] else [c]
      | r' => c :: r'
      end
  end.

(** The fraction of a compact real: nothing when all its digits are zero,
    else the point and the digits up to the last one that is not zero. *)
Definition fraction_suffix (frac : list ascii) : list ascii :=
  match strip_trailing_zeros frac with
  | [] => []
  | t => "."%char :: t
  end.

(** A payload writer for variants that have no payload. *)
Definition no_payload : Variant.PdfDataType Variant.PdfVariant -> Z -> outcome (list ascii) :=
  fun _ _ => Raise InvalidHandle.

(** A variant as the constructors build it: loaded, with the payload of
    its kind, and so for the elements of a container; the flags are free. *)
Fixpoint well_formed (v : Variant.PdfVariant) : bool :=
  Variant.m_bDelayedLoadDone v &&
  match Variant.m_eDataType v, Variant.m_Data v with
  | Variant.ePdfDataType_Bool, Variant.bBoolValue _ => true
  | Variant.ePdfDataType_Number, Variant.nNumber _ => true
  | Variant.ePdfDataType_Real, Variant.dNumber _ => true
  | Variant.ePdfDataType_String, Variant.pData (Variant.DataString _) => true
  | Variant.ePdfDataType_HexString, Variant.pData (Variant.DataString _) => true
  | Variant.ePdfDataType_Name, Variant.pData (Variant.DataName _) => true
  | Variant.ePdfDataType_Array, Variant.pData (Variant.DataArray a) =>
      forallb well_formed (Variant.arr_objects a)
  | Variant.ePdfDataType_Dictionary, Variant.pData (Variant.DataDictionary d) =>
      forallb (fun '(_, second) => well_formed second) (Variant.m_mapKeys d)
  | Variant.ePdfDataType_Null, Variant.zeroed => true
  | Variant.ePdfDataType_Reference, Variant.pData (Variant.DataReference _) => true
  | Variant.ePdfDataType_RawData, Variant.pData (Variant.DataRaw _) => true
  | Variant.ePdfDataType_Unknown, Variant.zeroed => true
  | _, _ => false
  end.

(** No dirty flag is set in the variant, nor in a container it holds, nor
    in any of their elements. *)
Fixpoint all_clean (v : Variant.PdfVariant) : bool :=
  negb (Variant.m_bDirty v) &&
  match Variant.m_eDataType v, Variant.m_Data v with
  | Variant.ePdfDataType_Array, Variant.pData (Variant.DataArray a) =>
      negb (Variant.arr_bDirty a) && forallb all_clean (Variant.arr_objects a)
  | Variant.ePdfDataType_Dictionary, Variant.pData (Variant.DataDictionary d) =>
      negb (Variant.dict_bDirty d)
      && forallb (fun '(_, second) => all_clean second) (Variant.m_mapKeys d)
  | Variant.ePdfDataType_Array, _ | Variant.ePdfDataType_Dictionary, _ => false
  | _, _ => true
  end.

(** A dirty dictionary, itself dirty, in a dirty array, in a dirty variant. *)
Definition dirty_nest : Variant.PdfVariant :=
  Variant.mkVariant
    (Variant.pData (Variant.DataArray (Variant.mkArray
       [ Variant.mkVariant
           (Variant.pData (Variant.DataDictionary (Variant.mkDictionary
              [ (String "K" EmptyString,
                 Variant.mkVariant (Variant.nNumber 7) true true
                                   Variant.ePdfDataType_Number false) ]
              true false)))
           true true Variant.ePdfDataType_Dictionary true ]
       true)))
    true true Variant.ePdfDataType_Array false.

Definition dirty_dictionary : Variant.PdfDictionary Variant.PdfVariant :=
  Variant.mkDictionary [ (String "N" EmptyString, dirty_nest) ] true true.

(** *** The glyph closure *)

(** The original glyph indices of the loaded glyphs, in the order of the
    map. *)
Definition gd_keys (m : TrueTypeSubset.GlyphDatas) : list Z := map fst m.

(** The glyph indices of the component records that start at [offset]
    behind the header of a compound glyph, in the order of the records. *)
Fixpoint component_gids (fuel : nat) (dev : TrueTypeSubset.device) (advOffset offset : Z)
  : outcome (list Z) :=
  match fuel with
  | O => OutOfFuel
  | S fuel' =>
      cmpData ← TrueTypeSubset.ReadGlyphCompoundData dev (u32 (advOffset + offset));
      match TrueTypeSubset.TryAdvanceCompoundOffset offset (TrueTypeSubset.Flags cmpData) with
      | (false, _) => Ok [TrueTypeSubset.GlyphIndex cmpData]
      | (true, offset') =>
          rest ← component_gids fuel' dev advOffset offset';
          Ok (TrueTypeSubset.GlyphIndex cmpData :: rest)
      end
  end.

(** The record of glyph [gid] as the font program gives it: its place from
    [loca] (short or long), compound when its contour count is negative. *)
Definition glyph_entry (dev : TrueTypeSubset.device) (isLong : bool)
    (ctx : TrueTypeSubset.GlyphContext) (gid : Z) : outcome TrueTypeSubset.GlyphData :=
  glyphData ← TrueTypeSubset.read_glyph_location
                (TrueTypeSubset.mkSubset dev isLong 0 0 [] [] []) ctx gid;
  contourCount ← TrueTypeSubset.ReadInt16BE dev (TrueTypeSubset.GlyphOffset glyphData);
  Ok (if contourCount <? 0 then TrueTypeSubset.set_IsCompound glyphData true else glyphData).

(** Glyph [gid] is compound and [cs] are the glyphs it is made of. *)
Definition components_of (dev : TrueTypeSubset.device) (isLong : bool)
    (ctx : TrueTypeSubset.GlyphContext) (gid : Z) (cs : list Z) : Prop :=
  exists glyphData fuel,
    glyph_entry dev isLong ctx gid = Ok glyphData
    /\ TrueTypeSubset.IsCompound glyphData = true
    /\ component_gids fuel dev (TrueTypeSubset.GlyphAdvOffset glyphData) 0 = Ok cs.

(** The transitive closure of the glyphs [roots] under "is a component of". *)
Inductive closure (dev : TrueTypeSubset.device) (isLong : bool)
    (ctx : TrueTypeSubset.GlyphContext) (roots : list Z) : Z -> Prop :=
| closure_root (g : Z) : g ∈ roots -> closure dev isLong ctx roots g
| closure_component (g c : Z) (cs : list Z) :
    closure dev isLong ctx roots g -> components_of dev isLong ctx g cs -> c ∈ cs ->
    closure dev isLong ctx roots c.

(** The loaded glyphs are in the order of their indices, and each record is
    the one the font program gives. *)
Definition entries_ok (dev : TrueTypeSubset.device) (isLong : bool)
    (ctx : TrueTypeSubset.GlyphContext) (m : TrueTypeSubset.GlyphDatas) : Prop :=
  StronglySorted Z.lt (gd_keys m)
  /\ forall k gd, TrueTypeSubset.gd_find k m = Some gd -> glyph_entry dev isLong ctx k = Ok gd.

(** [m'] has the records of [m]. *)
Definition extends (m m' : TrueTypeSubset.GlyphDatas) : Prop :=
  forall k gd, TrueTypeSubset.gd_find k m = Some gd -> TrueTypeSubset.gd_find k m' = Some gd.

(** The compound glyphs that [m'] has and [m] has not come with all their
    components. *)
Definition components_loaded (dev : TrueTypeSubset.device) (isLong : bool)
    (ctx : TrueTypeSubset.GlyphContext) (m m' : TrueTypeSubset.GlyphDatas) : Prop :=
  forall k gd,
    TrueTypeSubset.gd_find k m = None -> TrueTypeSubset.gd_find k m' = Some gd ->
    TrueTypeSubset.IsCompound gd = true ->
    exists cs, components_of dev isLong ctx k cs
               /\ forall c, c ∈ cs -> TrueTypeSubset.gd_find c m' <> None.

(** What a call of [LoadGID] that returns has done: it has only changed
    the map, by adding records; the glyph asked for is there; what is new
    is reachable from it, and comes with its components. *)
Definition LoadGID_post (dev : TrueTypeSubset.device) (isLong : bool)
    (ctx : TrueTypeSubset.GlyphContext)
    (this : TrueTypeSubset.Subset) (gid : Z) (this' : TrueTypeSubset.Subset) : Prop :=
  this' = TrueTypeSubset.set_glyphDatas this (TrueTypeSubset.m_glyphDatas this')
  /\ entries_ok dev isLong ctx (TrueTypeSubset.m_glyphDatas this')
  /\ extends (TrueTypeSubset.m_glyphDatas this) (TrueTypeSubset.m_glyphDatas this')
  /\ TrueTypeSubset.gd_find gid (TrueTypeSubset.m_glyphDatas this') <> None
  /\ (forall k, TrueTypeSubset.gd_find k (TrueTypeSubset.m_glyphDatas this) = None ->
                TrueTypeSubset.gd_find k (TrueTypeSubset.m_glyphDatas this') <> None ->
                closure dev isLong ctx [gid] k)
  /\ components_loaded dev isLong ctx (TrueTypeSubset.m_glyphDatas this)
                       (TrueTypeSubset.m_glyphDatas this').

(** The same for a call of [LoadCompound], with the components it has read
    from [offset] on. *)
Definition LoadCompound_post (dev : TrueTypeSubset.device) (isLong : bool)
    (ctx : TrueTypeSubset.GlyphContext) (fuel : nat)
    (this : TrueTypeSubset.Subset) (data : TrueTypeSubset.GlyphData) (offset : Z)
    (this' : TrueTypeSubset.Subset) : Prop :=
  this' = TrueTypeSubset.set_glyphDatas this (TrueTypeSubset.m_glyphDatas this')
  /\ entries_ok dev isLong ctx (TrueTypeSubset.m_glyphDatas this')
  /\ extends (TrueTypeSubset.m_glyphDatas this) (TrueTypeSubset.m_glyphDatas this')
  /\ (exists cs,
        component_gids fuel dev (TrueTypeSubset.GlyphAdvOffset data) offset = Ok cs
        /\ (forall c, c ∈ cs ->
                      TrueTypeSubset.gd_find c (TrueTypeSubset.m_glyphDatas this') <> None)
        /\ (forall k, TrueTypeSubset.gd_find k (TrueTypeSubset.m_glyphDatas this) = None ->
                      TrueTypeSubset.gd_find k (TrueTypeSubset.m_glyphDatas this') <> None ->
                      exists c, c ∈ cs /\ closure dev isLong ctx [c] k))
  /\ components_loaded dev isLong ctx (TrueTypeSubset.m_glyphDatas this)
                       (TrueTypeSubset.m_glyphDatas this').

(** The state of the map between two calls of [LoadGID] from [LoadGlyphs]:
    the records are those of the font, every compound glyph has its
    components, every glyph is reachable from [roots], and [roots] are
    there. *)
Definition loaded_closed (dev : TrueTypeSubset.device) (isLong : bool)
    (ctx : TrueTypeSubset.GlyphContext) (roots : list Z)
    (m : TrueTypeSubset.GlyphDatas) : Prop :=
  entries_ok dev isLong ctx m
  /\ (forall k gd, TrueTypeSubset.gd_find k m = Some gd ->
                   TrueTypeSubset.IsCompound gd = true ->
                   exists cs, components_of dev isLong ctx k cs
                              /\ forall c, c ∈ cs -> TrueTypeSubset.gd_find c m <> None)
  /\ (forall k, TrueTypeSubset.gd_find k m <> None -> closure dev isLong ctx roots k)
  /\ (forall g, g ∈ roots -> TrueTypeSubset.gd_find g m <> None).

(** The component glyphs met by a pass over the loaded glyphs in the order
    of the map, the components of each compound glyph in the order of its
    records. *)
Fixpoint discovered (fuel : nat) (dev : TrueTypeSubset.device)
    (entries : TrueTypeSubset.GlyphDatas) : outcome (list Z) :=
  match entries with
  | [] => Ok []
  | (_, glyphData) :: rest =>
      cs ← (if TrueTypeSubset.IsCompound glyphData
            then component_gids fuel dev (TrueTypeSubset.GlyphAdvOffset glyphData) 0
            else Ok []);
      ds ← discovered fuel dev rest;
      Ok (cs ++ ds)
  end.

(** Of the candidates, in their order, those that are neither among [seen]
    nor earlier among the candidates. *)
Fixpoint number_fresh (seen cands : list Z) : list Z :=
  match cands with
  | [] => []
  | g :: rest =>
      if bool_decide (g ∈ seen) then number_fresh seen rest
      else g :: number_fresh (seen ++ [g]) rest
  end.

(** The number of entries of [gids] that are among [seen] or repeat an
    earlier entry. *)
Fixpoint repeated_entries (seen gids : list Z) : nat :=
  match gids with
  | [] => 0
  | g :: rest =>
      ((if bool_decide (g ∈ seen) then 1 else 0) + repeated_entries (seen ++ [g]) rest)%nat
  end.

(** The subsetter after [Init] on the closure font, and its context. *)
Definition closure_subset : outcome (TrueTypeSubset.Subset * TrueTypeSubset.GlyphContext) :=
  this ← TrueTypeSubset.Init Fixture.closure_font;
  glyf ← TrueTypeSubset.GetTableOffset (TrueTypeSubset.m_tables this) TrueTypeSubset.TTAG_glyf;
  loca ← TrueTypeSubset.GetTableOffset (TrueTypeSubset.m_tables this) TrueTypeSubset.TTAG_loca;
  Ok (this, TrueTypeSubset.mkContext glyf loca).

(** [LoadGlyphs] on the closure font. *)
Definition load_closure_font (fuel : nat) (gidList : list Z)
  : outcome (TrueTypeSubset.Subset * gmap Z Z) :=
  r ← closure_subset;
  TrueTypeSubset.LoadGlyphs fuel (fst r) (snd r) gidList.

(** The subsetter after [Init] on the closure font, and its context. *)
Definition closure_this : TrueTypeSubset.Subset :=
  Eval vm_compute in
    match closure_subset with
    | Ok r => fst r
    | _ => TrueTypeSubset.mkSubset [] false 0 0 [] [] []
    end.

Definition closure_ctx : TrueTypeSubset.GlyphContext :=
  Eval vm_compute in
    match closure_subset with
    | Ok r => snd r
    | _ => TrueTypeSubset.mkContext 0 0
    end.

(** The subsetter after [LoadGlyphs] on the closure font, for the glyph
    list of the scenario and for a list with a zero and a repetition. *)
Definition loaded_or (fuel : nat) (gidList : list Z) : TrueTypeSubset.Subset * gmap Z Z :=
  match TrueTypeSubset.LoadGlyphs fuel closure_this closure_ctx gidList with
  | Ok r => r
  | _ => (closure_this, ∅)
  end.

Definition scenario_subset : TrueTypeSubset.Subset := Eval vm_compute in fst (loaded_or 10 [10]).
Definition scenario_map : gmap Z Z := snd (loaded_or 10 [10]).
Definition repeats_subset : TrueTypeSubset.Subset :=
  Eval vm_compute in fst (loaded_or 10 [10; 0; 10]).
Definition repeats_map : gmap Z Z := snd (loaded_or 10 [10; 0; 10]).

(** The component fix-ups of the compound glyphs of a map. *)
Definition fixups (m : TrueTypeSubset.GlyphDatas)
  : list (Z * list TrueTypeSubset.GlyphCompoundComponentData) :=
  map (fun e => (fst e, TrueTypeSubset.CompoundComponents (snd e)))
      (filter (fun e => TrueTypeSubset.IsCompound (snd e) = true) m).

(** The length of the record of glyph [gid] in a map (0 when it has none). *)
Definition glyph_length (m : TrueTypeSubset.GlyphDatas) (gid : Z) : nat :=
  match TrueTypeSubset.gd_find gid m with
  | Some glyphData => Z.to_nat (TrueTypeSubset.GlyphLength glyphData)
  | None => 0
  end.

(** *** Budgets that are enough

    [load_budget u len] is enough for a call of [LoadGID] when at most [u]
    glyphs of the font are not loaded yet and the font program has [len]
    bytes; [compound_budget u len d] is enough for a call of
    [LoadCompound] that is [d] bytes before the end of the font program. *)
Definition load_budget (u len : nat) : nat := (1 + u * (len + 2))%nat.
Definition compound_budget (u len d : nat) : nat := (load_budget u len + d + 1)%nat.

(** The keys of the map are glyph indices of the font. *)
Definition keys_in_range (glyphCount : Z) (m : TrueTypeSubset.GlyphDatas) : Prop :=
  Forall (fun k => 0 <= k < glyphCount) (gd_keys m).

(** What a call that returns leaves of the map: only the map has changed,
    its keys are still sorted glyph indices of the font, and none is lost. *)
Definition load_keeps (this this' : TrueTypeSubset.Subset) : Prop :=
  this' = TrueTypeSubset.set_glyphDatas this (TrueTypeSubset.m_glyphDatas this')
  /\ StronglySorted Z.lt (gd_keys (TrueTypeSubset.m_glyphDatas this'))
  /\ keys_in_range (TrueTypeSubset.m_glyphCount this) (TrueTypeSubset.m_glyphDatas this')
  /\ (length (TrueTypeSubset.m_glyphDatas this)
      <= length (TrueTypeSubset.m_glyphDatas this'))%nat.

(** A state from which [u] more glyphs at most can be loaded: a font
    program of [len] bytes, shorter than 4 GiB, and a map whose keys are
    sorted glyph indices of the font, all but [u] at most of them. *)
Definition loadable (u len : nat) (this : TrueTypeSubset.Subset) : Prop :=
  length (TrueTypeSubset.m_device this) = len
  /\ Z.of_nat len + 16 <= 2 ^ 32
  /\ StronglySorted Z.lt (gd_keys (TrueTypeSubset.m_glyphDatas this))
  /\ keys_in_range (TrueTypeSubset.m_glyphCount this) (TrueTypeSubset.m_glyphDatas this)
  /\ TrueTypeSubset.m_glyphCount this
     <= Z.of_nat (length (TrueTypeSubset.m_glyphDatas this)) + Z.of_nat u.

(** A budget for [LoadGlyphs] on a font program of [len] bytes with
    [glyphCount] glyphs. *)
Definition glyphs_budget (glyphCount : Z) (len : nat) : nat :=
  (load_budget (Z.to_nat glyphCount) len + len + 1)%nat.

(** A call of [LoadGID] that has room for [u] more glyphs comes to an end
    within [load_budget u len], and keeps the map in shape. *)
Definition LoadGID_ends (ctx : TrueTypeSubset.GlyphContext) (u len : nat) : Prop :=
  forall this gid fuel,
    loadable u len this -> 0 <= gid -> (load_budget u len <= fuel)%nat ->
    TrueTypeSubset.LoadGID fuel this ctx gid <> OutOfFuel
    /\ forall this', TrueTypeSubset.LoadGID fuel this ctx gid = Ok this' ->
                     load_keeps this this'.

(** *** Variants: setters, flags and copies *)

Section VariantNotions.
Import Variant.

(** The setters of a variant that check the type the usual way, with the
    value each one stores. *)
Inductive setter : Type :=
| set_bool (b : bool)
| set_number (l : Z)
| set_real (d : spec_float)
| set_name (name : PdfName)
| set_string (str : PdfString).

Definition apply_setter (s : setter) (v : PdfVariant) : outcome PdfVariant :=
  match s with
  | set_bool b => SetBool v b
  | set_number l => SetNumber v l
  | set_real d => SetReal v d
  | set_name name => SetName v name
  | set_string str => SetString v str
  end.

(** The types of variant a setter lets through. *)
Definition accepts (s : setter) (t : EPdfDataType) : bool :=
  match s, t with
  | set_bool _, ePdfDataType_Bool => true
  | set_number _, ePdfDataType_Number | set_number _, ePdfDataType_Real => true
  | set_real _, ePdfDataType_Number | set_real _, ePdfDataType_Real => true
  | set_name _, ePdfDataType_Name => true
  | set_string str, ePdfDataType_String => negb (IsHex str)
  | set_string str, ePdfDataType_HexString => IsHex str
  | _, _ => false
  end.

(** The types of right-hand side that the getter called by [operator==]
    for a left-hand side of type [t] lets through. *)
Definition comparable (t rhs : EPdfDataType) : bool :=
  match t, rhs with
  | ePdfDataType_Bool, ePdfDataType_Bool => true
  | (ePdfDataType_Number | ePdfDataType_Real), (ePdfDataType_Number | ePdfDataType_Real) => true
  | (ePdfDataType_String | ePdfDataType_HexString),
    (ePdfDataType_String | ePdfDataType_HexString) => true
  | ePdfDataType_Name, ePdfDataType_Name => true
  | ePdfDataType_Array, ePdfDataType_Array => true
  | ePdfDataType_Dictionary, ePdfDataType_Dictionary => true
  | ePdfDataType_Null, ePdfDataType_Null => true
  | ePdfDataType_Reference, ePdfDataType_Reference => true
  | _, _ => false
  end.

(** A variant with every dirty flag cleared: its own, those of the
    containers it holds, and those of their elements. *)
Fixpoint erase_dirty (v : PdfVariant) : PdfVariant :=
  mkVariant
    (match m_Data v with
     | pData (DataArray a) =>
         pData (DataArray (mkArray (map erase_dirty (arr_objects a)) false))
     | pData (DataDictionary d) =>
         pData (DataDictionary
                  (mkDictionary (map (fun '(first, second) => (first, erase_dirty second))
                                     (m_mapKeys d))
                                false (dict_bImmutable d)))
     | data => data
     end)
    (m_bDelayedLoadDone v) false (m_eDataType v) (m_bImmutable v).


(** The keys of a dictionary are in increasing order, as a [std::map]
    keeps them. *)
Definition name_lt (a b : PdfName) : Prop := String.ltb a b = true.

Definition keys_sorted {A : Type} (d : PdfDictionary A) : Prop :=
  StronglySorted name_lt (map fst (m_mapKeys d)).


(** The names [A] and [B], and the dictionary with the one entry [/A 1]
    after [/B 2] has been added. *)
Definition name_A : PdfName := String "A" EmptyString.
Definition name_B : PdfName := String "B" EmptyString.

Definition dict_A1_B2 : PdfDictionary PdfVariant :=
  mkDictionary [(name_A, PdfVariant_number 1); (name_B, PdfVariant_number 2)] true false.

(** A page-tree node whose [/Parent] is a reference to the node itself,
    and the place where that reference is looked up. *)
Definition own_parent : PdfDictionary PdfVariant :=
  mkDictionary [(KeyParent, PdfVariant_reference (mkReference 1 0))] false false.

Definition own_parent_object : PdfVariant :=
  mkVariant (pData (DataDictionary own_parent)) true false ePdfDataType_Dictionary false.

Definition resolve_own_parent (r : PdfReference) : outcome (option PdfVariant) :=
  if (ObjectNumber r =? 1) && (GenerationNumber r =? 0) then Ok (Some own_parent_object)
  else Ok None.

(** A dictionary with a [/Type], and writers of names and of numbers to
    write it with. *)
Definition name_Type : PdfName :=
  String "T" (String "y" (String "p" (String "e" EmptyString))).

Definition typed_dictionary : PdfDictionary PdfVariant :=
  mkDictionary [(name_A, PdfVariant_number 1); (name_B, PdfVariant_number 2);
                (name_Type, PdfVariant_number 3)] false false.

Definition slash_name (name : PdfName) (eWriteMode : Z) : outcome (list ascii) :=
  Ok ("/"%char :: chars name).

Definition write_plain (v : PdfVariant) (eWriteMode : Z) : outcome (list ascii) :=
  Write no_payload v eWriteMode.

End VariantNotions.


(** *** The subsetter: tables, errors, layout *)

Section SubsetterNotions.
Import TrueTypeSubset.

(** The tables that the subsetter takes over from the font program. *)
Definition known_tags : list Z :=
  [TTAG_head; TTAG_hhea; TTAG_loca; TTAG_maxp; TTAG_glyf; TTAG_hmtx;
   TTAG_cvt; TTAG_fpgm; TTAG_prep; TTAG_post].

(** [t] is entry [i] of the table directory of the font program, but for
    the length of a [post] table. *)
Definition directory_entry (dev : device) (i : Z) (t : TrueTypeTable) : Prop :=
  ReadUInt32BE dev (12 + 16 * i) = Ok (Tag t)
  /\ ReadUInt32BE dev (12 + 16 * i + 4) = Ok (Checksum t)
  /\ ReadUInt32BE dev (12 + 16 * i + 8) = Ok (Offset t)
  /\ exists len, ReadUInt32BE dev (12 + 16 * i + 12) = Ok len
                 /\ (if Tag t =? TTAG_post then 32 <= len /\ Length t = 32
                     else Length t = len).

(** A table that [InitTables] keeps: one of the known tables, found in the
    directory before entry [n]. *)
Definition kept_table (dev : device) (n : Z) (t : TrueTypeTable) : Prop :=
  Tag t ∈ known_tags /\ exists i, 0 <= i < n /\ directory_entry dev i t.


(** The size of a component record of a compound glyph, from its flags, as
    the OpenType specification has it: the flags and the glyph index, the
    two arguments as bytes or as words, and a scale, an x and y scale, or
    a two-by-two matrix. *)
Definition component_record_size (flags : Z) : Z :=
  4 + (if Z.testbit flags 0 then 4 else 2)
  + (if Z.testbit flags 3 then 2
     else if Z.testbit flags 6 then 4
     else if Z.testbit flags 7 then 8
     else 0).

(** The bytes of a string that are negative as [signed char]. *)
Definition high_bytes (bs : list byte) : Z :=
  Z.of_nat (length (filter (fun b => 128 <=? Z_of_byte b) bs)).

(** [glyphIndexMap] numbers the glyphs of [ordered] by their place in the
    list, the first place being 0, and numbers no other glyph. *)
Definition numbered_by_place (glyphIndexMap : gmap Z Z) (ordered : list Z) : Prop :=
  forall g i, glyphIndexMap !! g = Some i <-> 0 <= i /\ ordered !! Z.to_nat i = Some g.

(** What the renumbering leaves in the record of a glyph: nothing new for a
    simple glyph, and for a compound glyph one record for each component,
    with the number of the component. *)
Definition remapped (fuel : nat) (dev : device) (glyphIndexMap : gmap Z Z)
    (e e' : Z * GlyphData) : Prop :=
  fst e' = fst e
  /\ IsCompound (snd e') = IsCompound (snd e)
  /\ GlyphAdvOffset (snd e') = GlyphAdvOffset (snd e)
  /\ exists cs added,
       (if IsCompound (snd e) then component_gids fuel dev (GlyphAdvOffset (snd e)) 0
        else Ok []) = Ok cs
       /\ CompoundComponents (snd e') = CompoundComponents (snd e) ++ added
       /\ Forall2 (fun c g => glyphIndexMap !! g = Some (cmp_GlyphIndex c)) added cs.

(** Entry [i] of the table directory of [out] records table [t]: its tag,
    and a place and a length (modulo [2^32]) of a range of [out] that starts
    on a multiple of four bytes behind a directory of [numTables] entries. *)
Definition recorded_table (out : buffer) (numTables i : Z) (t : TrueTypeTable) : Prop :=
  ReadUInt32BE out (12 + 16 * i) = Ok (u32 (Tag t))
  /\ exists offset len,
       ReadUInt32BE out (12 + 16 * i + 8) = Ok (u32 offset)
       /\ ReadUInt32BE out (12 + 16 * i + 12) = Ok (u32 len)
       /\ offset mod 4 = 0
       /\ 12 + 16 * numTables <= offset
       /\ 0 <= len
       /\ offset + len <= Tell out.

End SubsetterNotions.

End Spec.

(** * Properties *)

(** ** General lemmas *)

Lemma bind_Ok_inv {A B} (m : outcome A) (f : A -> outcome B) (b : B) :
  m ≫= f = Ok b -> exists a, m = Ok a /\ f a = Ok b.
Proof. destruct m; simpl; intros H; try discriminate. eauto. Qed.

Lemma Z_of_byte_range b : 0 <= Z_of_byte b < 256.
Proof. unfold Z_of_byte. destruct b; vm_compute; split; congruence. Qed.

(** Splits the hypothesis [m ≫= f = Ok b]. *)
Ltac inv_bind H :=
  let x := fresh "x" in
  let Hx := fresh "Hx" in
  apply bind_Ok_inv in H; destruct H as (x & Hx & H).

(** ** The checksum ([GetTableCheksum], [WriteTables]) *)

Section Checksum.
Import TrueTypeSubset Fixture Spec.

(** What the loop of [GetTableCheksum] adds up: single characters. *)
Lemma sum_chars_app sgn (pre post : list byte) (sum : Z) :
  sum_chars sgn sum (length pre) (pre ++ post)
  = Ok (foldl (fun acc c => u32 (acc + char_value sgn c)) sum pre).
Proof.
  revert sum. induction pre as [|c pre IH]; intros sum; simpl; [reflexivity|].
  apply IH.
Qed.

(** The code's checksum of a range is the sum of the characters of its
    first quarter (rounded up), whatever the other three quarters hold. *)
Lemma GetTableCheksum_reads_first_quarter sgn (buf : list byte) (size : Z) :
  0 <= size < 2 ^ 32 - 3 ->
  (Z.to_nat ((size + 3) / 4) <= length buf)%nat ->
  GetTableCheksum sgn buf size
  = Ok (foldl (fun acc c => u32 (acc + char_value sgn c)) 0
              (take (Z.to_nat ((size + 3) / 4)) buf)).
Proof.
  intros Hsize Hlen. unfold GetTableCheksum.
  replace (u32 (size + 3)) with (size + 3)
    by (unfold u32; rewrite Z.mod_small; lia).
  set (n := Z.to_nat ((size + 3) / 4)) in *.
  rewrite <- (take_drop n buf) at 1.
  rewrite <- (sum_chars_app sgn (take n buf) (drop n buf) 0).
  f_equal. rewrite length_take. lia.
Qed.

(** C1 (the code departs from the claim).  On the four bytes
    [00 01 00 00], one big-endian word of value [0x00010000],
    [GetTableCheksum] returns 0: it adds the first character only.  And the
    subset of the closure font, with the adjustment the code stores, has a
    word sum other than [0xB1B0AFBA]. *)
Theorem C1_checksum_adds_characters (char_is_signed : bool) :
  GetTableCheksum char_is_signed [x00; x01; x00; x00] 4 = Ok 0
  /\ checksum_words [x00; x01; x00; x00] = 0x00010000
  /\ exists out, BuildFont char_is_signed 10 closure_font [10] = Ok out
                 /\ checksum_words out <> 0xB1B0AFBA.
Proof.
  destruct char_is_signed.
  - split; [reflexivity|]. split; [reflexivity|].
    eexists; split; [vm_compute; reflexivity|]. vm_compute. discriminate.
  - split; [reflexivity|]. split; [reflexivity|].
    eexists; split; [vm_compute; reflexivity|]. vm_compute. discriminate.
Qed.

End Checksum.

(** ** The required tables ([InitTables]) *)

Section RequiredTables.
Import TrueTypeSubset Fixture Spec.

Lemma lor_below_64 (a b : Z) : 0 <= a < 64 -> 0 <= b < 64 -> 0 <= Z.lor a b < 64.
Proof.
  intros Ha Hb. split; [apply Z.lor_nonneg; lia|].
  destruct (Z.eq_dec (Z.lor a b) 0) as [E|E]; [lia|].
  assert (Hpos : 0 < Z.lor a b) by (pose proof (proj2 (Z.lor_nonneg a b)); lia).
  change 64 with (2 ^ 6). apply Z.log2_lt_pow2; [exact Hpos|].
  rewrite Z.log2_lor by lia. apply Z.max_lub_lt.
  - destruct (Z.eq_dec a 0) as [->|Hne]; [reflexivity|].
    apply Z.log2_lt_pow2; [lia|]. change (2 ^ 6) with 64. lia.
  - destruct (Z.eq_dec b 0) as [->|Hne]; [reflexivity|].
    apply Z.log2_lt_pow2; [lia|]. change (2 ^ 6) with 64. lia.
Qed.

Lemma lor_bit_not_zero (a b : Z) : 0 <= a -> 0 < b -> Z.lor a b <> 0.
Proof. intros Ha Hb E. apply Z.lor_eq_0_iff in E. lia. Qed.

Lemma classify_table_tells (tableMask : Z) (tables : list TrueTypeTable) (tbl : TrueTypeTable) :
  mask_tells (tableMask, tables) ->
  let '(tableMask', skipTable, tbl') := classify_table tableMask tbl in
  mask_tells (tableMask', if skipTable then tables else tables ++ [tbl']).
Proof.
  intros [Hrange Hzero]. simpl in Hrange, Hzero.
  assert (Hbit : forall bit t, 0 < bit < 64 -> required_bit (Tag t) = bit ->
                 mask_tells (Z.lor tableMask bit, tables ++ [t])).
  { intros bit t Hb Ht. split; simpl.
    - apply lor_below_64; lia.
    - split.
      + intros E. exfalso. revert E. apply lor_bit_not_zero; lia.
      + intros Hall. apply Forall_app in Hall. destruct Hall as [_ Hlast].
        apply Forall_inv in Hlast. lia. }
  assert (Hkeep : forall t, required_bit (Tag t) = 0 -> mask_tells (tableMask, tables ++ [t])).
  { intros t Ht. split; simpl; [exact Hrange|]. rewrite Forall_app, Hzero.
    split; [intros H; split; [exact H | repeat constructor; exact Ht] | tauto]. }
  unfold classify_table.
  destruct (Z.eqb_spec (Tag tbl) TTAG_head) as [E|_];
    [apply Hbit; [vm_compute; split; reflexivity | rewrite E; reflexivity]|].
  destruct (Z.eqb_spec (Tag tbl) TTAG_hhea) as [E|_];
    [apply Hbit; [vm_compute; split; reflexivity | rewrite E; reflexivity]|].
  destruct (Z.eqb_spec (Tag tbl) TTAG_loca) as [E|_];
    [apply Hbit; [vm_compute; split; reflexivity | rewrite E; reflexivity]|].
  destruct (Z.eqb_spec (Tag tbl) TTAG_maxp) as [E|_];
    [apply Hbit; [vm_compute; split; reflexivity | rewrite E; reflexivity]|].
  destruct (Z.eqb_spec (Tag tbl) TTAG_glyf) as [E|_];
    [apply Hbit; [vm_compute; split; reflexivity | rewrite E; reflexivity]|].
  destruct (Z.eqb_spec (Tag tbl) TTAG_hmtx) as [E|_];
    [apply Hbit; [vm_compute; split; reflexivity | rewrite E; reflexivity]|].
  destruct (Z.eqb_spec (Tag tbl) TTAG_cvt) as [E|_];
    [simpl; apply Hkeep; rewrite E; reflexivity|].
  destruct (Z.eqb_spec (Tag tbl) TTAG_fpgm) as [E|_];
    [simpl; apply Hkeep; rewrite E; reflexivity|].
  destruct (Z.eqb_spec (Tag tbl) TTAG_prep) as [E|_];
    [simpl; apply Hkeep; rewrite E; reflexivity|].
  simpl.
  destruct (Z.eqb_spec (Tag tbl) TTAG_post) as [E|_].
  - destruct (Length tbl <? 32); [split; assumption|].
    apply Hkeep. simpl. rewrite E. reflexivity.
  - split; assumption.
Qed.

Lemma scan_entries_tells (dev : device) (n : nat) :
  forall i st st',
    scan_entries dev n i st = Ok st' -> mask_tells st -> mask_tells st'.
Proof.
  induction n as [|n IH]; intros i st st' H Hst; simpl in H.
  - injection H as <-. exact Hst.
  - inv_bind H. apply (IH _ _ _ H). clear H IH.
    destruct st as [tableMask tables]. unfold scan_entry in Hx.
    inv_bind Hx. inv_bind Hx. inv_bind Hx. inv_bind Hx.
    pose proof (classify_table_tells tableMask tables (mkTable x0 x1 x3 x2) Hst) as Hc.
    destruct (classify_table tableMask (mkTable x0 x1 x3 x2)) as [[tableMask' skipTable] tbl'].
    injection Hx as <-. exact Hc.
Qed.

(** What the mask test of [InitTables] amounts to: once the directory has
    been read, the font is refused exactly when none of the six tables is in
    it, and let through as soon as one of them is. *)
Lemma InitTables_refuses_iff_none (dev : device) (tableCount tableMask : Z)
    (tables : list TrueTypeTable) :
  ReadUInt16BE dev 4 = Ok tableCount ->
  scan_entries dev (Z.to_nat tableCount) 0 (ReqTable_none, []) = Ok (tableMask, tables) ->
  (InitTables dev = Raise UnsupportedFontFormat
   <-> Forall (fun t => required_bit (Tag t) = 0) tables)
  /\ (InitTables dev = Ok tables
      <-> Exists (fun t => required_bit (Tag t) <> 0) tables).
Proof.
  intros Hcount Hscan.
  assert (Htells : mask_tells (tableMask, tables)).
  { apply (scan_entries_tells dev _ _ _ _ Hscan). split; simpl; [vm_compute; split; congruence|].
    split; [constructor | reflexivity]. }
  destruct Htells as [Hrange Hzero]. simpl in Hrange, Hzero.
  assert (Hland : Z.land tableMask ReqTable_all = tableMask).
  { change ReqTable_all with (Z.ones 6). rewrite Z.land_ones by lia.
    apply Z.mod_small. change (2 ^ 6) with 64. lia. }
  unfold InitTables. change (4 * 1) with 4. rewrite Hcount. simpl. rewrite Hscan. simpl.
  rewrite Hland. unfold ReqTable_none.
  destruct (Z.eqb_spec tableMask 0) as [E|E].
  - split.
    + split; [intros _; apply Hzero; exact E | reflexivity].
    + split; [discriminate|]. intros Hex. exfalso.
      apply Exists_exists in Hex. destruct Hex as (t & Hin & Ht).
      apply Hzero in E. rewrite Forall_forall in E. apply Ht, E, Hin.
  - split.
    + split; [discriminate | intros Hall; exfalso; apply E, Hzero, Hall].
    + split; [intros _ | intros _; reflexivity].
      apply (not_Forall_Exists (fun t => required_bit (Tag t) = 0)).
      intros Hall. apply E, Hzero, Hall.
Qed.

(** C2 (the code departs from the claim).  The font without [hmtx] passes
    the table scan and is subsetted; the font that has [head] alone passes
    the scan too and fails later, with [InternalLogic]. *)
Theorem C2_missing_table_passes_scan (char_is_signed : bool) :
  (exists tables, InitTables font_without_hmtx = Ok tables
                  /\ Forall (fun t => Tag t <> TTAG_hmtx) tables)
  /\ is_Ok (BuildFont char_is_signed 10 font_without_hmtx [10]) = true
  /\ is_Ok (InitTables font_head_only) = true
  /\ BuildFont char_is_signed 10 font_head_only [10] = Raise InternalLogic.
Proof.
  split.
  { eexists; split; [vm_compute; reflexivity|].
    repeat constructor; vm_compute; discriminate. }
  destruct char_is_signed; repeat split; vm_compute; reflexivity.
Qed.

End RequiredTables.

(** ** [SetReference] *)

Section Setters.
Import Variant Spec.

(** C5 (the code departs from the claim).  [SetReference] raises
    [InvalidDataType] exactly on the loaded variants whose kind is
    [Reference], mutable or not; on a variant of another kind, here a
    boolean, it gets past its test and stores through a pointer that is not
    one to a reference.  The sibling [SetName] accepts a variant of its own
    kind, stores, and sets the dirty flag. *)
Theorem C5_SetReference_refuses_references
    (r ref : PdfReference) (dirty immutable b : bool) (n name : PdfName) :
  (forall v, SetReference v ref = Raise InvalidDataType
             <-> m_bDelayedLoadDone v = true /\ m_eDataType v = ePdfDataType_Reference)
  /\ SetReference (mkVariant (pData (DataReference r)) true dirty ePdfDataType_Reference immutable) ref
     = Raise InvalidDataType
  /\ SetReference (PdfVariant_reference r) ref = Raise InvalidDataType
  /\ SetReference (PdfVariant_bool b) ref = Undefined
  /\ SetName (PdfVariant_name n) name
     = Ok (mkVariant (pData (DataName name)) true true ePdfDataType_Name false).
Proof.
  split; [|repeat split].
  intros [data loaded dirty0 ty imm]. unfold SetReference, IsReference, GetDataType, DelayedLoad.
  simpl. destruct loaded; simpl; [|split; [discriminate | intros [? _]; discriminate]].
  destruct ty; simpl;
    try (split; [reflexivity || (intros _; split; reflexivity) | reflexivity]);
    (split; [|intros [_ ?]; discriminate]);
    destruct imm; simpl; try discriminate;
    destruct data as [| | | |[| | | | |]]; discriminate.
Qed.

End Setters.

(** ** [GetNumber] on a real *)

Section ReadingNumbers.
Import Variant Spec.

Lemma floor_double_Qfloor (d : spec_float) (q : Q) :
  SF2Q d = Some q -> floor_double d = Some (Qfloor q).
Proof.
  destruct d as [s|s| |s m e]; simpl; intros H; try discriminate.
  - injection H as <-. reflexivity.
  - injection H as <-. f_equal.
    destruct (Z.leb_spec 0 e) as [He|He].
    + unfold Qfloor, inject_Z. now rewrite Z.div_1_r.
    + unfold Qfloor. rewrite Pos2Z.inj_pow. do 2 f_equal.
      destruct e; simpl in *; lia || reflexivity.
Qed.

(** C6, as the code has it: a real is read as its floor, for every finite
    value whose floor a signed 64-bit integer holds; the floor is the
    truncation for a value that is not negative; and no read raises
    [ValueOutOfRange]. *)
Theorem C6_GetNumber_takes_floor (d : spec_float) (q : Q) :
  SF2Q d = Some q ->
  - 2 ^ 63 <= Qfloor q < 2 ^ 63 ->
  GetNumber (PdfVariant_real d) = Ok (Qfloor q)
  /\ (0 <= Qnum q -> Qfloor q = Qtruncate q)
  /\ (forall v : PdfVariant, GetNumber v <> Raise ValueOutOfRange).
Proof.
  intros Hq Hrange. split; [|split].
  - unfold GetNumber, PdfVariant_real. simpl.
    rewrite (floor_double_Qfloor d q Hq). simpl.
    destruct (Z.leb_spec (- 2 ^ 63) (Qfloor q)); [|lia].
    destruct (Z.ltb_spec (Qfloor q) (2 ^ 63)); [reflexivity|lia].
  - intros Hpos. unfold Qfloor, Qtruncate. destruct q as [num den]; simpl in *.
    symmetry. apply Z.quot_div_nonneg; lia.
  - intros v. unfold GetNumber, IsReal, IsNumber, GetDataType, DelayedLoad.
    destruct (m_bDelayedLoadDone v); simpl; [|discriminate].
    destruct (m_eDataType v); simpl; try discriminate;
      destruct (m_Data v) as [| | |f|]; try discriminate.
    unfold double_to_long. destruct (floor_double f); [|discriminate].
    destruct (_ && _); discriminate.
Qed.

Lemma C6_GetNumber_takes_floor_witness :
  GetNumber (PdfVariant_real minus_half) = Ok (-1).
Proof.
  refine (proj1 (C6_GetNumber_takes_floor minus_half (Qmake (-1) 2) _ _)).
  - reflexivity.
  - vm_compute. split; [discriminate | reflexivity].
Defined.

(** C6 as stated fails at [-0.5]: the value read is [-1], the truncation
    toward zero is [0]; and at [2^63], outside the 64-bit range, nothing is
    raised. *)
Lemma C6_floor_is_not_truncation :
  SF2Q minus_half = Some (Qmake (-1) 2)
  /\ Qtruncate (Qmake (-1) 2) = 0
  /\ GetNumber (PdfVariant_real minus_half) <> Ok (Qtruncate (Qmake (-1) 2))
  /\ GetNumber (PdfVariant_real two_to_the_63) <> Raise ValueOutOfRange.
Proof. repeat split; vm_compute; discriminate. Qed.

End ReadingNumbers.

(** ** Dictionary keys *)

Section DictionaryKeys.
Import Variant Spec.
Context {A : Type}.

Lemma map_find_insert (key : PdfName) (v : A) (m : list (PdfName * A)) :
  map_find key (fst (map_insert key v m)) <> None.
Proof.
  induction m as [|[k w] m IH]; simpl.
  - rewrite String.eqb_refl. discriminate.
  - destruct (String.ltb key k).
    + simpl. rewrite String.eqb_refl. discriminate.
    + destruct (String.eqb key k) eqn:E.
      * simpl. rewrite String.eqb_sym, E. discriminate.
      * destruct (map_insert key v m) as [rest' inserted]. simpl in *.
        rewrite String.eqb_sym, E. exact IH.
Qed.

Lemma map_find_store (key : PdfName) (v : A) (m : list (PdfName * A)) :
  map_find key m <> None -> map_find key (map_store key v m) = Some v.
Proof.
  induction m as [|[k w] m IH]; simpl; [congruence|].
  destruct (String.eqb k key) eqn:E; simpl; rewrite E; auto.
Qed.

Lemma map_find_erase_head (key : PdfName) (v : A) (m : list (PdfName * A)) :
  map_erase key ((key, v) :: m) = m.
Proof. simpl. rewrite String.eqb_refl. reflexivity. Qed.

(** After [AddKey], [HasKey] finds the key, whatever the key. *)
Lemma HasKey_AddKey (CopyA AssignA : A -> outcome A)
    (d d' : PdfDictionary A) (key : PdfName) (v : A) :
  AddKey CopyA AssignA d key v = Ok d' -> HasKey d' key = true.
Proof.
  unfold AddKey. intros H.
  inv_bind H. inv_bind H. inv_bind H.
  pose proof (map_find_insert key x1 (m_mapKeys d)) as Hfind.
  destruct (map_insert key x1 (m_mapKeys d)) as [keys inserted]. simpl in Hfind.
  inv_bind H. injection H as <-. unfold HasKey. simpl.
  destruct inserted.
  - injection Hx2 as <-. destruct (map_find key keys); congruence.
  - inv_bind Hx2. injection Hx2 as <-.
    rewrite map_find_store by exact Hfind. reflexivity.
Qed.

(** [getKey] answers null for the empty name, whatever the dictionary. *)
Lemma getKey_empty_name (d : PdfDictionary A) : getKey d EmptyString = None.
Proof. reflexivity. Qed.

End DictionaryKeys.

Section EmptyName.
Import Variant Spec.

(** C8 (the code departs from the claim).  [AddKey] takes the empty name,
    [HasKey] finds it afterwards and [RemoveKey] removes it, but [getKey]
    answers null for it; a one-letter name is found by both. *)
Theorem C8_empty_name_is_not_looked_up (n : Z) :
  exists d,
    AddKey PdfVariant_copy PdfVariant_assign (mkDictionary [] false false)
           EmptyString (PdfVariant_number n) = Ok d
    /\ HasKey d EmptyString = true
    /\ getKey d EmptyString = None
    /\ RemoveKey d EmptyString = Ok (mkDictionary [] true false, true)
    /\ exists d',
         AddKey PdfVariant_copy PdfVariant_assign (mkDictionary [] false false)
                (String "A" EmptyString) (PdfVariant_number n) = Ok d'
         /\ HasKey d' (String "A" EmptyString) = true
         /\ getKey d' (String "A" EmptyString) = Some (PdfVariant_number n).
Proof.
  eexists. split; [reflexivity|]. repeat split.
  eexists. split; [reflexivity|]. repeat split.
Qed.

End EmptyName.

(** ** Dictionary equality *)

Section DictionaryEquality.
Import Variant Spec.

(** C4 (the code departs from the claim).  Two distinct dictionaries of the
    same size whose first entries agree: the loop compares the first
    entries again and again; no budget is enough for an answer. *)
Theorem C4_lockstep_does_not_advance {A : Type} (PdfObject_ne : A -> A -> outcome bool)
    (this rhs : PdfDictionary A) (k : PdfName) (v1 v2 : A) (r1 r2 : list (PdfName * A)) :
  m_mapKeys this = (k, v1) :: r1 ->
  m_mapKeys rhs = (k, v2) :: r2 ->
  length r1 = length r2 ->
  PdfObject_ne v1 v2 = Ok false ->
  forall fuel, Dictionary_eq PdfObject_ne fuel false this rhs = OutOfFuel.
Proof.
  intros H1 H2 Hlen Hne fuel. unfold Dictionary_eq. rewrite H1, H2. simpl.
  rewrite Hlen, Nat.eqb_refl. simpl.
  induction fuel as [|fuel IH]; simpl; [reflexivity|].
  rewrite String.eqb_refl. simpl. rewrite Hne. simpl. exact IH.
Qed.

Lemma C4_lockstep_does_not_advance_witness :
  Dictionary_eq number_ne 1000 false dict_A1 dict_A1 = OutOfFuel.
Proof.
  exact (C4_lockstep_does_not_advance number_ne dict_A1 dict_A1
           (String "A" EmptyString) (PdfVariant_number 1) (PdfVariant_number 1) [] []
           eq_refl eq_refl eq_refl eq_refl 1000%nat).
Defined.

End DictionaryEquality.

(** ** Writing a real in compact mode *)

Section WritingReals.
Import Variant Spec.

Lemma strip_trailing_zeros_split (l : list ascii) :
  exists k, l = strip_trailing_zeros l ++ replicate k "0"%char.
Proof.
  induction l as [|c r [k IH]]; simpl; [exists 0%nat; reflexivity|].
  destruct (strip_trailing_zeros r) as [|d t] eqn:E.
  - destruct (Ascii.eqb_spec c "0") as [->|Hc].
    + exists (S k). simpl in *. now rewrite IH at 1.
    + exists k. simpl in *. now rewrite IH at 1.
  - exists k. simpl in *. now rewrite IH at 1.
Qed.

(** The stripped string is empty or ends with a character that is not
    ['0']. *)
Lemma strip_trailing_zeros_last (l : list ascii) :
  strip_trailing_zeros l = []
  \/ exists t c, strip_trailing_zeros l = t ++ [c] /\ c <> "0"%char.
Proof.
  induction l as [|c r IH]; simpl; [now left|].
  destruct (strip_trailing_zeros r) as [|d t] eqn:E.
  - destruct (Ascii.eqb_spec c "0") as [->|Hc]; [now left|].
    right. exists [], c. split; [reflexivity | exact Hc].
  - right. destruct IH as [IH|(t' & c' & IH & Hc')]; [discriminate|].
    exists (c :: t'), c'. split; [|exact Hc']. simpl. now rewrite IH.
Qed.

Lemma strip_trailing_zeros_subseteq (l : list ascii) (c : ascii) :
  c ∈ strip_trailing_zeros l -> c ∈ l.
Proof.
  destruct (strip_trailing_zeros_split l) as [k Hk]. intros Hc.
  rewrite Hk. apply elem_of_app. now left.
Qed.

(** The [while] loop stops right behind the last character that is not
    ['0']. *)
Lemma skip_zeros_stops (s : list ascii) (c : ascii) (k : nat) :
  c <> "0"%char ->
  skip_zeros ((s ++ [c]) ++ replicate k "0"%char) (length (s ++ [c]) + k)
  = Ok (length (s ++ [c])).
Proof.
  intros Hc. induction k as [|k IH].
  - rewrite Nat.add_0_r, length_app. simpl. rewrite Nat.add_1_r. simpl.
    rewrite app_nil_r.
    rewrite lookup_app_r by lia. rewrite Nat.sub_diag. simpl.
    destruct (Ascii.eqb_spec c "0"); [contradiction|]. reflexivity.
  - rewrite Nat.add_succ_r. simpl.
    rewrite lookup_app_r by lia.
    replace (length (s ++ [c]) + k - length (s ++ [c]))%nat with k by lia.
    change ("0"%char :: replicate k "0"%char) with (replicate (S k) "0"%char).
    rewrite lookup_replicate_2 by lia. simpl is_char. cbv iota.
    replace (replicate (S k) "0"%char) with (replicate k "0"%char ++ ["0"%char])
      by (rewrite <- replicate_S_end; reflexivity).
    assert (Hpre : forall len tail,
               (len <= length ((s ++ [c]) ++ replicate k "0"%char))%nat ->
               skip_zeros (((s ++ [c]) ++ replicate k "0"%char) ++ tail) len
               = skip_zeros ((s ++ [c]) ++ replicate k "0"%char) len).
    { induction len as [|len IHlen]; intros tail Hlen; simpl; [reflexivity|].
      rewrite lookup_app_l by lia. rewrite IHlen by lia. reflexivity. }
    rewrite app_assoc. rewrite Hpre.
    + exact IH.
    + rewrite (length_app (s ++ [c])), length_replicate. lia.
Qed.

(** What the compact branch writes for a rendering with a point: the
    characters before the point, then the fraction without its trailing
    zeros, the point included only if something is left of the fraction;
    ['0'] if nothing at all is left. *)
Lemma write_real_digits_compact (pre frac : list ascii) :
  "."%char ∉ frac ->
  write_real_digits ePdfWriteMode_Compact (pre ++ "."%char :: frac)
  = Ok (match strip_trailing_zeros frac, pre with
        | [], [] => chars "0"
        | _, _ => pre ++ fraction_suffix frac
        end).
Proof.
  intros Hpoint. unfold write_real_digits.
  change (is_compact ePdfWriteMode_Compact) with true. simpl andb.
  rewrite bool_decide_eq_true_2 by (apply elem_of_app; right; left).
  destruct (strip_trailing_zeros_split frac) as [k Hk].
  unfold fraction_suffix.
  destruct (strip_trailing_zeros_last frac) as [E|(t & c & E & Hc)].
  - (* the fraction is all zeros: the loop stops at the point *)
    rewrite E in *. simpl in Hk.
    replace (pre ++ "."%char :: frac) with ((pre ++ ["."%char]) ++ replicate k "0"%char)
      by (rewrite Hk, <- app_assoc; reflexivity).
    replace (length ((pre ++ ["."%char]) ++ replicate k "0"%char))
      with (length (pre ++ ["."%char]) + k)%nat
      by (rewrite !length_app, length_replicate; reflexivity).
    rewrite skip_zeros_stops by discriminate. simpl.
    rewrite length_app. simpl. rewrite Nat.add_1_r. simpl. rewrite Nat.sub_0_r.
    rewrite lookup_app_l by (rewrite length_app; simpl; lia).
    rewrite lookup_app_r by lia. rewrite Nat.sub_diag. simpl.
    destruct pre as [|p pre]; simpl; [reflexivity|].
    rewrite <- app_assoc. rewrite take_app_length. rewrite app_nil_r. reflexivity.
  - (* a digit of the fraction is left *)
    assert (Hcp : c <> "."%char).
    { intros ->. apply Hpoint. apply strip_trailing_zeros_subseteq.
      rewrite E. apply elem_of_app. right. left. }
    rewrite E in *.
    replace (pre ++ "."%char :: frac)
      with (((pre ++ "."%char :: t) ++ [c]) ++ replicate k "0"%char)
      by (rewrite Hk, <- !app_assoc; reflexivity).
    replace (length (((pre ++ "."%char :: t) ++ [c]) ++ replicate k "0"%char))
      with (length ((pre ++ "."%char :: t) ++ [c]) + k)%nat
      by (rewrite !length_app, length_replicate; reflexivity).
    rewrite skip_zeros_stops by exact Hc. simpl.
    rewrite (length_app _ [c]). simpl. rewrite Nat.add_1_r. simpl. rewrite Nat.sub_0_r.
    rewrite lookup_app_l by (rewrite (length_app _ [c]); simpl; lia).
    rewrite lookup_app_r by lia. rewrite Nat.sub_diag. simpl.
    destruct (Ascii.eqb_spec c ".") as [->|_]; [contradiction|].
    replace (S (length (pre ++ "."%char :: t)))
      with (length ((pre ++ "."%char :: t) ++ [c]))
      by (rewrite (length_app _ [c]); simpl; lia).
    rewrite take_app_length.
    destruct (t ++ [c]) as [|x y] eqn:Etc; [destruct t; discriminate|].
    rewrite <- Etc. rewrite <- app_assoc. simpl.
    destruct pre; reflexivity.
Qed.

Lemma digits_no_point (u : Decimal.uint) :
  "."%char ∉ chars (NilEmpty.string_of_uint u).
Proof.
  induction u; simpl; [apply not_elem_of_nil | ..];
    (intros H; apply elem_of_cons in H; destruct H as [H|H];
     [discriminate | contradiction]).
Qed.

Lemma decimal_no_point (n : Z) : "."%char ∉ decimal n.
Proof.
  unfold decimal, NilZero.string_of_uint.
  destruct (N.to_uint (Z.to_N n)) as [|u|u|u|u|u|u|u|u|u|u] eqn:E;
    try apply digits_no_point.
  simpl. intros H. apply elem_of_cons in H. destruct H as [H|H];
    [discriminate | now apply not_elem_of_nil in H].
Qed.

Lemma decimal_nonempty (n : Z) : decimal n <> [].
Proof.
  unfold decimal, NilZero.string_of_uint.
  destruct (N.to_uint (Z.to_N n)); simpl; discriminate.
Qed.

Lemma six_digits_no_point (n : Z) : "."%char ∉ six_digits n.
Proof.
  unfold six_digits. intros H.
  apply (decimal_no_point (10 ^ 6 + n mod 10 ^ 6)).
  destruct (decimal (10 ^ 6 + n mod 10 ^ 6)) as [|c l]; [exact H|].
  simpl in H. rewrite drop_0 in H. now right.
Qed.

(** C7, as the code has it.  In compact mode a real is written as one
    space, unconditionally, followed by the sign, the integer digits of the
    fixed-point rendering, and the fraction without its trailing zeros (the
    point too is left out when no digit of the fraction remains); a zero
    is written as a space, its sign, and [0].  [1.5], [1.0] and [0.0] come
    out as [ 1.5], [ 1] and [ 0]. *)
Theorem C7_compact_real_is_space_then_trimmed
    (WriteData : PdfDataType PdfVariant -> Z -> outcome (list ascii))
    (s : bool) (m : positive) (e : Z) :
  Write WriteData (PdfVariant_real (S754_finite s m e)) ePdfWriteMode_Compact
  = Ok (chars " " ++ sign_chars s ++ decimal (scaled_magnitude m e / 10 ^ 6)
        ++ fraction_suffix (six_digits (scaled_magnitude m e)))
  /\ Write WriteData (PdfVariant_real one_and_a_half) ePdfWriteMode_Compact = Ok (chars " 1.5")
  /\ Write WriteData (PdfVariant_real one) ePdfWriteMode_Compact = Ok (chars " 1")
  /\ Write WriteData (PdfVariant_real (S754_zero s)) ePdfWriteMode_Compact
     = Ok (chars " " ++ sign_chars s ++ chars "0")
  /\ Write WriteData (PdfVariant_real (S754_zero false)) ePdfWriteMode_Compact = Ok (chars " 0").
Proof.
  split; [|repeat split; destruct s; reflexivity].
  unfold Write, PdfVariant_real. simpl DelayedLoad. cbn [mbind outcome_bind].
  simpl m_eDataType. simpl m_Data. cbv iota.
  change (is_compact ePdfWriteMode_Compact) with true. cbv iota.
  unfold fixed.
  set (n := scaled_magnitude m e).
  replace (sign_chars s ++ decimal (n / 10 ^ 6) ++ chars "." ++ six_digits n)
    with ((sign_chars s ++ decimal (n / 10 ^ 6)) ++ "."%char :: six_digits n)
    by (rewrite <- app_assoc; reflexivity).
  rewrite write_real_digits_compact by apply six_digits_no_point.
  cbn [mbind outcome_bind].
  destruct (sign_chars s ++ decimal (n / 10 ^ 6)) as [|c pre] eqn:E.
  - apply app_eq_nil in E. destruct E as [_ E]. now apply decimal_nonempty in E.
  - rewrite <- E. rewrite <- app_assoc.
    destruct (strip_trailing_zeros (six_digits n)); reflexivity.
Qed.

(** C7 as stated fails at [1.5], [1.0] and [0.0]: what is written is not
    the bare token, the space comes first. *)
Lemma C7_leading_space_is_always_written :
  Write no_payload (PdfVariant_real one_and_a_half) ePdfWriteMode_Compact <> Ok (chars "1.5")
  /\ Write no_payload (PdfVariant_real one) ePdfWriteMode_Compact <> Ok (chars "1")
  /\ Write no_payload (PdfVariant_real (S754_zero false)) ePdfWriteMode_Compact <> Ok (chars "0").
Proof. repeat split; vm_compute; discriminate. Qed.

End WritingReals.

(** ** Copies and the dirty flag *)

Section Copies.
Import Variant Spec.

Lemma list_all_Forall {A : Type} (P : A -> Prop) (l : list A) :
  list_all A P l -> Forall P l.
Proof. induction 1; constructor; assumption. Qed.

(** Induction on a variant, with the property at hand for the elements of
    the container it holds. *)
Lemma PdfVariant_elements_ind (P : PdfVariant -> Prop) :
  (forall v,
      (forall a, m_Data v = pData (DataArray a) -> Forall P (arr_objects a)) ->
      (forall d, m_Data v = pData (DataDictionary d) ->
                 Forall (fun kv => P (snd kv)) (m_mapKeys d)) ->
      P v) ->
  forall v, P v.
Proof.
  intros step. induction v as [data Hall loaded dirty ty imm] using PdfVariant_ind.
  apply step; simpl.
  - intros a ->. inversion Hall as [| | | |p Hp]; subst.
    inversion Hp as [| | |a' Ha| |]; subst.
    destruct Ha as [objs Hobjs flag]. simpl.
    apply list_all_Forall. exact Hobjs.
  - intros d ->. inversion Hall as [| | | |p Hp]; subst.
    inversion Hp as [| | | |d' Hd|]; subst.
    destruct Hd as [keys Hkeys flag1 flag2]. simpl.
    clear Hall Hp. induction Hkeys as [|kv Hkv l Hl IH]; constructor; auto.
    destruct Hkv. assumption.
Qed.

Lemma forallb_Forall_true {A : Type} (f : A -> bool) (l : list A) :
  forallb f l = true <-> Forall (fun x => f x = true) l.
Proof.
  induction l as [|x l IH]; simpl; [split; constructor|].
  rewrite andb_true_iff, IH. split.
  - intros [? ?]; constructor; assumption.
  - inversion 1; subst; split; assumption.
Qed.

Section Elementwise.
Context {A : Type} (f : A -> outcome A) (flag : A -> outcome bool) (Q : A -> Prop).

Lemma any_dirty_none (l : list (PdfName * A)) :
  Forall (fun kv => flag (snd kv) = Ok false) l -> any_dirty flag l = Ok false.
Proof.
  induction 1 as [|[k x] l Hx _ IH]; simpl in *; [reflexivity|].
  rewrite Hx. simpl. exact IH.
Qed.

Lemma any_dirty_elem_none (l : list A) :
  Forall (fun x => flag x = Ok false) l -> any_dirty_elem flag l = Ok false.
Proof.
  induction 1 as [|x l Hx _ IH]; simpl in *; [reflexivity|].
  rewrite Hx. simpl. exact IH.
Qed.

Lemma copy_entries_each (l : list (PdfName * A)) :
  Forall (fun kv => exists x', f (snd kv) = Ok x' /\ Q x') l ->
  exists l', copy_entries f l = Ok l' /\ Forall (fun kv => Q (snd kv)) l'.
Proof.
  induction 1 as [|[k x] l (x' & Hx & HQ) _ (l' & Hl & HQl)]; simpl in *.
  - exists []. split; [reflexivity | constructor].
  - exists ((k, x') :: l'). rewrite Hx. simpl. rewrite Hl. simpl.
    split; [reflexivity | constructor; assumption].
Qed.

Lemma copy_elems_each (l : list A) :
  Forall (fun x => exists x', f x = Ok x' /\ Q x') l ->
  exists l', copy_elems f l = Ok l' /\ Forall Q l'.
Proof.
  induction 1 as [|x l (x' & Hx & HQ) _ (l' & Hl & HQl)]; simpl in *.
  - exists []. split; [reflexivity | constructor].
  - exists (x' :: l'). rewrite Hx. simpl. rewrite Hl. simpl.
    split; [reflexivity | constructor; assumption].
Qed.

End Elementwise.

Section ElementwiseSetDirty.
Context {A : Type} (f : A -> bool -> outcome A) (Q : A -> Prop).

Lemma set_dirty_all_each (l : list (PdfName * A)) :
  Forall (fun kv => exists x', f (snd kv) false = Ok x' /\ Q x') l ->
  exists l', set_dirty_all f false l = Ok l' /\ Forall (fun kv => Q (snd kv)) l'.
Proof.
  induction 1 as [|[k x] l (x' & Hx & HQ) _ (l' & Hl & HQl)]; simpl in *.
  - exists []. split; [reflexivity | constructor].
  - exists ((k, x') :: l'). rewrite Hx. simpl. rewrite Hl. simpl.
    split; [reflexivity | constructor; assumption].
Qed.

Lemma set_dirty_elems_each (l : list A) :
  Forall (fun x => exists x', f x false = Ok x' /\ Q x') l ->
  exists l', set_dirty_elems f false l = Ok l' /\ Forall Q l'.
Proof.
  induction 1 as [|x l (x' & Hx & HQ) _ (l' & Hl & HQl)]; simpl in *.
  - exists []. split; [reflexivity | constructor].
  - exists (x' :: l'). rewrite Hx. simpl. rewrite Hl. simpl.
    split; [reflexivity | constructor; assumption].
Qed.

End ElementwiseSetDirty.

Lemma forallb_entries (g : PdfVariant -> bool) (l : list (PdfName * PdfVariant)) :
  forallb (fun '(_, second) => g second) l = true
  <-> Forall (fun kv => g (snd kv) = true) l.
Proof.
  rewrite forallb_Forall_true. split; intros H; eapply Forall_impl; try exact H;
    intros [k x]; simpl; auto.
Qed.

(** A variant without any dirty flag reports that it is not dirty. *)
Lemma IsDirty_all_clean (v : PdfVariant) : all_clean v = true -> IsDirty v = Ok false.
Proof.
  induction v as [v IHa IHd] using PdfVariant_elements_ind.
  destruct v as [data loaded dirty ty imm]. simpl in *.
  destruct dirty; simpl; [discriminate|].
  destruct ty; try reflexivity.
  - destruct data as [| | | |[| | |a| |]]; try discriminate.
    rewrite andb_true_iff, forallb_Forall_true. intros [Hflag Hall].
    unfold Array_IsDirty. destruct (arr_bDirty a); [discriminate|].
    apply any_dirty_elem_none.
    specialize (IHa a eq_refl). rewrite Forall_forall in *. auto.
  - destruct data as [| | | |[| | | |d|]]; try discriminate.
    rewrite andb_true_iff, forallb_entries. intros [Hflag Hall].
    unfold Dictionary_IsDirty. destruct (dict_bDirty d); [discriminate|].
    apply any_dirty_none.
    specialize (IHd d eq_refl). rewrite Forall_forall in *. auto.
Qed.

(** [SetDirty(false)] goes through on a well-formed variant and clears
    every flag. *)
Lemma SetDirty_false_clears (v : PdfVariant) :
  well_formed v = true ->
  exists v', SetDirty v false = Ok v' /\ well_formed v' = true /\ all_clean v' = true.
Proof.
  induction v as [v IHa IHd] using PdfVariant_elements_ind.
  destruct v as [data loaded dirty ty imm]. simpl in *.
  destruct loaded; simpl; [|discriminate].
  destruct ty; destruct data as [| | | |[| | |a|d|]]; try discriminate; intros Hwf;
    try (eexists; split; [reflexivity|]; split; reflexivity).
  - (* an array *)
    apply forallb_Forall_true in Hwf.
    specialize (IHa a eq_refl).
    destruct (set_dirty_elems_each SetDirty
                (fun x => well_formed x = true /\ all_clean x = true) (arr_objects a))
      as (objs & Hobjs & HQ).
    { rewrite Forall_forall in *. intros x Hx.
      destruct (IHa x Hx (Hwf x Hx)) as (x' & ? & ? & ?). eauto. }
    unfold Array_SetDirty. simpl. rewrite Hobjs. simpl.
    eexists; split; [reflexivity|]. simpl.
    split; apply forallb_Forall_true; eapply Forall_impl; try exact HQ;
      simpl; intros x [? ?]; assumption.
  - (* a dictionary *)
    apply forallb_entries in Hwf.
    specialize (IHd d eq_refl).
    destruct (set_dirty_all_each SetDirty
                (fun x => well_formed x = true /\ all_clean x = true) (m_mapKeys d))
      as (keys & Hkeys & HQ).
    { rewrite Forall_forall in *. intros x Hx.
      destruct (IHd x Hx (Hwf x Hx)) as (x' & ? & ? & ?). eauto. }
    unfold Dictionary_SetDirty. simpl. rewrite Hkeys. simpl.
    eexists; split; [reflexivity|]. simpl.
    split; apply forallb_entries; eapply Forall_impl; try exact HQ;
      simpl; intros x [? ?]; assumption.
Qed.

Lemma PdfVariant_copy_unfold (rhs : PdfVariant) :
  PdfVariant_copy rhs = (this ← assign_with PdfVariant_copy rhs; SetDirty this false).
Proof. destruct rhs; reflexivity. Qed.

(** The assignment goes through on a well-formed variant, given that the
    copies of its elements do; the target is well formed and dirty. *)
Lemma assign_with_copy (rhs : PdfVariant) :
  well_formed rhs = true ->
  (forall a, m_Data rhs = pData (DataArray a) ->
     Forall (fun x => well_formed x = true ->
                      exists x', PdfVariant_copy x = Ok x' /\ well_formed x' = true)
            (arr_objects a)) ->
  (forall d, m_Data rhs = pData (DataDictionary d) ->
     Forall (fun kv => well_formed (snd kv) = true ->
                       exists x', PdfVariant_copy (snd kv) = Ok x' /\ well_formed x' = true)
            (m_mapKeys d)) ->
  exists this, assign_with PdfVariant_copy rhs = Ok this
               /\ well_formed this = true /\ m_bDirty this = true.
Proof.
  destruct rhs as [data loaded dirty ty imm]. simpl.
  destruct loaded; simpl; [|discriminate].
  unfold assign_with. simpl.
  destruct ty; destruct data as [| | | |[| | |a|d|]]; try discriminate;
    intros Hwf IHa IHd;
    try (eexists; split; [reflexivity|]; split; reflexivity).
  - apply forallb_Forall_true in Hwf. specialize (IHa a eq_refl).
    destruct (copy_elems_each PdfVariant_copy (fun x => well_formed x = true) (arr_objects a))
      as (objs & Hobjs & HQ).
    { rewrite Forall_forall in *. intros x Hx. exact (IHa x Hx (Hwf x Hx)). }
    unfold Array_copy. rewrite Hobjs. simpl.
    eexists; split; [reflexivity|]. simpl. split; [|reflexivity].
    apply forallb_Forall_true. exact HQ.
  - apply forallb_entries in Hwf. specialize (IHd d eq_refl).
    destruct (copy_entries_each PdfVariant_copy (fun x => well_formed x = true) (m_mapKeys d))
      as (keys & Hkeys & HQ).
    { rewrite Forall_forall in *. intros x Hx. exact (IHd x Hx (Hwf x Hx)). }
    unfold Dictionary_copy, Dictionary_assign. rewrite Hkeys. simpl.
    eexists; split; [reflexivity|]. simpl. split; [|reflexivity].
    apply forallb_entries. exact HQ.
Qed.

(** The copy constructor goes through on a well-formed variant; the copy
    is well formed and carries no dirty flag. *)
Lemma PdfVariant_copy_clean (rhs : PdfVariant) :
  well_formed rhs = true ->
  exists this, PdfVariant_copy rhs = Ok this
               /\ well_formed this = true /\ all_clean this = true.
Proof.
  induction rhs as [rhs IHa IHd] using PdfVariant_elements_ind. intros Hwf.
  destruct (assign_with_copy rhs Hwf) as (this & Hassign & Hthis & _).
  - intros a Ha. eapply Forall_impl; [exact (IHa a Ha)|]. simpl.
    intros x IH Hx. destruct (IH Hx) as (x' & ? & ? & ?). eauto.
  - intros d Hd. eapply Forall_impl; [exact (IHd d Hd)|]. simpl.
    intros x IH Hx. destruct (IH Hx) as (x' & ? & ? & ?). eauto.
  - rewrite PdfVariant_copy_unfold, Hassign. simpl.
    apply SetDirty_false_clears. exact Hthis.
Qed.

(** C9.  The copy constructor of a variant, and that of a dictionary,
    yield an object for which [IsDirty] answers false, whatever the dirty
    flags of the source; the assignment alone leaves its target dirty. *)
Theorem C9_copy_is_not_dirty (v : PdfVariant) (d : PdfDictionary PdfVariant) :
  well_formed v = true ->
  forallb (fun '(_, second) => well_formed second) (m_mapKeys d) = true ->
  (exists v', PdfVariant_copy v = Ok v' /\ IsDirty v' = Ok false)
  /\ (exists d', Dictionary_copy PdfVariant_copy d = Ok d'
                 /\ Dictionary_IsDirty IsDirty d' = Ok false)
  /\ (exists v'', PdfVariant_assign v = Ok v'' /\ IsDirty v'' = Ok true).
Proof.
  intros Hv Hd. split; [|split].
  - destruct (PdfVariant_copy_clean v Hv) as (v' & Hcopy & _ & Hclean).
    exists v'. split; [exact Hcopy | exact (IsDirty_all_clean v' Hclean)].
  - apply forallb_entries in Hd.
    destruct (copy_entries_each PdfVariant_copy (fun x => all_clean x = true) (m_mapKeys d))
      as (keys & Hkeys & HQ).
    { eapply Forall_impl; [exact Hd|]. simpl. intros kv Hkv.
      destruct (PdfVariant_copy_clean (snd kv) Hkv) as (x' & ? & ? & ?). eauto. }
    unfold Dictionary_copy, Dictionary_assign. rewrite Hkeys. simpl.
    eexists; split; [reflexivity|].
    unfold Dictionary_IsDirty. simpl. apply any_dirty_none.
    eapply Forall_impl; [exact HQ|]. simpl. intros kv. apply IsDirty_all_clean.
  - destruct (assign_with_copy v Hv) as (this & Hassign & _ & Hdirty).
    + intros a _. apply Forall_forall. intros x _ Hx.
      destruct (PdfVariant_copy_clean x Hx) as (x' & ? & ? & ?). eauto.
    + intros d0 _. apply Forall_forall. intros x _ Hx.
      destruct (PdfVariant_copy_clean (snd x) Hx) as (x' & ? & ? & ?). eauto.
    + exists this. split; [exact Hassign|].
      destruct this as [data loaded dirty ty imm]. simpl in *. subst dirty. reflexivity.
Qed.

Lemma C9_copy_is_not_dirty_witness :
  IsDirty dirty_nest = Ok true
  /\ Dictionary_IsDirty IsDirty dirty_dictionary = Ok true
  /\ (exists v', PdfVariant_copy dirty_nest = Ok v' /\ IsDirty v' = Ok false)
  /\ (exists d', Dictionary_copy PdfVariant_copy dirty_dictionary = Ok d'
                 /\ Dictionary_IsDirty IsDirty d' = Ok false).
Proof.
  split; [reflexivity|]. split; [reflexivity|].
  pose proof (C9_copy_is_not_dirty dirty_nest dirty_dictionary eq_refl eq_refl) as H.
  split; [exact (proj1 H) | exact (proj1 (proj2 H))].
Defined.

End Copies.

(** ** Loading the glyphs *)

Section GlyphMap.
Import TrueTypeSubset Spec.

Lemma gd_find_put (k k' : Z) (v : GlyphData) (m : GlyphDatas) :
  gd_find k' (gd_put k v m) = if k =? k' then Some v else gd_find k' m.
Proof.
  induction m as [|[k0 v0] m IH]; simpl.
  - reflexivity.
  - destruct (Z.ltb_spec k k0) as [Hlt|Hge]; simpl.
    + reflexivity.
    + destruct (Z.eqb_spec k k0) as [->|Hne]; simpl.
      * destruct (Z.eqb_spec k0 k'); reflexivity.
      * rewrite IH. destruct (Z.eqb_spec k0 k') as [->|]; [|reflexivity].
        destruct (Z.eqb_spec k k'); [lia | reflexivity].
Qed.

Lemma gd_find_put_eq (k : Z) (v : GlyphData) (m : GlyphDatas) :
  gd_find k (gd_put k v m) = Some v.
Proof. rewrite gd_find_put, Z.eqb_refl. reflexivity. Qed.

Lemma gd_find_put_ne (k k' : Z) (v : GlyphData) (m : GlyphDatas) :
  k <> k' -> gd_find k' (gd_put k v m) = gd_find k' m.
Proof. intros H. rewrite gd_find_put. destruct (Z.eqb_spec k k'); [contradiction | reflexivity]. Qed.

Lemma gd_keys_put (k : Z) (v : GlyphData) (m : GlyphDatas) (x : Z) :
  x ∈ gd_keys (gd_put k v m) <-> x = k \/ x ∈ gd_keys m.
Proof.
  unfold gd_keys. induction m as [|[k0 v0] m IH]; simpl.
  - rewrite elem_of_cons. tauto.
  - destruct (Z.ltb_spec k k0); simpl.
    + rewrite !elem_of_cons. tauto.
    + destruct (Z.eqb_spec k k0) as [->|Hne]; simpl.
      * rewrite !elem_of_cons. tauto.
      * rewrite !elem_of_cons, IH. tauto.
Qed.

(** The keys stay in increasing order. *)
Lemma gd_put_sorted (k : Z) (v : GlyphData) (m : GlyphDatas) :
  StronglySorted Z.lt (gd_keys m) -> StronglySorted Z.lt (gd_keys (gd_put k v m)).
Proof.
  unfold gd_keys. induction m as [|[k0 v0] m IH]; simpl; intros Hs.
  - repeat constructor.
  - apply StronglySorted_inv in Hs. destruct Hs as [Hs Hall].
    destruct (Z.ltb_spec k k0); simpl.
    + constructor; [constructor; assumption|].
      constructor; [assumption|].
      eapply Forall_impl; [exact Hall|]. simpl. intros; lia.
    + destruct (Z.eqb_spec k k0) as [->|Hne]; simpl.
      * constructor; assumption.
      * constructor; [auto|].
        apply Forall_forall. intros x Hx.
        apply (gd_keys_put k v m x) in Hx. destruct Hx as [->|Hx]; [lia|].
        rewrite Forall_forall in Hall. auto.
Qed.

Lemma sorted_keys_NoDup (m : GlyphDatas) :
  StronglySorted Z.lt (gd_keys m) -> NoDup (gd_keys m).
Proof.
  unfold gd_keys. induction 1 as [|k l Hs IH Hall]; constructor; auto.
  intros Hin. rewrite Forall_forall in Hall. specialize (Hall k Hin). lia.
Qed.

Lemma gd_find_Some_elem (k : Z) (v : GlyphData) (m : GlyphDatas) :
  gd_find k m = Some v -> (k, v) ∈ m.
Proof.
  induction m as [|[k0 v0] m IH]; simpl; [discriminate|].
  destruct (Z.eqb_spec k0 k) as [->|Hne].
  - intros [= ->]. left.
  - intros H. right. auto.
Qed.

Lemma gd_find_elem (k : Z) (v : GlyphData) (m : GlyphDatas) :
  NoDup (gd_keys m) -> (k, v) ∈ m -> gd_find k m = Some v.
Proof.
  unfold gd_keys. induction m as [|[k0 v0] m IH]; simpl; intros Hnd Hin.
  - inversion Hin.
  - apply NoDup_cons in Hnd. destruct Hnd as [Hk0 Hnd].
    apply elem_of_cons in Hin. destruct Hin as [[= -> ->]|Hin].
    + rewrite Z.eqb_refl. reflexivity.
    + destruct (Z.eqb_spec k0 k) as [->|Hne]; [|auto].
      exfalso. apply Hk0. apply (list_elem_of_fmap_2 fst) in Hin. exact Hin.
Qed.

Lemma gd_find_keys (k : Z) (m : GlyphDatas) :
  k ∈ gd_keys m <-> gd_find k m <> None.
Proof.
  unfold gd_keys. induction m as [|[k0 v0] m IH]; simpl.
  - split; [inversion 1 | congruence].
  - rewrite elem_of_cons, IH. destruct (Z.eqb_spec k0 k) as [->|Hne].
    + split; [discriminate | now left].
    + split; [intros [?|?]; [congruence | assumption] | now right].
Qed.

End GlyphMap.

Section Loading.
Import TrueTypeSubset Spec.

Variable ctx : GlyphContext.

Lemma LoadGID_S (fuel : nat) (this : Subset) (gid : Z) :
  LoadGID (S fuel) this ctx gid =
  if m_glyphCount this <=? gid then Raise InternalLogic
  else match gd_find gid (m_glyphDatas this) with
  | Some _ => Ok this
  | None =>
      let this0 := set_glyphDatas this (gd_put gid GlyphData_default (m_glyphDatas this)) in
      glyphData ← read_glyph_location this0 ctx gid;
      let this1 := set_glyphDatas this0 (gd_put gid glyphData (m_glyphDatas this0)) in
      contourCount ← ReadInt16BE (m_device this1) (GlyphOffset glyphData);
      if contourCount <? 0 then
        let glyphData' := set_IsCompound glyphData true in
        let this2 := set_glyphDatas this1 (gd_put gid glyphData' (m_glyphDatas this1)) in
        LoadCompound fuel this2 ctx glyphData' 0
      else Ok this1
  end.
Proof. reflexivity. Qed.

Lemma LoadCompound_S (fuel : nat) (this : Subset) (data : GlyphData) (offset : Z) :
  LoadCompound (S fuel) this ctx data offset =
  (cmpData ← ReadGlyphCompoundData (m_device this) (u32 (GlyphAdvOffset data + offset));
   this' ← LoadGID fuel this ctx (GlyphIndex cmpData);
   match TryAdvanceCompoundOffset offset (Flags cmpData) with
   | (false, _) => Ok this'
   | (true, offset') => LoadCompound fuel this' ctx data offset'
   end).
Proof. reflexivity. Qed.

(** More budget does not change a list of components once it is read. *)
Lemma component_gids_mono (dev : device) (adv : Z) (fuel fuel' : nat) (offset : Z) (cs : list Z) :
  component_gids fuel dev adv offset = Ok cs -> (fuel <= fuel')%nat ->
  component_gids fuel' dev adv offset = Ok cs.
Proof.
  revert fuel' offset cs. induction fuel as [|fuel IH]; intros fuel' offset cs H Hle;
    [discriminate|].
  destruct fuel' as [|fuel']; [lia|]. simpl in *.
  inv_bind H. rewrite Hx. simpl.
  destruct (TryAdvanceCompoundOffset offset (Flags x)) as [[|] offset']; [|exact H].
  inv_bind H. rewrite (IH fuel' offset' x0 Hx0) by lia. exact H.
Qed.

Lemma component_gids_det (dev : device) (adv : Z) (f1 f2 : nat) (offset : Z) (cs1 cs2 : list Z) :
  component_gids f1 dev adv offset = Ok cs1 ->
  component_gids f2 dev adv offset = Ok cs2 -> cs1 = cs2.
Proof.
  intros H1 H2.
  apply (component_gids_mono dev adv f1 (f1 + f2)) in H1; [|lia].
  apply (component_gids_mono dev adv f2 (f1 + f2)) in H2; [|lia].
  congruence.
Qed.

Lemma components_of_det (dev : device) (isLong : bool) (g : Z) (cs1 cs2 : list Z) :
  components_of dev isLong ctx g cs1 -> components_of dev isLong ctx g cs2 -> cs1 = cs2.
Proof.
  intros (gd1 & f1 & E1 & _ & H1) (gd2 & f2 & E2 & _ & H2).
  rewrite E1 in E2. injection E2 as <-. eapply component_gids_det; eassumption.
Qed.

Lemma closure_mono (dev : device) (isLong : bool) (roots roots' : list Z) (k : Z) :
  closure dev isLong ctx roots k -> (forall g, g ∈ roots -> closure dev isLong ctx roots' g) ->
  closure dev isLong ctx roots' k.
Proof.
  intros H Hroots. induction H as [g Hg|g c cs _ IH Hcs Hc].
  - auto.
  - eapply closure_component; eassumption.
Qed.

Lemma read_glyph_location_font (this : Subset) (gid : Z) :
  read_glyph_location this ctx gid
  = read_glyph_location (mkSubset (m_device this) (m_isLongLoca this) 0 0 [] [] []) ctx gid.
Proof. reflexivity. Qed.

Lemma read_glyph_location_simple (this : Subset) (gid : Z) (gd : GlyphData) :
  read_glyph_location this ctx gid = Ok gd -> IsCompound gd = false.
Proof.
  unfold read_glyph_location. destruct (m_isLongLoca this); intros H;
    inv_bind H; inv_bind H; injection H as <-; reflexivity.
Qed.

Lemma set_glyphDatas_twice (this : Subset) (a b : GlyphDatas) :
  set_glyphDatas (set_glyphDatas this a) b = set_glyphDatas this b.
Proof. reflexivity. Qed.

Lemma m_glyphDatas_set (this : Subset) (g : GlyphDatas) :
  m_glyphDatas (set_glyphDatas this g) = g.
Proof. reflexivity. Qed.

Lemma set_glyphDatas_same (this : Subset) : this = set_glyphDatas this (m_glyphDatas this).
Proof. destruct this; reflexivity. Qed.

Lemma extends_found (m m' : GlyphDatas) (k : Z) :
  extends m m' -> gd_find k m <> None -> gd_find k m' <> None.
Proof.
  intros Hext Hk. destruct (gd_find k m) as [gd|] eqn:E; [|congruence].
  rewrite (Hext k gd E). discriminate.
Qed.

(** The postconditions of [LoadGID] and [LoadCompound], together, by
    induction on the budget. *)
Lemma load_sound (fuel : nat) :
  (forall this gid this',
      LoadGID fuel this ctx gid = Ok this' ->
      entries_ok (m_device this) (m_isLongLoca this) ctx (m_glyphDatas this) ->
      LoadGID_post (m_device this) (m_isLongLoca this) ctx this gid this')
  /\ (forall this data offset this',
      LoadCompound fuel this ctx data offset = Ok this' ->
      entries_ok (m_device this) (m_isLongLoca this) ctx (m_glyphDatas this) ->
      LoadCompound_post (m_device this) (m_isLongLoca this) ctx fuel this data offset this').
Proof.
  induction fuel as [|fuel [IHg IHc]]; [split; intros; discriminate|].
  split.
  - (* LoadGID *)
    intros this gid this' H Hok. rewrite LoadGID_S in H.
    destruct (m_glyphCount this <=? gid); [discriminate|].
    destruct (gd_find gid (m_glyphDatas this)) as [gd0|] eqn:Efind.
    { injection H as <-. unfold LoadGID_post. repeat split.
      - apply set_glyphDatas_same.
      - apply Hok.
      - apply Hok.
      - intros k gd Hk. exact Hk.
      - rewrite Efind. discriminate.
      - intros k H1 H2. contradiction.
      - intros k gd H1 H2. congruence. }
    cbv zeta in H. inv_bind H. rename x into glyphData, Hx into Hloc.
    inv_bind H. rename x into contourCount, Hx into Hcount.
    rewrite !set_glyphDatas_twice in *. simpl m_glyphDatas in *. simpl m_device in *.
    rewrite read_glyph_location_font in Hloc. simpl in Hloc.
    pose proof (read_glyph_location_simple _ _ _ Hloc) as Hsimple.
    assert (Hentry : glyph_entry (m_device this) (m_isLongLoca this) ctx gid
                     = Ok (if contourCount <? 0 then set_IsCompound glyphData true
                           else glyphData)).
    { unfold glyph_entry. rewrite Hloc. simpl. rewrite Hcount. reflexivity. }
    destruct Hok as [Hsorted Hrec].
    destruct (contourCount <? 0) eqn:Ec.
    + (* a compound glyph *)
      apply IHc in H.
      2:{ simpl. split.
          - unfold Spec.gd_keys. repeat apply gd_put_sorted. exact Hsorted.
          - intros k gd. rewrite !gd_find_put.
            destruct (Z.eqb_spec gid k) as [<-|Hne]; [intros [= <-]; exact Hentry | apply Hrec]. }
      simpl in H. destruct H as (Hframe & Hok' & Hext & (cs & Hcs & Hin & Hreach) & Hloaded).
      rewrite m_glyphDatas_set in Hext, Hreach, Hloaded.
      rewrite set_glyphDatas_twice in Hframe.
      assert (Hcomp : components_of (m_device this) (m_isLongLoca this) ctx gid cs).
      { exists (set_IsCompound glyphData true), fuel. repeat split; assumption. }
      assert (Hput : forall k, gid <> k ->
                gd_find k (gd_put gid (set_IsCompound glyphData true)
                             (gd_put gid glyphData
                                (gd_put gid GlyphData_default (m_glyphDatas this))))
                = gd_find k (m_glyphDatas this)).
      { intros k Hne. rewrite !gd_find_put_ne by exact Hne. reflexivity. }
      unfold LoadGID_post. repeat split.
      * exact Hframe.
      * apply Hok'.
      * apply Hok'.
      * intros k gd Hk. apply Hext. rewrite Hput; [exact Hk | congruence].
      * eapply (extends_found _ _ gid Hext). rewrite gd_find_put_eq. discriminate.
      * intros k Hnew Hfound. destruct (Z.eq_dec gid k) as [<-|Hne].
        -- apply closure_root. left.
        -- destruct (Hreach k) as (c & Hc & Hclo); [rewrite Hput; assumption | exact Hfound |].
           eapply closure_mono; [exact Hclo|].
           intros g Hg. apply list_elem_of_singleton in Hg. subst g.
           eapply closure_component; [apply closure_root; left | exact Hcomp | exact Hc].
      * intros k gd Hnew Hfound Hcompound. destruct (Z.eq_dec gid k) as [<-|Hne].
        -- exists cs. split; [exact Hcomp | exact Hin].
        -- apply (Hloaded k gd); [rewrite Hput; assumption | exact Hfound | exact Hcompound].
    + (* a simple glyph *)
      injection H as <-. simpl.
      assert (Hput : forall k, gid <> k ->
                gd_find k (gd_put gid glyphData
                             (gd_put gid GlyphData_default (m_glyphDatas this)))
                = gd_find k (m_glyphDatas this)).
      { intros k Hne. rewrite !gd_find_put_ne by exact Hne. reflexivity. }
      unfold LoadGID_post. simpl. repeat split.
      * unfold Spec.gd_keys. repeat apply gd_put_sorted. exact Hsorted.
      * intros k gd. rewrite !gd_find_put.
        destruct (Z.eqb_spec gid k) as [<-|Hne]; [intros [= <-]; exact Hentry | apply Hrec].
      * intros k gd Hk. rewrite Hput; [exact Hk | congruence].
      * rewrite gd_find_put_eq. discriminate.
      * intros k Hnew Hfound. destruct (Z.eq_dec gid k) as [<-|Hne].
        -- apply closure_root. left.
        -- rewrite Hput in Hfound by exact Hne. contradiction.
      * intros k gd Hnew Hfound Hcompound. destruct (Z.eq_dec gid k) as [<-|Hne].
        -- rewrite gd_find_put_eq in Hfound. injection Hfound as <-. congruence.
        -- rewrite Hput in Hfound by exact Hne. congruence.
  - (* LoadCompound *)
    intros this data offset this' H Hok. rewrite LoadCompound_S in H.
    inv_bind H. rename x into cmpData, Hx into Hread.
    inv_bind H. rename x into this1, Hx into Hload.
    apply IHg in Hload; [|exact Hok].
    destruct Hload as (Hframe1 & Hok1 & Hext1 & Hfound1 & Hreach1 & Hloaded1).
    simpl component_gids. unfold LoadCompound_post.
    destruct (TryAdvanceCompoundOffset offset (Flags cmpData)) as [[|] offset'] eqn:Eadv.
    + (* more components *)
      apply IHc in H.
      2:{ rewrite Hframe1. simpl. exact Hok1. }
      rewrite Hframe1 in H. simpl m_device in H. simpl m_isLongLoca in H.
      rewrite <- Hframe1 in H.
      destruct H as (Hframe2 & Hok2 & Hext2 & (cs & Hcs & Hin & Hreach) & Hloaded2).
      repeat split.
      * rewrite Hframe2. rewrite Hframe1 at 1. reflexivity.
      * apply Hok2.
      * apply Hok2.
      * intros k gd Hk. apply Hext2, Hext1, Hk.
      * exists (GlyphIndex cmpData :: cs).
        split; [simpl; rewrite Hread; simpl; rewrite Eadv, Hcs; reflexivity|].
        split.
        -- intros c Hc. apply elem_of_cons in Hc. destruct Hc as [->|Hc]; [|auto].
           eapply extends_found; eassumption.
        -- intros k Hnew Hfound.
           destruct (gd_find k (m_glyphDatas this1)) as [gd1|] eqn:E1.
           ++ exists (GlyphIndex cmpData). split; [left|].
              apply Hreach1; [exact Hnew | congruence].
           ++ destruct (Hreach k E1 Hfound) as (c & Hc & Hclo).
              exists c. split; [right; exact Hc | exact Hclo].
      * intros k gd Hnew Hfound Hcompound.
        destruct (gd_find k (m_glyphDatas this1)) as [gd1|] eqn:E1.
        -- pose proof (Hext2 k gd1 E1) as E2. rewrite E2 in Hfound. injection Hfound as <-.
           destruct (Hloaded1 k gd1 Hnew E1 Hcompound) as (cs' & Hcs' & Hin').
           exists cs'. split; [exact Hcs'|]. intros c Hc.
           eapply extends_found; [exact Hext2 | auto].
        -- exact (Hloaded2 k gd E1 Hfound Hcompound).
    + (* the last component *)
      injection H as <-. repeat split.
      * exact Hframe1.
      * apply Hok1.
      * apply Hok1.
      * exact Hext1.
      * exists [GlyphIndex cmpData].
        split; [simpl; rewrite Hread; simpl; rewrite Eadv; reflexivity|].
        split.
        -- intros c Hc. apply list_elem_of_singleton in Hc. subst c. exact Hfound1.
        -- intros k Hnew Hfound. exists (GlyphIndex cmpData). split; [left | auto].
      * exact Hloaded1.
Qed.


(** One call from [LoadGlyphs] keeps the map closed, for one more root. *)
Lemma LoadGID_closed (fuel : nat) (this this' : Subset) (roots : list Z) (gid : Z) :
  loaded_closed (m_device this) (m_isLongLoca this) ctx roots (m_glyphDatas this) ->
  LoadGID fuel this ctx gid = Ok this' ->
  this' = set_glyphDatas this (m_glyphDatas this')
  /\ loaded_closed (m_device this) (m_isLongLoca this) ctx (roots ++ [gid]) (m_glyphDatas this').
Proof.
  intros (Hok & Hcomp & Hreach & Hroots) H.
  destruct (proj1 (load_sound fuel) this gid this' H Hok)
    as (Hframe & Hok' & Hext & Hfound & Hnew & Hloaded).
  split; [exact Hframe|]. repeat split.
  - apply Hok'.
  - apply Hok'.
  - intros k gd Hk Hcompound.
    destruct (gd_find k (m_glyphDatas this)) as [gd0|] eqn:E0.
    + pose proof (Hext k gd0 E0) as E1. rewrite E1 in Hk. injection Hk as <-.
      destruct (Hcomp k gd0 E0 Hcompound) as (cs & Hcs & Hin).
      exists cs. split; [exact Hcs|]. intros c Hc.
      eapply extends_found; [exact Hext | auto].
    + exact (Hloaded k gd E0 Hk Hcompound).
  - intros k Hk. destruct (gd_find k (m_glyphDatas this)) as [gd0|] eqn:E0.
    + eapply closure_mono; [apply Hreach; congruence|].
      intros g Hg. apply closure_root. apply elem_of_app. now left.
    + eapply closure_mono; [exact (Hnew k E0 Hk)|].
      intros g Hg. apply closure_root. apply elem_of_app. now right.
  - intros g Hg. apply elem_of_app in Hg. destruct Hg as [Hg|Hg].
    + eapply extends_found; [exact Hext | auto].
    + apply list_elem_of_singleton in Hg. subst g. exact Hfound.
Qed.

Lemma LoadGIDs_closed (fuel : nat) (gids : list Z) (this this' : Subset) (roots : list Z) :
  loaded_closed (m_device this) (m_isLongLoca this) ctx roots (m_glyphDatas this) ->
  LoadGIDs fuel this ctx gids = Ok this' ->
  this' = set_glyphDatas this (m_glyphDatas this')
  /\ loaded_closed (m_device this) (m_isLongLoca this) ctx (roots ++ gids) (m_glyphDatas this').
Proof.
  revert this roots. induction gids as [|gid gids IH]; intros this roots Hclosed H; simpl in H.
  - injection H as <-. rewrite app_nil_r. split; [apply set_glyphDatas_same | exact Hclosed].
  - inv_bind H. rename x into this1.
    destruct (LoadGID_closed fuel this this1 roots gid Hclosed Hx) as (Hframe1 & Hclosed1).
    destruct (IH this1 (roots ++ [gid])) as (Hframe2 & Hclosed2).
    + rewrite Hframe1. simpl. exact Hclosed1.
    + exact H.
    + split.
      * rewrite Hframe2. rewrite Hframe1 at 1. reflexivity.
      * rewrite Hframe1 in Hclosed2. simpl in Hclosed2.
        rewrite <- app_assoc in Hclosed2. exact Hclosed2.
Qed.

(** A closed map holds the transitive closure of its roots, no more and no
    less. *)
Lemma loaded_closed_is_closure (dev : device) (isLong : bool) (roots : list Z)
    (m : GlyphDatas) (k : Z) :
  loaded_closed dev isLong ctx roots m ->
  (k ∈ gd_keys m <-> closure dev isLong ctx roots k).
Proof.
  intros (Hok & Hcomp & Hreach & Hroots). rewrite gd_find_keys. split; [apply Hreach|].
  induction 1 as [g Hg|g c cs _ IH Hcs Hc]; [auto|].
  destruct (gd_find g m) as [gd|] eqn:E; [|congruence].
  destruct Hcs as (gd' & f & Hentry & Hcompound & Hgids).
  rewrite (proj2 Hok g gd E) in Hentry. injection Hentry as <-.
  destruct (Hcomp g gd E Hcompound) as (cs' & Hcs' & Hin).
  assert (cs' = cs) as ->; [|auto].
  eapply components_of_det; [exact Hcs'|].
  exists gd, f. repeat split; try assumption. exact (proj2 Hok g gd E).
Qed.

End Loading.

Section Numbering.
Import TrueTypeSubset Spec.

Lemma number_fresh_app (seen cs ds : list Z) :
  number_fresh seen (cs ++ ds)
  = number_fresh seen cs ++ number_fresh (seen ++ number_fresh seen cs) ds.
Proof.
  revert seen. induction cs as [|c cs IH]; intros seen; simpl.
  - rewrite app_nil_r. reflexivity.
  - destruct (bool_decide (c ∈ seen)); [apply IH|].
    simpl. rewrite IH. rewrite <- app_assoc. reflexivity.
Qed.

Lemma number_fresh_elem (seen cs : list Z) (x : Z) :
  x ∈ seen ++ number_fresh seen cs <-> x ∈ seen \/ x ∈ cs.
Proof.
  revert seen. induction cs as [|c cs IH]; intros seen; simpl.
  - rewrite app_nil_r, elem_of_nil. tauto.
  - destruct (bool_decide_reflect (c ∈ seen)) as [Hc|Hc].
    + rewrite IH, elem_of_cons. split; [tauto|]. intros [?|[->|?]]; tauto.
    + change (c :: number_fresh (seen ++ [c]) cs)
        with ([c] ++ number_fresh (seen ++ [c]) cs).
      rewrite app_assoc, IH, elem_of_app, list_elem_of_singleton, elem_of_cons. tauto.
Qed.

(** The second loop of [LoadGlyphs]: every entry of the list is appended;
    the map grows only for an entry that is new. *)
Lemma number_gids_spec (gids : list Z) (glyphIndexMap : gmap Z Z) (ordered seen : list Z) :
  (dom glyphIndexMap : gset Z) = list_to_set seen ->
  let '(glyphIndexMap', ordered') := number_gids gids glyphIndexMap ordered in
  ordered' = ordered ++ gids
  /\ (dom glyphIndexMap' : gset Z) = list_to_set (seen ++ gids)
  /\ (repeated_entries seen gids + size glyphIndexMap' = size glyphIndexMap + length gids)%nat.
Proof.
  revert glyphIndexMap ordered seen.
  induction gids as [|gid gids IH]; intros glyphIndexMap ordered seen Hdom; simpl.
  - rewrite !app_nil_r. repeat split; [exact Hdom | lia].
  - set (map1 := match glyphIndexMap !! gid with
                 | Some _ => glyphIndexMap
                 | None => <[gid:=Z.of_nat (size glyphIndexMap)]> glyphIndexMap
                 end).
    assert (Hdom1 : (dom map1 : gset Z) = list_to_set (seen ++ [gid])).
    { rewrite list_to_set_app_L, <- Hdom. simpl. subst map1.
      destruct (glyphIndexMap !! gid) as [a|] eqn:E.
      - assert (Hin : gid ∈ (dom glyphIndexMap : gset Z)) by (apply elem_of_dom; eauto).
        rewrite union_empty_r_L. apply set_eq. intros x.
        rewrite elem_of_union, elem_of_singleton. split; [tauto|].
        intros [Hx|Hx]; [exact Hx | subst x; exact Hin].
      - rewrite dom_insert_L, union_empty_r_L. apply union_comm_L. }
    assert (Hsize1 : (size map1 + (if bool_decide (gid ∈ seen) then 1 else 0)
                      = S (size glyphIndexMap))%nat).
    { subst map1. destruct (glyphIndexMap !! gid) as [a|] eqn:E.
      - rewrite bool_decide_eq_true_2; [lia|].
        apply (elem_of_list_to_set (C := gset Z)). rewrite <- Hdom. apply elem_of_dom. eauto.
      - rewrite bool_decide_eq_false_2.
        + rewrite map_size_insert_None by exact E. lia.
        + intros Hin. apply (elem_of_list_to_set (C := gset Z)) in Hin.
          rewrite <- Hdom in Hin. apply elem_of_dom in Hin. rewrite E in Hin.
          destruct Hin; discriminate. }
    specialize (IH map1 (ordered ++ [gid]) (seen ++ [gid]) Hdom1).
    destruct (number_gids gids map1 (ordered ++ [gid])) as [map' ordered'].
    destruct IH as (Hord & Hdom' & Hcount).
    rewrite <- !app_assoc in *. simpl in *. repeat split; [exact Hord | exact Hdom' | lia].
Qed.

(** The loop over the components of one compound glyph numbers those that
    have no number yet, in the order of the records. *)
Lemma remap_components_spec (fuel : nat) (dev : device) :
  forall (glyphData : GlyphData) (offset : Z) (glyphIndexMap : gmap Z Z) (ordered : list Z)
         (glyphData' : GlyphData) (glyphIndexMap' : gmap Z Z) (ordered' : list Z),
  remap_components fuel dev glyphData offset glyphIndexMap ordered
    = Ok (glyphData', glyphIndexMap', ordered') ->
  (dom glyphIndexMap : gset Z) = list_to_set ordered ->
  exists cs,
    component_gids fuel dev (GlyphAdvOffset glyphData) offset = Ok cs
    /\ ordered' = ordered ++ number_fresh ordered cs
    /\ (dom glyphIndexMap' : gset Z) = list_to_set ordered'
    /\ (length ordered' + size glyphIndexMap = length ordered + size glyphIndexMap')%nat
    /\ IsCompound glyphData' = IsCompound glyphData
    /\ GlyphAdvOffset glyphData' = GlyphAdvOffset glyphData.
Proof.
  induction fuel as [|fuel IH]; intros gd offset gim ord gd' gim' ord' H Hdom;
    [discriminate|].
  simpl in H. inv_bind H. rename x into cmpData, Hx into Hread.
  simpl component_gids. rewrite Hread. simpl.
  set (gi := GlyphIndex cmpData) in *.
  assert (Hstep : exists map1 ord1 assigned,
             (match gim !! gi with
              | Some assigned => (gim, ord, assigned)
              | None => (<[gi:=Z.of_nat (size gim)]> gim, ord ++ [gi], Z.of_nat (size gim))
              end) = (map1, ord1, assigned)
             /\ ord1 = ord ++ number_fresh ord [gi]
             /\ (dom map1 : gset Z) = list_to_set ord1
             /\ (length ord1 + size gim = length ord + size map1)%nat
             /\ (forall rest, number_fresh ord (gi :: rest)
                              = number_fresh ord [gi] ++ number_fresh ord1 rest)).
  { destruct (gim !! gi) as [a|] eqn:E.
    - assert (Hin : gi ∈ ord).
      { apply (elem_of_list_to_set (C := gset Z)). rewrite <- Hdom. apply elem_of_dom. eauto. }
      exists gim, ord, a. simpl. rewrite bool_decide_eq_true_2 by exact Hin.
      rewrite app_nil_r. repeat split; try exact Hdom; lia.
    - assert (Hin : gi ∉ ord).
      { intros Hin. apply (elem_of_list_to_set (C := gset Z)) in Hin.
        rewrite <- Hdom in Hin. apply elem_of_dom in Hin. rewrite E in Hin.
        destruct Hin; discriminate. }
      exists (<[gi:=Z.of_nat (size gim)]> gim), (ord ++ [gi]), (Z.of_nat (size gim)).
      simpl. rewrite bool_decide_eq_false_2 by exact Hin. repeat split.
      + rewrite dom_insert_L, list_to_set_app_L, Hdom. simpl.
        rewrite union_empty_r_L. apply union_comm_L.
      + rewrite length_app, map_size_insert_None by exact E. simpl. lia. }
  destruct Hstep as (map1 & ord1 & assigned & Estep & Hord1 & Hdom1 & Hcount1 & Hfresh).
  rewrite Estep in H.
  destruct (TryAdvanceCompoundOffset offset (Flags cmpData)) as [[|] offset'] eqn:Eadv.
  - apply IH in H; [|exact Hdom1].
    destruct H as (cs & Hcs & Hord & Hdom' & Hcount & Hcompound & Hadv).
    simpl in Hcs, Hcompound, Hadv. rewrite Hcs. simpl.
    exists (gi :: cs). repeat split; try assumption.
    + rewrite Hfresh, app_assoc, <- Hord1. exact Hord.
    + lia.
  - injection H as <- <- <-. exists [gi]. repeat split; assumption.
Qed.

(** The same for the loop over the loaded glyphs. *)
Lemma remap_glyphs_spec (fuel : nat) (dev : device) :
  forall (entries : GlyphDatas) (glyphIndexMap : gmap Z Z) (ordered : list Z)
         (entries' : GlyphDatas) (glyphIndexMap' : gmap Z Z) (ordered' : list Z),
  remap_glyphs fuel dev entries glyphIndexMap ordered
    = Ok (entries', glyphIndexMap', ordered') ->
  (dom glyphIndexMap : gset Z) = list_to_set ordered ->
  exists ds,
    discovered fuel dev entries = Ok ds
    /\ ordered' = ordered ++ number_fresh ordered ds
    /\ (dom glyphIndexMap' : gset Z) = list_to_set ordered'
    /\ (length ordered' + size glyphIndexMap = length ordered + size glyphIndexMap')%nat
    /\ Forall2 (fun e e' => fst e' = fst e
                            /\ IsCompound (snd e') = IsCompound (snd e)
                            /\ GlyphAdvOffset (snd e') = GlyphAdvOffset (snd e))
               entries entries'.
Proof.
  induction entries as [|[gid gd] entries IH]; intros gim ord entries' gim' ord' H Hdom;
    simpl in H.
  - injection H as <- <- <-. exists []. simpl. rewrite app_nil_r.
    repeat split; [exact Hdom | constructor].
  - inv_bind H. destruct x as [[gd1 map1] ord1].
    inv_bind H. destruct x as [[rest' map2] ord2]. injection H as <- <- <-.
    assert (Hone : exists cs,
               (if IsCompound gd then component_gids fuel dev (GlyphAdvOffset gd) 0
                else Ok []) = Ok cs
               /\ ord1 = ord ++ number_fresh ord cs
               /\ (dom map1 : gset Z) = list_to_set ord1
               /\ (length ord1 + size gim = length ord + size map1)%nat
               /\ IsCompound gd1 = IsCompound gd
               /\ GlyphAdvOffset gd1 = GlyphAdvOffset gd).
    { destruct (IsCompound gd) eqn:Ec.
      - destruct (remap_components_spec fuel dev _ _ _ _ _ _ _ Hx Hdom)
          as (cs & ? & ? & ? & ? & Hc & ?).
        rewrite Ec in Hc. exists cs. repeat split; assumption.
      - injection Hx as <- <- <-. exists []. simpl. rewrite app_nil_r.
        repeat split; try exact Hdom; try exact Ec; lia. }
    destruct Hone as (cs & Hcs & Hord1 & Hdom1 & Hcount1 & Hcompound & Hadv).
    destruct (IH map1 ord1 rest' map2 ord2 Hx0 Hdom1)
      as (ds & Hds & Hord2 & Hdom2 & Hcount2 & Hsame).
    exists (cs ++ ds). simpl. rewrite Hcs. simpl. rewrite Hds. simpl.
    repeat split.
    + rewrite number_fresh_app, app_assoc, <- Hord1. exact Hord2.
    + exact Hdom2.
    + lia.
    + constructor; [simpl; auto | exact Hsame].
Qed.

(** The pass over the glyphs does not depend on what the remapping has
    recorded. *)
Lemma discovered_same (fuel : nat) (dev : device) (entries entries' : GlyphDatas) :
  Forall2 (fun e e' => fst e' = fst e
                       /\ IsCompound (snd e') = IsCompound (snd e)
                       /\ GlyphAdvOffset (snd e') = GlyphAdvOffset (snd e))
          entries entries' ->
  discovered fuel dev entries' = discovered fuel dev entries
  /\ gd_keys entries' = gd_keys entries
  /\ length entries' = length entries.
Proof.
  induction 1 as [|[k gd] [k' gd'] l l' (Hk & Hc & Ha) _ (IH1 & IH2 & IH3)]; simpl in *.
  - auto.
  - subst k'. rewrite Hc, Ha, IH1, IH2, IH3. auto.
Qed.

Lemma discovered_elem (fuel : nat) (dev : device) (entries : GlyphDatas) (ds : list Z) :
  discovered fuel dev entries = Ok ds ->
  forall d, d ∈ ds <->
            exists k gd cs, (k, gd) ∈ entries /\ IsCompound gd = true
                            /\ component_gids fuel dev (GlyphAdvOffset gd) 0 = Ok cs
                            /\ d ∈ cs.
Proof.
  revert ds. induction entries as [|[k gd] entries IH]; intros ds H d; simpl in H.
  - injection H as <-. split; [inversion 1|].
    intros (k & gd & cs & Hin & _). inversion Hin.
  - inv_bind H. rename x into cs. inv_bind H. rename x into ds0. injection H as <-.
    rewrite elem_of_app, (IH ds0 Hx0 d). split.
    + intros [Hd|(k' & gd' & cs' & Hin & Hrest)].
      * destruct (IsCompound gd) eqn:Ec.
        -- exists k, gd, cs. repeat split; [left | assumption..].
        -- injection Hx as <-. inversion Hd.
      * exists k', gd', cs'. split; [right; exact Hin | exact Hrest].
    + intros (k' & gd' & cs' & Hin & Hc & Hcs & Hd).
      apply elem_of_cons in Hin. destruct Hin as [[= -> ->]|Hin].
      * left. rewrite Hc in Hx. congruence.
      * right. exists k', gd', cs'. repeat split; assumption.
Qed.

End Numbering.

Section LoadGlyphsSpec.
Import TrueTypeSubset Spec.

Variable ctx : GlyphContext.

Lemma discovered_entry (fuel : nat) (dev : device) (entries : GlyphDatas) (ds : list Z)
    (k : Z) (gd : GlyphData) :
  discovered fuel dev entries = Ok ds -> (k, gd) ∈ entries -> IsCompound gd = true ->
  exists cs, component_gids fuel dev (GlyphAdvOffset gd) 0 = Ok cs.
Proof.
  revert ds. induction entries as [|[k0 gd0] entries IH]; intros ds H Hin Hc; simpl in H.
  - inversion Hin.
  - inv_bind H. inv_bind H.
    apply elem_of_cons in Hin. destruct Hin as [[= -> ->]|Hin].
    + rewrite Hc in Hx. eauto.
    + eapply IH; eassumption.
Qed.

Lemma loaded_closed_nil (dev : device) (isLong : bool) :
  loaded_closed dev isLong ctx [] [].
Proof.
  repeat split.
  - constructor.
  - intros k gd H. discriminate.
  - intros k gd H. discriminate.
  - intros k H. simpl in H. congruence.
  - intros g H. inversion H.
Qed.

Lemma m_orderedGIDs_set_glyphDatas (this : Subset) (g : GlyphDatas) :
  m_orderedGIDs (set_glyphDatas this g) = m_orderedGIDs this.
Proof. reflexivity. Qed.

(** In a closed map, the components that a pass over the map meets are
    glyphs of the map, and every glyph of the map is a root or one of these
    components. *)
Lemma closed_keys_are_roots_or_discovered (fuel : nat) (dev : device) (isLong : bool)
    (roots : list Z) (m : GlyphDatas) (ds : list Z) (x : Z) :
  loaded_closed dev isLong ctx roots m ->
  discovered fuel dev m = Ok ds ->
  (x ∈ gd_keys m <-> x ∈ roots \/ x ∈ ds).
Proof.
  intros Hclosed Hds.
  pose proof Hclosed as (Hok & Hcomp & Hreach & Hroots).
  pose proof (sorted_keys_NoDup m (proj1 Hok)) as Hnodup.
  split.
  - intros Hx. apply (loaded_closed_is_closure ctx dev isLong roots m x Hclosed) in Hx.
    destruct Hx as [g Hg|g c cs Hclo Hcs Hc]; [now left|]. right.
    apply (loaded_closed_is_closure ctx dev isLong roots m g Hclosed) in Hclo.
    apply gd_find_keys in Hclo.
    destruct (gd_find g m) as [gd|] eqn:E; [|congruence].
    pose proof Hcs as (gd' & f & Hentry & Hcompound & Hgids).
    rewrite (proj2 Hok g gd E) in Hentry. injection Hentry as <-.
    destruct (discovered_entry fuel dev m ds g gd Hds (gd_find_Some_elem g gd m E) Hcompound)
      as (cs' & Hcs').
    assert (cs' = cs) as -> by (eapply component_gids_det; eassumption).
    apply (discovered_elem fuel dev m ds Hds c).
    exists g, gd, cs. repeat split; try assumption.
    apply gd_find_Some_elem. exact E.
  - intros [Hx|Hx].
    + apply gd_find_keys. auto.
    + apply (discovered_elem fuel dev m ds Hds x) in Hx.
      destruct Hx as (k & gd & cs & Hin & Hcompound & Hcs & Hx).
      pose proof (gd_find_elem k gd m Hnodup Hin) as E.
      destruct (Hcomp k gd E Hcompound) as (cs' & Hcs' & Hall).
      assert (cs' = cs) as ->.
      { eapply components_of_det; [exact Hcs'|].
        exists gd, fuel. repeat split; try assumption. exact (proj2 Hok k gd E). }
      apply gd_find_keys. auto.
Qed.

(** What [LoadGlyphs] leaves behind, on a subsetter that has loaded nothing
    yet. *)
Lemma LoadGlyphs_spec (fuel : nat) (this : Subset) (gidList : list Z)
    (s : Subset) (glyphIndexMap : gmap Z Z) :
  LoadGlyphs fuel this ctx gidList = Ok (s, glyphIndexMap) ->
  m_glyphDatas this = [] -> m_orderedGIDs this = [] ->
  exists ds,
    discovered fuel (m_device this) (m_glyphDatas s) = Ok ds
    /\ m_orderedGIDs s = 0 :: gidList ++ number_fresh (0 :: gidList) ds
    /\ (length (m_orderedGIDs s) = size glyphIndexMap + repeated_entries [0%Z] gidList)%nat
    /\ size glyphIndexMap = length (m_glyphDatas s)
    /\ StronglySorted Z.lt (gd_keys (m_glyphDatas s))
    /\ (forall k, k ∈ gd_keys (m_glyphDatas s)
                  <-> closure (m_device this) (m_isLongLoca this) ctx (0 :: gidList) k)
    /\ (forall g, g ∈ m_orderedGIDs s -> g ∈ gd_keys (m_glyphDatas s)).
Proof.
  intros H Hempty Hnone. unfold LoadGlyphs in H.
  inv_bind H. rename x into this0, Hx into Hload0.
  inv_bind H. rename x into this1, Hx into Hload1.
  assert (Hclosed : loaded_closed (m_device this) (m_isLongLoca this) ctx []
                                  (m_glyphDatas this))
    by (rewrite Hempty; apply loaded_closed_nil).
  destruct (LoadGID_closed ctx fuel this this0 [] 0 Hclosed Hload0) as (Hframe0 & Hclosed0).
  destruct (LoadGIDs_closed ctx fuel gidList this0 this1 ([] ++ [0])) as (Hframe1 & Hclosed1);
    [rewrite Hframe0; simpl; exact Hclosed0 | exact Hload1 |].
  rewrite Hframe0 in Hclosed1. simpl in Hclosed1.
  assert (Hord1 : m_orderedGIDs this1 = []).
  { rewrite Hframe1, m_orderedGIDs_set_glyphDatas, Hframe0, m_orderedGIDs_set_glyphDatas.
    exact Hnone. }
  assert (Hdev1 : m_device this1 = m_device this).
  { rewrite Hframe1. simpl. rewrite Hframe0. reflexivity. }
  rewrite Hord1, Hdev1 in H. simpl app in H.
  assert (Hdom0 : (dom (<[0:=0]> (∅ : gmap Z Z)) : gset Z) = list_to_set [0]).
  { rewrite dom_insert_L, dom_empty_L. reflexivity. }
  pose proof (number_gids_spec gidList (<[0:=0]> ∅) [0] [0] Hdom0) as Hnum.
  destruct (number_gids gidList (<[0:=0]> ∅) [0]) as [map2 ord2].
  destruct Hnum as (Hord2 & Hdom2 & Hcount2).
  rewrite map_size_insert_None, map_size_empty in Hcount2 by apply lookup_empty.
  inv_bind H. destruct x as [[entries' map'] ord']. injection H as <- <-.
  destruct (remap_glyphs_spec fuel (m_device this) _ _ _ _ _ _ Hx)
    as (ds & Hds & Hord' & Hdom' & Hcount' & Hsame).
  { rewrite Hdom2, Hord2. reflexivity. }
  destruct (discovered_same fuel (m_device this) _ _ Hsame) as (Hds' & Hkeys' & Hlen').
  simpl m_glyphDatas. simpl m_orderedGIDs.
  pose proof (sorted_keys_NoDup _ (proj1 (proj1 Hclosed1))) as Hnodup.
  exists ds. rewrite Hds', Hkeys', Hlen'. repeat split.
  - exact Hds.
  - rewrite Hord', Hord2. reflexivity.
  - rewrite Hord2 in Hcount'. simpl in Hcount'. lia.
  - rewrite <- (size_dom (D := gset Z)), Hdom'.
    assert (Hset : (list_to_set ord' : gset Z) = list_to_set (gd_keys (m_glyphDatas this1))).
    { apply set_eq. intros x. rewrite !elem_of_list_to_set.
      rewrite (closed_keys_are_roots_or_discovered fuel _ _ _ _ ds x Hclosed1 Hds).
      rewrite Hord'. rewrite number_fresh_elem. rewrite Hord2. reflexivity. }
    rewrite Hset, size_list_to_set by exact Hnodup.
    unfold gd_keys. rewrite length_map. reflexivity.
  - exact (proj1 (proj1 Hclosed1)).
  - apply (loaded_closed_is_closure ctx _ _ _ _ k Hclosed1).
  - apply (loaded_closed_is_closure ctx _ _ _ _ k Hclosed1).
  - intros g Hg.
    apply (closed_keys_are_roots_or_discovered fuel _ _ _ _ ds g Hclosed1 Hds).
    rewrite Hord', number_fresh_elem, Hord2 in Hg. exact Hg.
Qed.

End LoadGlyphsSpec.

(** ** The budget does not matter

    A call that comes to an end within some budget, with a result or with
    an error, does the same within any larger budget. *)

(** Closes a case in which the call ran out of budget. *)
Ltac out_of_budget :=
  exfalso;
  match goal with
  | Hr : ?r <> OutOfFuel, H : OutOfFuel = ?r |- _ => apply Hr; symmetry; exact H
  | Hr : ?r <> OutOfFuel, H : ?r = OutOfFuel |- _ => apply Hr; exact H
  end.

Section Budget.
Import TrueTypeSubset Spec.

Variable ctx : GlyphContext.

Lemma load_mono (fuel : nat) :
  (forall this gid r fuel',
      LoadGID fuel this ctx gid = r -> r <> OutOfFuel -> (fuel <= fuel')%nat ->
      LoadGID fuel' this ctx gid = r)
  /\ (forall this data offset r fuel',
      LoadCompound fuel this ctx data offset = r -> r <> OutOfFuel -> (fuel <= fuel')%nat ->
      LoadCompound fuel' this ctx data offset = r).
Proof.
  induction fuel as [|fuel [IHg IHc]].
  { split; intros; simpl in *; out_of_budget. }
  split.
  - intros this gid r fuel' H Hr Hle. destruct fuel' as [|fuel']; [lia|].
    rewrite LoadGID_S in *.
    destruct (m_glyphCount this <=? gid); [exact H|].
    destruct (gd_find gid (m_glyphDatas this)); [exact H|]. cbv zeta in *.
    destruct (read_glyph_location _ ctx gid) as [glyphData| | |]; simpl in *; try exact H.
    destruct (ReadInt16BE (m_device this) (GlyphOffset glyphData)) as [contourCount| | |];
      simpl in *; try exact H.
    destruct (contourCount <? 0); [|exact H].
    apply IHc; [exact H | exact Hr | lia].
  - intros this data offset r fuel' H Hr Hle. destruct fuel' as [|fuel']; [lia|].
    rewrite LoadCompound_S in *.
    destruct (ReadGlyphCompoundData _ _) as [cmpData| | |]; simpl in *; try exact H.
    destruct (LoadGID fuel this ctx (GlyphIndex cmpData)) as [this1|e| |] eqn:E1;
      simpl in H.
    + rewrite (IHg _ _ _ fuel' E1) by (discriminate || lia). simpl.
      destruct (TryAdvanceCompoundOffset offset (Flags cmpData)) as [[|] offset'];
        [|exact H].
      apply IHc; [exact H | exact Hr | lia].
    + rewrite (IHg _ _ _ fuel' E1) by (discriminate || lia). exact H.
    + rewrite (IHg _ _ _ fuel' E1) by (discriminate || lia). exact H.
    + out_of_budget.
Qed.

Lemma LoadGIDs_mono (fuel fuel' : nat) (gids : list Z) :
  forall this r,
    LoadGIDs fuel this ctx gids = r -> r <> OutOfFuel -> (fuel <= fuel')%nat ->
    LoadGIDs fuel' this ctx gids = r.
Proof.
  induction gids as [|gid gids IH]; intros this r H Hr Hle; simpl in *; [exact H|].
  destruct (LoadGID fuel this ctx gid) as [this1|e| |] eqn:E1; simpl in H.
  - rewrite (proj1 (load_mono fuel) _ _ _ fuel' E1) by (discriminate || lia). simpl.
    apply IH; assumption.
  - rewrite (proj1 (load_mono fuel) _ _ _ fuel' E1) by (discriminate || lia). exact H.
  - rewrite (proj1 (load_mono fuel) _ _ _ fuel' E1) by (discriminate || lia). exact H.
  - out_of_budget.
Qed.

Lemma remap_components_mono (dev : device) (fuel : nat) :
  forall fuel' glyphData offset glyphIndexMap ordered r,
    remap_components fuel dev glyphData offset glyphIndexMap ordered = r ->
    r <> OutOfFuel -> (fuel <= fuel')%nat ->
    remap_components fuel' dev glyphData offset glyphIndexMap ordered = r.
Proof.
  induction fuel as [|fuel IH]; intros fuel' gd offset gim ord r H Hr Hle;
    [simpl in H; out_of_budget|].
  destruct fuel' as [|fuel']; [lia|]. simpl in *.
  destruct (ReadGlyphCompoundData _ _) as [cmpData| | |]; simpl in *; try exact H.
  destruct (gim !! GlyphIndex cmpData);
    (destruct (TryAdvanceCompoundOffset offset (Flags cmpData)) as [[|] offset'];
     [apply IH; [exact H | exact Hr | lia] | exact H]).
Qed.

Lemma remap_glyphs_mono (dev : device) (fuel fuel' : nat) (entries : GlyphDatas) :
  forall glyphIndexMap ordered r,
    remap_glyphs fuel dev entries glyphIndexMap ordered = r ->
    r <> OutOfFuel -> (fuel <= fuel')%nat ->
    remap_glyphs fuel' dev entries glyphIndexMap ordered = r.
Proof.
  induction entries as [|[gid gd] entries IH]; intros gim ord r H Hr Hle; simpl in *;
    [exact H|].
  assert (Hstep : forall r1,
             (if IsCompound gd then remap_components fuel dev gd 0 gim ord
              else Ok (gd, gim, ord)) = r1 ->
             r1 <> OutOfFuel ->
             (if IsCompound gd then remap_components fuel' dev gd 0 gim ord
              else Ok (gd, gim, ord)) = r1).
  { intros r1 H1 Hr1. destruct (IsCompound gd); [|exact H1].
    eapply remap_components_mono; eassumption. }
  destruct (if IsCompound gd then remap_components fuel dev gd 0 gim ord
            else Ok (gd, gim, ord)) as [[[gd1 map1] ord1]|e| |] eqn:E1; simpl in H.
  - rewrite (Hstep _ eq_refl) by discriminate. simpl.
    destruct (remap_glyphs fuel dev entries map1 ord1) as [[[rest' map2] ord2]|e| |] eqn:E2;
      simpl in H.
    + rewrite (IH _ _ _ E2) by (discriminate || lia). exact H.
    + rewrite (IH _ _ _ E2) by (discriminate || lia). exact H.
    + rewrite (IH _ _ _ E2) by (discriminate || lia). exact H.
    + out_of_budget.
  - rewrite (Hstep _ eq_refl) by discriminate. exact H.
  - rewrite (Hstep _ eq_refl) by discriminate. exact H.
  - out_of_budget.
Qed.

(** [LoadGlyphs] with more budget. *)
Lemma LoadGlyphs_mono (fuel fuel' : nat) (this : Subset) (gidList : list Z)
    (r : outcome (Subset * gmap Z Z)) :
  LoadGlyphs fuel this ctx gidList = r -> r <> OutOfFuel -> (fuel <= fuel')%nat ->
  LoadGlyphs fuel' this ctx gidList = r.
Proof.
  intros H Hr Hle. unfold LoadGlyphs in *.
  destruct (LoadGID fuel this ctx 0) as [this0|e| |] eqn:E0; simpl in H;
    try (rewrite (proj1 (load_mono fuel) _ _ _ fuel' E0) by (discriminate || lia));
    try exact H; [|out_of_budget]. simpl.
  destruct (LoadGIDs fuel this0 ctx gidList) as [this1|e| |] eqn:E1; simpl in H;
    try (rewrite (LoadGIDs_mono fuel fuel' _ _ _ E1) by (discriminate || lia));
    try exact H; [|out_of_budget]. simpl.
  destruct (number_gids gidList (<[0:=0]> ∅) (m_orderedGIDs this1 ++ [0])) as [map2 ord2].
  destruct (remap_glyphs fuel (m_device this1) (m_glyphDatas this1) map2 ord2)
    as [[[gds map3] ord3]|e| |] eqn:E2; simpl in H;
    try (rewrite (remap_glyphs_mono _ fuel fuel' _ _ _ _ E2) by (discriminate || lia));
    try exact H. out_of_budget.
Qed.

End Budget.

(** ** The loader comes to an end

    On a font program that is shorter than 4 GiB, the component records of
    a glyph are read at increasing positions, and every glyph is loaded at
    most once. *)

Section Termination.
Import TrueTypeSubset Spec.

Variable ctx : GlyphContext.

Lemma be_combine_nonneg (bs : list byte) : 0 <= be_combine bs.
Proof.
  unfold be_combine.
  assert (H : forall acc, 0 <= acc ->
                0 <= fold_left (fun acc b => acc * 256 + Z_of_byte b) bs acc).
  { induction bs as [|b bs IH]; intros acc Hacc; simpl; [exact Hacc|].
    apply IH. pose proof (Z_of_byte_range b). lia. }
  apply H. lia.
Qed.

Lemma ReadGlyphCompoundData_inside (dev : device) (p : Z) (cmpData : GlyphCompoundData) :
  ReadGlyphCompoundData dev p = Ok cmpData ->
  0 <= p /\ p + 4 <= Z.of_nat (length dev) /\ 0 <= GlyphIndex cmpData.
Proof.
  unfold ReadGlyphCompoundData, ReadUInt16BE. intros H.
  inv_bind H. inv_bind Hx. inv_bind H. inv_bind Hx1. injection H as <-.
  injection Hx as <-. injection Hx1 as <-. simpl.
  unfold Read in Hx0, Hx2.
  destruct (_ && _) eqn:E0 in Hx0; [|discriminate].
  destruct (_ && _) eqn:E2 in Hx2; [|discriminate].
  apply andb_true_iff in E0, E2. destruct E0 as [E0 _], E2 as [_ E2].
  apply andb_true_iff in E0. destruct E0 as [E0 _].
  apply Z.leb_le in E0, E2. repeat split; [lia | lia | apply be_combine_nonneg].
Qed.

(** The next component record lies at least six bytes further. *)
Lemma TryAdvanceCompoundOffset_forward (adv offset flags offset' len : Z) :
  TryAdvanceCompoundOffset offset flags = (true, offset') ->
  0 <= u32 (adv + offset) -> u32 (adv + offset) + 4 <= len -> len + 16 <= 2 ^ 32 ->
  u32 (adv + offset) + 6 <= u32 (adv + offset').
Proof.
  unfold TryAdvanceCompoundOffset. intros H Hp Hlen Hdev.
  destruct (Z.land flags MORE_COMPONENTS =? 0); [discriminate|].
  injection H as <-.
  assert (Hstep : forall delta, 6 <= delta <= 16 ->
                    u32 (adv + u32 (offset + delta)) = u32 (adv + offset) + delta).
  { intros delta Hd. unfold u32 in *.
    rewrite Z.add_mod_idemp_r by lia.
    replace (adv + (offset + delta)) with ((adv + offset) + delta) by lia.
    rewrite <- Z.add_mod_idemp_l by lia.
    apply Z.mod_small. lia. }
  assert (Htwo : forall a b, u32 (u32 (offset + a) + b) = u32 (offset + (a + b))).
  { intros a b. unfold u32. rewrite Z.add_mod_idemp_l by lia. f_equal. lia. }
  destruct (negb (Z.land flags ARG_1_AND_2_ARE_WORDS =? 0));
    destruct (negb (Z.land flags WE_HAVE_A_SCALE =? 0));
    try destruct (negb (Z.land flags WE_HAVE_AN_X_AND_Y_SCALE =? 0));
    try destruct (negb (Z.land flags WE_HAVE_TWO_BY_TWO =? 0));
    rewrite ?Htwo; rewrite Hstep; lia.
Qed.

Lemma gd_find_below (k : Z) (m : GlyphDatas) :
  Forall (fun k' => k < k') (gd_keys m) -> gd_find k m = None.
Proof.
  intros Hall. destruct (gd_find k m) as [v|] eqn:E; [|reflexivity]. exfalso.
  assert (Hin : k ∈ gd_keys m) by (apply gd_find_keys; congruence).
  rewrite Forall_forall in Hall. specialize (Hall k Hin). lia.
Qed.

(** Storing under a new key makes the map one longer, storing under a key
    of the map leaves its length. *)
Lemma gd_put_length (k : Z) (v : GlyphData) (m : GlyphDatas) :
  StronglySorted Z.lt (gd_keys m) ->
  length (gd_put k v m)
  = match gd_find k m with Some _ => length m | None => S (length m) end.
Proof.
  unfold gd_keys. induction m as [|[k0 v0] m IH]; simpl; intros Hs; [reflexivity|].
  apply StronglySorted_inv in Hs. destruct Hs as [Hs Hall].
  destruct (Z.ltb_spec k k0) as [Hlt|Hge]; simpl.
  - destruct (Z.eqb_spec k0 k); [lia|].
    rewrite gd_find_below; [reflexivity|].
    eapply Forall_impl; [exact Hall|]. simpl. intros; lia.
  - destruct (Z.eqb_spec k k0) as [->|Hne]; simpl.
    + rewrite Z.eqb_refl. reflexivity.
    + destruct (Z.eqb_spec k0 k); [lia|]. rewrite (IH Hs).
      destruct (gd_find k m); reflexivity.
Qed.

Lemma keys_in_range_put (glyphCount k : Z) (v : GlyphData) (m : GlyphDatas) :
  0 <= k < glyphCount -> keys_in_range glyphCount m ->
  keys_in_range glyphCount (gd_put k v m).
Proof.
  unfold keys_in_range. rewrite !Forall_forall. intros Hk Hall x Hx.
  apply gd_keys_put in Hx. destruct Hx as [->|Hx]; auto.
Qed.

(** A map with sorted keys among the glyph indices of the font, and a glyph
    index of the font that is not a key: the font has more glyphs than the
    map has records. *)
Lemma room_for_one (glyphCount gid : Z) (m : GlyphDatas) :
  StronglySorted Z.lt (gd_keys m) -> keys_in_range glyphCount m ->
  0 <= gid < glyphCount -> gd_find gid m = None ->
  Z.of_nat (length m) < glyphCount.
Proof.
  intros Hs Hrange Hgid Hnone.
  assert (Hnd : NoDup (gid :: gd_keys m)).
  { apply NoDup_cons. split; [|apply sorted_keys_NoDup; exact Hs].
    intros Hin. apply gd_find_keys in Hin. contradiction. }
  assert (Hall : Forall (fun k => 0 <= k < glyphCount) (gid :: gd_keys m))
    by (constructor; assumption).
  assert (Hsub : (Z.to_nat <$> (gid :: gd_keys m)) ⊆+ seq 0 (Z.to_nat glyphCount)).
  { apply NoDup_submseteq.
    - apply NoDup_fmap_2_strong; [|exact Hnd].
      intros x y Hx Hy Hxy. rewrite Forall_forall in Hall.
      pose proof (Hall x Hx). pose proof (Hall y Hy). lia.
    - intros n Hn. apply list_elem_of_fmap in Hn. destruct Hn as (x & -> & Hx).
      rewrite Forall_forall in Hall. pose proof (Hall x Hx).
      apply elem_of_seq. lia. }
  apply submseteq_length in Hsub.
  rewrite length_fmap, length_seq in Hsub. simpl in Hsub.
  unfold gd_keys in Hsub. rewrite length_map in Hsub. lia.
Qed.

Lemma load_keeps_refl (this : Subset) :
  StronglySorted Z.lt (gd_keys (m_glyphDatas this)) ->
  keys_in_range (m_glyphCount this) (m_glyphDatas this) ->
  load_keeps this this.
Proof.
  intros Hs Hr. split; [apply set_glyphDatas_same|]. split; [exact Hs|].
  split; [exact Hr | lia].
Qed.

Lemma load_keeps_trans (a b c : Subset) :
  load_keeps a b -> load_keeps b c -> load_keeps a c.
Proof.
  intros (Hb & _ & _ & Hab) (Hc & Hs & Hr & Hbc).
  assert (Hcount : m_glyphCount b = m_glyphCount a) by (rewrite Hb; reflexivity).
  split; [rewrite Hc, Hb at 1; reflexivity|]. split; [exact Hs|].
  split; [rewrite <- Hcount; exact Hr | lia].
Qed.

Lemma loadable_keeps (u len : nat) (this this' : Subset) :
  loadable u len this -> load_keeps this this' -> loadable u len this'.
Proof.
  intros (Hlen & Hdev & _ & _ & Hu) (Heq & Hs & Hr & Hle).
  assert (Hcount : m_glyphCount this' = m_glyphCount this) by (rewrite Heq; reflexivity).
  assert (Hd : m_device this' = m_device this) by (rewrite Heq; reflexivity).
  unfold loadable. rewrite Hcount, Hd. repeat split; try assumption. lia.
Qed.

Lemma Read_ends (dev : device) (offset size : Z) : Read dev offset size <> OutOfFuel.
Proof. unfold Read. destruct (_ && _); discriminate. Qed.

Lemma ReadUInt16BE_ends (dev : device) (offset : Z) : ReadUInt16BE dev offset <> OutOfFuel.
Proof.
  unfold ReadUInt16BE. pose proof (Read_ends dev offset 2).
  destruct (Read dev offset 2); simpl; congruence.
Qed.

Lemma ReadUInt32BE_ends (dev : device) (offset : Z) : ReadUInt32BE dev offset <> OutOfFuel.
Proof.
  unfold ReadUInt32BE. pose proof (Read_ends dev offset 4).
  destruct (Read dev offset 4); simpl; congruence.
Qed.

Lemma ReadInt16BE_ends (dev : device) (offset : Z) : ReadInt16BE dev offset <> OutOfFuel.
Proof.
  unfold ReadInt16BE. pose proof (Read_ends dev offset 2).
  destruct (Read dev offset 2); simpl; congruence.
Qed.

Lemma ReadGlyphCompoundData_ends (dev : device) (offset : Z) :
  ReadGlyphCompoundData dev offset <> OutOfFuel.
Proof.
  unfold ReadGlyphCompoundData.
  pose proof (ReadUInt16BE_ends dev offset). pose proof (ReadUInt16BE_ends dev (offset + 2)).
  destruct (ReadUInt16BE dev offset); simpl; try congruence.
  destruct (ReadUInt16BE dev (offset + 2)); simpl; congruence.
Qed.

Lemma read_glyph_location_ends (this : Subset) (gid : Z) :
  read_glyph_location this ctx gid <> OutOfFuel.
Proof.
  unfold read_glyph_location. destruct (m_isLongLoca this).
  - pose proof (ReadUInt32BE_ends (m_device this) (LocaTableOffset ctx + 4 * gid)).
    pose proof (ReadUInt32BE_ends (m_device this) (LocaTableOffset ctx + 4 * u32 (gid + 1))).
    destruct (ReadUInt32BE _ (LocaTableOffset ctx + 4 * gid)); simpl; try congruence.
    destruct (ReadUInt32BE _ _); simpl; congruence.
  - pose proof (ReadUInt16BE_ends (m_device this) (LocaTableOffset ctx + 2 * gid)).
    pose proof (ReadUInt16BE_ends (m_device this) (LocaTableOffset ctx + 2 * u32 (gid + 1))).
    destruct (ReadUInt16BE _ (LocaTableOffset ctx + 2 * gid)); simpl; try congruence.
    destruct (ReadUInt16BE _ _); simpl; congruence.
Qed.

Lemma LoadCompound_ends (u len : nat) (data : GlyphData) :
  LoadGID_ends ctx u len ->
  forall d this offset fuel,
    loadable u len this ->
    Z.of_nat len - u32 (GlyphAdvOffset data + offset) <= Z.of_nat d ->
    (compound_budget u len d <= fuel)%nat ->
    LoadCompound fuel this ctx data offset <> OutOfFuel
    /\ forall this', LoadCompound fuel this ctx data offset = Ok this' ->
                     load_keeps this this'.
Proof.
  intros HG. induction d as [|d IH]; intros this offset fuel Hthis Hd Hfuel;
    (destruct fuel as [|fuel]; [unfold compound_budget in Hfuel; lia|]);
    rewrite LoadCompound_S;
    pose proof (ReadGlyphCompoundData_ends (m_device this)
                  (u32 (GlyphAdvOffset data + offset))) as Hread;
    destruct (ReadGlyphCompoundData _ _) as [cmpData| | |] eqn:Eread; simpl;
    try (split; [discriminate | intros ? [=]]); try congruence.
  - apply ReadGlyphCompoundData_inside in Eread.
    destruct Hthis as (Hlen & _). rewrite Hlen in Eread. lia.
  - pose proof (ReadGlyphCompoundData_inside _ _ _ Eread) as (Hp & Hin & Hidx).
    destruct (HG this (GlyphIndex cmpData) fuel Hthis Hidx) as [Hne Hkeep].
    { unfold compound_budget in Hfuel. lia. }
    destruct (LoadGID fuel this ctx (GlyphIndex cmpData)) as [this1|e| |] eqn:E1;
      simpl; try (split; [discriminate | intros ? [=]]); [|congruence].
    specialize (Hkeep this1 eq_refl).
    destruct (TryAdvanceCompoundOffset offset (Flags cmpData)) as [[|] offset'] eqn:Eadv.
    + assert (Hthis1 : loadable u len this1) by (eapply loadable_keeps; eassumption).
      destruct Hthis as (Hlen & Hdev & _). rewrite Hlen in Hin.
      pose proof (TryAdvanceCompoundOffset_forward _ _ _ _ _ Eadv Hp Hin Hdev) as Hfw.
      destruct (IH this1 offset' fuel Hthis1) as [Hne' Hkeep'].
      { lia. }
      { unfold compound_budget in *. lia. }
      split; [exact Hne'|]. intros this' E. eapply load_keeps_trans; eauto.
    + split; [discriminate|]. intros this' [= <-]. exact Hkeep.
Qed.

Lemma LoadGID_comes_to_an_end (len u : nat) : LoadGID_ends ctx u len.
Proof.
  induction u as [|u IH]; intros this gid fuel Hthis Hgid Hfuel;
    (destruct fuel as [|fuel]; [unfold load_budget in Hfuel; lia|]);
    rewrite LoadGID_S;
    pose proof Hthis as (Hlen & Hdev & Hs & Hr & Hu);
    (destruct (Z.leb_spec (m_glyphCount this) gid) as [Hout|Hinside];
       [split; [discriminate | intros ? [=]]|]);
    (destruct (gd_find gid (m_glyphDatas this)) as [found|] eqn:Efind;
       [split; [discriminate | intros ? [= <-]; apply load_keeps_refl; assumption]|]).
  - pose proof (room_for_one _ _ _ Hs Hr (conj Hgid Hinside) Efind). lia.
  - cbv zeta.
    match goal with
    | |- context [read_glyph_location ?t ctx gid] =>
        pose proof (read_glyph_location_ends t gid) as Hloc
    end.
    destruct (read_glyph_location _ ctx gid) as [glyphData| | |]; simpl;
      try (split; [discriminate | intros ? [=]]); try congruence.
    rewrite ?m_glyphDatas_set, ?set_glyphDatas_twice.
    pose proof (ReadInt16BE_ends (m_device this) (GlyphOffset glyphData)) as Hcc.
    destruct (ReadInt16BE (m_device this) (GlyphOffset glyphData)) as [contourCount| | |];
      simpl; try (split; [discriminate | intros ? [=]]); try congruence.
    set (m0 := gd_put gid GlyphData_default (m_glyphDatas this)).
    assert (Hs0 : StronglySorted Z.lt (gd_keys m0)) by (apply gd_put_sorted; exact Hs).
    assert (Hr0 : keys_in_range (m_glyphCount this) m0)
      by (apply keys_in_range_put; [lia | exact Hr]).
    assert (Hl0 : length m0 = S (length (m_glyphDatas this)))
      by (unfold m0; rewrite gd_put_length, Efind by exact Hs; reflexivity).
    set (m1 := gd_put gid glyphData m0).
    assert (Hs1 : StronglySorted Z.lt (gd_keys m1)) by (apply gd_put_sorted; exact Hs0).
    assert (Hr1 : keys_in_range (m_glyphCount this) m1)
      by (apply keys_in_range_put; [lia | exact Hr0]).
    assert (Hl1 : length m1 = length m0)
      by (unfold m1, m0; rewrite gd_put_length, gd_find_put_eq by exact Hs0; reflexivity).
    assert (Hk1 : load_keeps this (set_glyphDatas this m1)).
    { split; [reflexivity|]. rewrite m_glyphDatas_set.
      split; [exact Hs1|]. split; [exact Hr1 | lia]. }
    destruct (contourCount <? 0); [|split; [discriminate | intros ? [= <-]; exact Hk1]].
    set (m2 := gd_put gid (set_IsCompound glyphData true) m1).
    assert (Hs2 : StronglySorted Z.lt (gd_keys m2)) by (apply gd_put_sorted; exact Hs1).
    assert (Hr2 : keys_in_range (m_glyphCount this) m2)
      by (apply keys_in_range_put; [lia | exact Hr1]).
    assert (Hl2 : length m2 = length m1)
      by (unfold m2, m1; rewrite gd_put_length, gd_find_put_eq by exact Hs1; reflexivity).
    assert (Hk2 : load_keeps this (set_glyphDatas this m2)).
    { split; [reflexivity|]. rewrite m_glyphDatas_set.
      split; [exact Hs2|]. split; [exact Hr2 | lia]. }
    assert (Hthis2 : loadable u len (set_glyphDatas this m2)).
    { unfold loadable. rewrite m_glyphDatas_set. simpl.
      repeat split; try assumption. lia. }
    destruct (LoadCompound_ends u len (set_IsCompound glyphData true) IH len
                (set_glyphDatas this m2) 0 fuel Hthis2) as [Hne Hkeep].
    { unfold u32. pose proof (Z.mod_pos_bound (GlyphAdvOffset (set_IsCompound glyphData true) + 0) (2 ^ 32)). lia. }
    { unfold compound_budget, load_budget in *. lia. }
    split; [exact Hne|]. intros this' E. eapply load_keeps_trans; eauto.
Qed.

Lemma LoadGIDs_end (u len : nat) (gids : list Z) :
  forall this fuel,
    loadable u len this -> Forall (fun gid => 0 <= gid) gids ->
    (load_budget u len <= fuel)%nat ->
    LoadGIDs fuel this ctx gids <> OutOfFuel
    /\ forall this', LoadGIDs fuel this ctx gids = Ok this' -> load_keeps this this'.
Proof.
  induction gids as [|gid gids IH]; intros this fuel Hthis Hgids Hfuel; simpl.
  - destruct Hthis as (_ & _ & Hs & Hr & _).
    split; [discriminate | intros ? [= <-]; apply load_keeps_refl; assumption].
  - apply Forall_cons in Hgids. destruct Hgids as [Hgid Hgids].
    destruct (LoadGID_comes_to_an_end len u this gid fuel Hthis Hgid Hfuel) as [Hne Hkeep].
    destruct (LoadGID fuel this ctx gid) as [this1|e| |]; simpl;
      try (split; [discriminate | intros ? [=]]); [|congruence].
    specialize (Hkeep this1 eq_refl).
    destruct (IH this1 fuel (loadable_keeps _ _ _ _ Hthis Hkeep) Hgids Hfuel)
      as [Hne' Hkeep'].
    split; [exact Hne'|]. intros this' E. eapply load_keeps_trans; eauto.
Qed.

Lemma remap_components_end (dev : device) :
  Z.of_nat (length dev) + 16 <= 2 ^ 32 ->
  forall d fuel glyphData offset glyphIndexMap ordered,
    Z.of_nat (length dev) - u32 (GlyphAdvOffset glyphData + offset) <= Z.of_nat d ->
    (d + 1 <= fuel)%nat ->
    remap_components fuel dev glyphData offset glyphIndexMap ordered <> OutOfFuel.
Proof.
  intros Hdev. induction d as [|d IH];
    intros fuel glyphData offset glyphIndexMap ordered Hd Hfuel;
    (destruct fuel as [|fuel]; [lia|]); simpl;
    pose proof (ReadGlyphCompoundData_ends dev (u32 (GlyphAdvOffset glyphData + offset)))
      as Hread;
    destruct (ReadGlyphCompoundData _ _) as [cmpData| | |] eqn:Eread; simpl;
    try discriminate; try congruence.
  - apply ReadGlyphCompoundData_inside in Eread. lia.
  - pose proof (ReadGlyphCompoundData_inside _ _ _ Eread) as (Hp & Hin & _).
    destruct (glyphIndexMap !! GlyphIndex cmpData);
      (destruct (TryAdvanceCompoundOffset offset (Flags cmpData)) as [[|] offset'] eqn:Eadv;
         [|discriminate]);
      pose proof (TryAdvanceCompoundOffset_forward _ _ _ _ _ Eadv Hp Hin Hdev) as Hfw;
      apply IH; simpl; lia.
Qed.

Lemma remap_glyphs_end (dev : device) (fuel : nat) :
  Z.of_nat (length dev) + 16 <= 2 ^ 32 -> (length dev + 1 <= fuel)%nat ->
  forall entries glyphIndexMap ordered,
    remap_glyphs fuel dev entries glyphIndexMap ordered <> OutOfFuel.
Proof.
  intros Hdev Hfuel. induction entries as [|[gid glyphData] rest IH];
    intros glyphIndexMap ordered; simpl; [discriminate|].
  assert (Hone : (if IsCompound glyphData
                  then remap_components fuel dev glyphData 0 glyphIndexMap ordered
                  else Ok (glyphData, glyphIndexMap, ordered)) <> OutOfFuel).
  { destruct (IsCompound glyphData); [|discriminate].
    apply (remap_components_end dev Hdev (length dev)); [|exact Hfuel].
    unfold u32. pose proof (Z.mod_pos_bound (GlyphAdvOffset glyphData + 0) (2 ^ 32)). lia. }
  destruct (if IsCompound glyphData then _ else _) as [[[glyphData' gim'] ordered']|e| |];
    simpl; try discriminate; [|congruence].
  specialize (IH gim' ordered').
  destruct (remap_glyphs fuel dev rest gim' ordered') as [[[rest' gim''] ordered'']|e| |];
    simpl; try discriminate. congruence.
Qed.

(** [LoadGlyphs] comes to an end, with a result or with an error, on every
    font program shorter than 4 GiB, within a budget that depends on the
    size of the font program and its number of glyphs only. *)
Theorem LoadGlyphs_comes_to_an_end (this : Subset) (gidList : list Z) (fuel : nat) :
  m_glyphDatas this = [] ->
  Z.of_nat (length (m_device this)) + 16 <= 2 ^ 32 ->
  Forall (fun gid => 0 <= gid) gidList ->
  (glyphs_budget (m_glyphCount this) (length (m_device this)) <= fuel)%nat ->
  LoadGlyphs fuel this ctx gidList <> OutOfFuel.
Proof.
  intros Hempty Hdev Hgids Hfuel. unfold glyphs_budget in Hfuel.
  set (len := length (m_device this)) in *.
  set (u := Z.to_nat (m_glyphCount this)) in *.
  assert (Hthis : loadable u len this).
  { unfold loadable, keys_in_range. rewrite Hempty. simpl.
    repeat split; try assumption; try constructor. unfold u. lia. }
  unfold LoadGlyphs.
  destruct (LoadGID_comes_to_an_end len u this 0 fuel Hthis) as [Hne Hkeep]; [lia | lia|].
  destruct (LoadGID fuel this ctx 0) as [this0|e| |]; simpl; try discriminate;
    [|congruence].
  specialize (Hkeep this0 eq_refl).
  pose proof (loadable_keeps _ _ _ _ Hthis Hkeep) as Hthis0.
  destruct (LoadGIDs_end u len gidList this0 fuel Hthis0 Hgids) as [Hne' Hkeep']; [lia|].
  destruct (LoadGIDs fuel this0 ctx gidList) as [this1|e| |]; simpl; try discriminate;
    [|congruence].
  specialize (Hkeep' this1 eq_refl).
  pose proof (loadable_keeps _ _ _ _ Hthis0 Hkeep') as (Hlen1 & _).
  destruct (number_gids gidList _ _) as [glyphIndexMap ordered].
  pose proof (remap_glyphs_end (m_device this1) fuel) as Hremap.
  rewrite Hlen1 in Hremap.
  specialize (Hremap Hdev ltac:(lia) (m_glyphDatas this1) glyphIndexMap ordered).
  destruct (remap_glyphs fuel (m_device this1) (m_glyphDatas this1) glyphIndexMap ordered)
    as [[[glyphDatas gim'] ordered']|e| |]; simpl; try discriminate. congruence.
Qed.

(** So the result of a call within some budget is the result within the
    budget of the font. *)
Lemma LoadGlyphs_at_budget (this : Subset) (gidList : list Z) (fuel fuel' : nat)
    (r : outcome (Subset * gmap Z Z)) :
  LoadGlyphs fuel this ctx gidList = r -> r <> OutOfFuel ->
  m_glyphDatas this = [] ->
  Z.of_nat (length (m_device this)) + 16 <= 2 ^ 32 ->
  Forall (fun gid => 0 <= gid) gidList ->
  (glyphs_budget (m_glyphCount this) (length (m_device this)) <= fuel')%nat ->
  LoadGlyphs fuel' this ctx gidList = r.
Proof.
  intros H Hr Hempty Hdev Hgids Hfuel.
  pose proof (LoadGlyphs_comes_to_an_end this gidList fuel' Hempty Hdev Hgids Hfuel) as Hne.
  pose proof (LoadGlyphs_mono ctx fuel (Nat.max fuel fuel') this gidList r H Hr
                (Nat.le_max_l _ _)) as Hmax.
  rewrite <- Hmax. symmetry.
  apply (LoadGlyphs_mono ctx fuel' (Nat.max fuel fuel') this gidList _ eq_refl Hne).
  apply Nat.le_max_r.
Qed.

End Termination.

(** ** The order of the subset and its size *)

Section SubsetOrder.
Import TrueTypeSubset Spec.

(** C3, as the code has it.  After [LoadGlyphs], the ordered list is glyph
    0, then the caller's glyphs as given, then the component glyphs that
    have no number yet, in the order in which a pass over the loaded glyphs
    by increasing original index meets them, the components of one glyph in
    the order of its records.  A larger budget gives the same result, and
    on a font program shorter than 4 GiB it is the result within the budget
    of the font. *)
Theorem C3_order_is_map_order (ctx : GlyphContext) (fuel : nat) (this : Subset)
    (gidList : list Z) (s : Subset) (glyphIndexMap : gmap Z Z) :
  LoadGlyphs fuel this ctx gidList = Ok (s, glyphIndexMap) ->
  m_glyphDatas this = [] -> m_orderedGIDs this = [] ->
  StronglySorted Z.lt (gd_keys (m_glyphDatas s))
  /\ (exists ds,
        discovered fuel (m_device this) (m_glyphDatas s) = Ok ds
        /\ m_orderedGIDs s = 0 :: gidList ++ number_fresh (0 :: gidList) ds)
  /\ (forall fuel', (fuel <= fuel')%nat ->
                    LoadGlyphs fuel' this ctx gidList = Ok (s, glyphIndexMap))
  /\ (Z.of_nat (length (m_device this)) + 16 <= 2 ^ 32 ->
      Forall (fun gid => 0 <= gid) gidList ->
      forall fuel',
        (glyphs_budget (m_glyphCount this) (length (m_device this)) <= fuel')%nat ->
        LoadGlyphs fuel' this ctx gidList = Ok (s, glyphIndexMap)).
Proof.
  intros H Hempty Hnone.
  destruct (LoadGlyphs_spec ctx fuel this gidList s glyphIndexMap H Hempty Hnone)
    as (ds & Hds & Hord & _ & _ & Hsorted & _ & _).
  split; [exact Hsorted|]. split; [exists ds; split; assumption|]. split.
  - intros fuel' Hle. eapply LoadGlyphs_mono; [exact H | discriminate | exact Hle].
  - intros Hdev Hgids fuel' Hle.
    eapply LoadGlyphs_at_budget; [exact H | discriminate | assumption..].
Qed.

Lemma C3_order_is_map_order_witness :
  LoadGlyphs 10 closure_this closure_ctx [10] = Ok (scenario_subset, scenario_map)
  /\ gd_keys (m_glyphDatas scenario_subset) = [0; 3; 5; 7; 10]
  /\ discovered 10 (m_device closure_this) (m_glyphDatas scenario_subset) = Ok [3; 5; 7]
  /\ m_orderedGIDs scenario_subset = [0; 10; 3; 5; 7]
  /\ (exists ds,
       discovered 10 (m_device closure_this) (m_glyphDatas scenario_subset) = Ok ds
       /\ m_orderedGIDs scenario_subset = 0 :: [10] ++ number_fresh (0 :: [10]) ds)
  /\ LoadGlyphs (glyphs_budget (m_glyphCount closure_this) (length (m_device closure_this)))
                closure_this closure_ctx [10]
     = Ok (scenario_subset, scenario_map).
Proof.
  assert (E : LoadGlyphs 10 closure_this closure_ctx [10] = Ok (scenario_subset, scenario_map))
    by (vm_compute; reflexivity).
  split; [exact E|].
  split; [reflexivity|]. split; [reflexivity|]. split; [reflexivity|].
  destruct (C3_order_is_map_order closure_ctx 10 closure_this [10]
              scenario_subset scenario_map E eq_refl eq_refl)
    as (_ & Horder & _ & Hbudget).
  split; [exact Horder|].
  apply Hbudget; [vm_compute; discriminate | repeat constructor; lia | apply Nat.le_refl].
Defined.

(** C3 as stated fails on the closure scenario.  With glyph 10 compound
    over 5 and 7 and glyph 7 compound over 3, and the glyph list [10], the
    ordered list is [0, 10, 3, 5, 7], not [0, 10, 5, 7, 3]: the component of
    glyph 7 is met before those of glyph 10.  The new indices are 10→1,
    3→2, 5→3, 7→4, and these are what the component fields get: 2 in glyph
    7; 3 and 4 in glyph 10. *)
Lemma C3_scenario_has_another_order :
  LoadGlyphs 10 closure_this closure_ctx [10] = Ok (scenario_subset, scenario_map)
  /\ m_orderedGIDs scenario_subset = [0; 10; 3; 5; 7]
  /\ m_orderedGIDs scenario_subset <> [0; 10; 5; 7; 3]
  /\ map (fun g => scenario_map !! g) [0; 10; 3; 5; 7]
     = [Some 0; Some 1; Some 2; Some 3; Some 4]
  /\ fixups (m_glyphDatas scenario_subset)
     = [ (7, [mkComponent 12 2]); (10, [mkComponent 12 3; mkComponent 18 4]) ].
Proof.
  split; [vm_compute; reflexivity|].
  split; [reflexivity|]. split; [discriminate|].
  split; vm_compute; reflexivity.
Qed.

End SubsetOrder.

Section SubsetSize.
Import TrueTypeSubset Spec.

Lemma repeated_entries_none (seen gids : list Z) :
  repeated_entries seen gids = 0%nat <-> NoDup gids /\ forall g, g ∈ gids -> g ∉ seen.
Proof.
  revert seen. induction gids as [|g gids IH]; intros seen; simpl.
  - split; [intros _; split; [constructor | inversion 1] | reflexivity].
  - rewrite NoDup_cons. split.
    + intros H. destruct (bool_decide_reflect (g ∈ seen)) as [Hg|Hg]; [lia|].
      simpl in H. apply IH in H. destruct H as [Hnd Hnew]. repeat split.
      * intros Hin. apply (Hnew g Hin). apply elem_of_app. right. left.
      * exact Hnd.
      * intros x Hx. apply elem_of_cons in Hx. destruct Hx as [->|Hx]; [exact Hg|].
        intros Hs. apply (Hnew x Hx). apply elem_of_app. now left.
    + intros [[Hg Hnd] Hnew].
      rewrite bool_decide_eq_false_2 by (apply Hnew; left). simpl.
      apply IH. split; [exact Hnd|]. intros x Hx Hs.
      apply elem_of_app in Hs. destruct Hs as [Hs|Hs].
      * apply (Hnew x); [now right | exact Hs].
      * apply list_elem_of_singleton in Hs. subst x. contradiction.
Qed.

Lemma Read_length (dev : device) (offset size : Z) (bs : list byte) :
  Read dev offset size = Ok bs -> length bs = Z.to_nat size.
Proof.
  unfold Read. destruct (_ && _) eqn:E; [|discriminate]. intros [= <-].
  apply andb_true_iff in E. destruct E as [E1 E3].
  apply andb_true_iff in E1. destruct E1 as [E1 E2].
  apply Z.leb_le in E1, E2, E3.
  rewrite length_take, length_drop. lia.
Qed.

Lemma copy_metrics_length (dev : device) (tableOffset : Z) (gids : list Z) :
  forall output buf,
    copy_metrics dev tableOffset gids output = Ok buf ->
    length buf = (length output + 4 * length gids)%nat.
Proof.
  induction gids as [|gid gids IH]; intros output buf H; simpl in H.
  - injection H as <-. simpl. lia.
  - inv_bind H. unfold CopyData in Hx. inv_bind Hx. injection Hx as <-.
    apply Read_length in Hx0. apply IH in H. rewrite H, length_app, Hx0. simpl. lia.
Qed.

Lemma write_loca_entries_length (isLong : bool) (gids : list Z) :
  forall glyphDatas glyphAddress output,
    length (fst (write_loca_entries isLong gids glyphDatas glyphAddress output))
    = (length output + (if isLong then 4 else 2) * (length gids + 1))%nat.
Proof.
  induction gids as [|gid gids IH]; intros glyphDatas glyphAddress output; simpl.
  - rewrite length_app. destruct isLong; simpl; lia.
  - destruct (gd_index gid glyphDatas) as [glyphData glyphDatas'].
    rewrite IH, length_app. destruct isLong; simpl; lia.
Qed.

(** A store through [buffer.data() + offset] is read back there. *)
Lemma poke_read (buf : buffer) (offset : Z) (bs : list byte) (buf' : buffer) :
  poke buf offset bs = Ok buf' ->
  take (length bs) (drop (Z.to_nat offset) buf') = bs.
Proof.
  unfold poke. destruct (_ && _) eqn:E; [|discriminate]. intros [= <-].
  apply andb_true_iff in E. destruct E as [E1 E2].
  apply Z.leb_le in E1, E2.
  rewrite drop_app_length'.
  - rewrite take_app_length. reflexivity.
  - rewrite length_take. lia.
Qed.

Lemma poke_length (buf : buffer) (offset : Z) (bs : list byte) (buf' : buffer) :
  poke buf offset bs = Ok buf' -> length buf' = length buf.
Proof.
  unfold poke. destruct (_ && _) eqn:E; [|discriminate]. intros [= <-].
  apply andb_true_iff in E. destruct E as [E1 E2]. apply Z.leb_le in E1, E2.
  rewrite !length_app, length_take, length_drop. lia.
Qed.

Lemma fixups_keep_length (components : list GlyphCompoundComponentData) :
  forall (tmp : outcome (list byte)) (bs bs' : list byte),
    tmp = Ok bs ->
    foldl (fun acc component =>
             tmp ← acc;
             poke tmp (cmp_Offset component) (be16 (u16 (cmp_GlyphIndex component))))
          tmp components = Ok bs' ->
    length bs' = length bs.
Proof.
  induction components as [|c components IH]; intros tmp bs bs' -> H; simpl in H.
  - injection H as <-. reflexivity.
  - destruct (poke bs (cmp_Offset c) (be16 (u16 (cmp_GlyphIndex c)))) as [bs1| | |] eqn:E.
    + rewrite (IH (Ok bs1) bs1 bs' eq_refl H). eapply poke_length. exact E.
    + exfalso. clear -H. induction components; simpl in H; [discriminate | auto].
    + exfalso. clear -H. induction components; simpl in H; [discriminate | auto].
    + exfalso. clear -H. induction components; simpl in H; [discriminate | auto].
Qed.

(** The [glyf] table gets the bytes of one record per entry of the list,
    entries that repeat included. *)
Lemma WriteGlyphTable_length (dev : device) (gids : list Z) (glyphDatas : GlyphDatas) :
  forall output buf glyphDatas',
    (forall g, g ∈ gids -> g ∈ gd_keys glyphDatas) ->
    WriteGlyphTable dev gids glyphDatas output = Ok (buf, glyphDatas') ->
    glyphDatas' = glyphDatas
    /\ length buf = (length output + sum_list (map (glyph_length glyphDatas) gids))%nat.
Proof.
  induction gids as [|gid gids IH]; intros output buf glyphDatas' Hkeys H; simpl in H.
  - injection H as <- <-. simpl. split; [reflexivity | lia].
  - assert (Hgid : gd_find gid glyphDatas <> None)
      by (apply gd_find_keys, Hkeys; left).
    assert (Hrest : forall g, g ∈ gids -> g ∈ gd_keys glyphDatas)
      by (intros g Hg; apply Hkeys; now right).
    unfold gd_index in H. simpl sum_list. unfold glyph_length at 1.
    destruct (gd_find gid glyphDatas) as [glyphData|] eqn:E; [|congruence].
    destruct (Z.eqb_spec (GlyphLength glyphData) 0) as [Hzero|Hlen].
    + destruct (IH _ _ _ Hrest H) as [-> ->]. rewrite Hzero. split; [reflexivity | simpl; lia].
    + destruct (IsCompound glyphData).
      * inv_bind H. inv_bind H.
        destruct (IH _ _ _ Hrest H) as [-> ->]. split; [reflexivity|].
        rewrite length_app.
        rewrite (fixups_keep_length _ (Ok x) x x0 eq_refl Hx0).
        apply Read_length in Hx. lia.
      * inv_bind H. unfold CopyData in Hx. inv_bind Hx. injection Hx as <-.
        destruct (IH _ _ _ Hrest H) as [-> ->]. split; [reflexivity|].
        rewrite length_app. apply Read_length in Hx0. lia.
Qed.

(** C10.  After [LoadGlyphs], the loaded glyphs are the transitive closure
    of glyph 0 and the caller's glyphs, each once; the ordered list has one
    entry more than that for every entry of the caller's list that is 0 or
    repeats an earlier one, and is as long as the closure is large exactly
    when the caller's list has neither.  The writer puts one [hmtx] record
    and one [loca] entry per entry of the ordered list, and the size of the
    closure into [maxp]. *)
Theorem C10_repeats_add_entries (ctx : GlyphContext) (fuel : nat) (this : Subset)
    (gidList : list Z) (s : Subset) (glyphIndexMap : gmap Z Z) :
  LoadGlyphs fuel this ctx gidList = Ok (s, glyphIndexMap) ->
  m_glyphDatas this = [] -> m_orderedGIDs this = [] ->
  NoDup (gd_keys (m_glyphDatas s))
  /\ (forall k, k ∈ gd_keys (m_glyphDatas s)
                <-> closure (m_device this) (m_isLongLoca this) ctx (0 :: gidList) k)
  /\ (length (m_orderedGIDs s)
      = length (m_glyphDatas s) + repeated_entries [0%Z] gidList)%nat
  /\ (length (m_orderedGIDs s) = length (m_glyphDatas s) <-> NoDup gidList /\ 0 ∉ gidList)
  /\ (forall output buf glyphDatas,
        WriteGlyphTable (m_device s) (m_orderedGIDs s) (m_glyphDatas s) output
          = Ok (buf, glyphDatas) ->
        length buf
        = (length output + sum_list (map (glyph_length (m_glyphDatas s)) (m_orderedGIDs s)))%nat)
  /\ (forall output buf,
        WriteHmtxTable s output = Ok buf ->
        length buf = (length output + 4 * length (m_orderedGIDs s))%nat)
  /\ (forall output,
        length (fst (WriteLocaTable s output))
        = (length output
           + (if m_isLongLoca s then 4 else 2) * (length (m_orderedGIDs s) + 1))%nat)
  /\ (forall table output buf glyphDatas,
        Tag table = TTAG_maxp ->
        write_table s table output = Ok (buf, glyphDatas) ->
        take 2 (drop (length output + 4) buf)
        = be16 (u16 (Z.of_nat (length (m_glyphDatas s))))).
Proof.
  intros H Hempty Hnone.
  destruct (LoadGlyphs_spec ctx fuel this gidList s glyphIndexMap H Hempty Hnone)
    as (ds & Hds & Hord & Hcount & Hsize & Hsorted & Hclosure & Hkeys).
  split; [apply sorted_keys_NoDup; exact Hsorted|].
  split; [exact Hclosure|].
  split; [lia|].
  split.
  { split.
    - intros Heq.
      assert (Hrep : repeated_entries [0] gidList = 0%nat) by lia.
      apply repeated_entries_none in Hrep. destruct Hrep as [Hnd Hzero].
      split; [exact Hnd|]. intros Hin. apply (Hzero 0 Hin). left.
    - intros [Hnd Hzero].
      assert (Hrep : repeated_entries [0] gidList = 0%nat).
      { apply repeated_entries_none. split; [exact Hnd|].
        intros g Hg Hin. apply list_elem_of_singleton in Hin. subst g. contradiction. }
      lia. }
  split.
  { intros output buf glyphDatas Hw.
    eapply (proj2 (WriteGlyphTable_length _ _ _ _ _ _ Hkeys Hw)). }
  split.
  { intros output buf Hw. unfold WriteHmtxTable in Hw. inv_bind Hw.
    eapply copy_metrics_length. exact Hw. }
  split.
  { intros output. unfold WriteLocaTable. apply write_loca_entries_length. }
  intros table output buf glyphDatas Htag Hw.
  unfold write_table in Hw. rewrite Htag in Hw. simpl in Hw.
  inv_bind Hw. injection Hw as <- <-. inv_bind Hx.
  apply poke_read in Hx. simpl length in Hx.
  unfold Tell in Hx. rewrite Z2Nat.inj_add, Nat2Z.id in Hx by lia.
  exact Hx.
Qed.

Lemma C10_repeats_add_entries_witness :
  LoadGlyphs 10 closure_this closure_ctx [10; 0; 10] = Ok (repeats_subset, repeats_map)
  /\ gd_keys (m_glyphDatas repeats_subset) = [0; 3; 5; 7; 10]
  /\ m_orderedGIDs repeats_subset = [0; 10; 0; 10; 3; 5; 7]
  /\ (length (m_orderedGIDs repeats_subset) = length (m_glyphDatas repeats_subset) + 2)%nat
  /\ (exists buf, WriteHmtxTable repeats_subset [] = Ok buf /\ length buf = 28%nat)
  /\ (exists buf,
        WriteGlyphTable (m_device repeats_subset) (m_orderedGIDs repeats_subset)
                        (m_glyphDatas repeats_subset) []
        = Ok (buf, m_glyphDatas repeats_subset)
        /\ length buf = 112%nat
        /\ sum_list (map (glyph_length (m_glyphDatas repeats_subset)) [0; 3; 5; 7; 10])
           = 76%nat).
Proof.
  assert (E : LoadGlyphs 10 closure_this closure_ctx [10; 0; 10]
              = Ok (repeats_subset, repeats_map)) by (vm_compute; reflexivity).
  pose proof (C10_repeats_add_entries closure_ctx 10 closure_this [10; 0; 10]
                repeats_subset repeats_map E eq_refl eq_refl)
    as (_ & _ & Hcount & _ & _ & Hhmtx & _).
  split; [exact E|]. split; [reflexivity|]. split; [reflexivity|].
  split; [exact Hcount|].
  split.
  - eexists. split; [vm_compute; reflexivity|]. reflexivity.
  - eexists. split; [vm_compute; reflexivity|]. split; reflexivity.
Defined.

End SubsetSize.

(** ** More of the variant: setters, getters, comparison *)

Section VariantAccess.
Import Variant Spec.


(** Takes a variant apart, with its flags and its type. *)
Ltac variant_cases v :=
  let data := fresh "data" in
  let loaded := fresh "loaded" in
  let dirty := fresh "dirty" in
  let type := fresh "type" in
  let immutable := fresh "immutable" in
  destruct v as [data loaded dirty type immutable];
  destruct loaded, type, immutable.

Lemma apply_setter_returns (s : setter) (v v' : PdfVariant) :
  apply_setter s v = Ok v' ->
  accepts s (m_eDataType v) = true /\ m_bImmutable v = false
  /\ m_eDataType v' = m_eDataType v /\ m_bDirty v' = true
  /\ m_bImmutable v' = false /\ m_bDelayedLoadDone v' = true.
Proof.
  destruct s as [b|l|d|name|str]; variant_cases v; try discriminate;
    try (destruct str as [bytes [|]]; try discriminate);
    unfold apply_setter, SetBool, SetNumber, SetReal, SetName, SetString; simpl;
    repeat match goal with
           | |- context [match ?x with _ => _ end] => destruct x; simpl; try discriminate
           end;
    try (destruct (double_to_long _); simpl; try discriminate);
    intros [= <-]; repeat split.
Qed.

(** X14.  The setters [SetBool], [SetNumber], [SetReal], [SetName] and
    [SetString] check, in this order: that the variant is loaded, that its
    type is one the setter accepts ([InvalidDataType] otherwise, also on an
    immutable variant), and that it is not immutable ([ChangeOnImmutable]).
    A setter that returns has kept the type of the variant and has set its
    dirty flag. *)
Theorem setters_check_type_then_mutability (s : setter) (v : PdfVariant) :
  (m_bDelayedLoadDone v = false -> apply_setter s v = Raise InternalLogic)
  /\ (m_bDelayedLoadDone v = true -> accepts s (m_eDataType v) = false ->
      apply_setter s v = Raise InvalidDataType)
  /\ (m_bDelayedLoadDone v = true -> accepts s (m_eDataType v) = true ->
      m_bImmutable v = true -> apply_setter s v = Raise ChangeOnImmutable)
  /\ (forall v', apply_setter s v = Ok v' ->
        accepts s (m_eDataType v) = true /\ m_bImmutable v = false
        /\ m_eDataType v' = m_eDataType v /\ m_bDirty v' = true
        /\ m_bImmutable v' = false /\ m_bDelayedLoadDone v' = true).
Proof.
  split; [|split; [|split]].
  - intros Hl. destruct s, v as [data loaded dirty type immutable];
      simpl in Hl; subst loaded; reflexivity.
  - intros Hl Ha. destruct s as [b|l|d|name|str]; variant_cases v;
      try discriminate; try reflexivity;
      destruct str as [bytes [|]]; try discriminate; reflexivity.
  - intros Hl Ha Hi. destruct s as [b|l|d|name|str]; variant_cases v;
      try discriminate; try reflexivity;
      destruct str as [bytes [|]]; try discriminate; reflexivity.
  - intros v'. apply apply_setter_returns.
Qed.

(** Runs a setter on a variant taken apart and reads the result back. *)
Ltac set_then_get :=
  simpl;
  repeat match goal with
         | |- context [match ?x with _ => _ end] => destruct x; simpl; try discriminate
         end;
  try (intros [= <-]; reflexivity).

(** X15.  What a setter has stored is what the getter of the same kind
    reads back.  A number stored in a variant of type [Real] is read back
    as the [double] nearest to it, and a real stored in a variant of type
    [Number] is read back as its floor, which is also what [GetNumber]
    makes of a variant of type [Real] that holds it. *)
Theorem setters_round_trip (v v' : PdfVariant) :
  (forall b, SetBool v b = Ok v' -> GetBool v' = Ok b)
  /\ (forall l, SetNumber v l = Ok v' ->
        (m_eDataType v = ePdfDataType_Number -> GetNumber v' = Ok l)
        /\ (m_eDataType v = ePdfDataType_Real -> GetReal v' = Ok (long_to_double l)))
  /\ (forall d, SetReal v d = Ok v' ->
        (m_eDataType v = ePdfDataType_Real -> GetReal v' = Ok d)
        /\ (m_eDataType v = ePdfDataType_Number ->
            GetNumber v' = double_to_long (floor_double d)
            /\ GetNumber v' = GetNumber (PdfVariant_real d)))
  /\ (forall name, SetName v name = Ok v' -> GetName v' = Ok name)
  /\ (forall str, SetString v str = Ok v' -> GetString v' = Ok str)
  /\ (forall b l d name,
        (exists w, SetBool (PdfVariant_bool b) (negb b) = Ok w)
        /\ (exists w, SetNumber (PdfVariant_number 0) l = Ok w)
        /\ (exists w, SetNumber (PdfVariant_real d) l = Ok w)
        /\ (exists w, SetReal (PdfVariant_real (S754_zero false)) d = Ok w)
        /\ (exists w, SetReal (PdfVariant_number 0) one_and_a_half = Ok w)
        /\ (exists w, SetName (PdfVariant_name EmptyString) name = Ok w)
        /\ (exists w, SetString (PdfVariant_string (mkString EmptyString false))
                                (mkString name false) = Ok w)).
Proof.
  split; [|split; [|split; [|split; [|split]]]].
  - intros b. variant_cases v; try discriminate. unfold SetBool. set_then_get.
  - intros l H. split; intros Ht; revert H; variant_cases v; try discriminate;
      unfold SetNumber; set_then_get.
  - intros d H. split; intros Ht; revert H; variant_cases v; try discriminate;
      unfold SetReal; simpl.
    + intros [= <-]. reflexivity.
    + destruct (double_to_long (floor_double d)) as [n| | |] eqn:E; simpl;
        try discriminate.
      intros [= <-]. split; [reflexivity|].
      unfold GetNumber, PdfVariant_real. simpl. exact (eq_sym E).
  - intros name. variant_cases v; try discriminate. unfold SetName. set_then_get.
  - intros str. variant_cases v; try discriminate;
      destruct str as [bytes [|]]; try discriminate; unfold SetString; set_then_get.
  - intros b l d name. repeat split; eexists; reflexivity.
Qed.

Section Comparison.

Variable PdfString_eq : PdfString -> PdfString -> bool.
Variable PdfName_eq : PdfName -> PdfName -> bool.
Variable PdfReference_eq : PdfReference -> PdfReference -> bool.
Variable PdfArray_eq : PdfArray PdfVariant -> PdfArray PdfVariant -> outcome bool.
Variable PdfDictionary_eq
  : PdfDictionary PdfVariant -> PdfDictionary PdfVariant -> outcome bool.

(** X16.  [operator==] of a variant with one whose type does not go with
    its own is [false], not an error, except that a left-hand side of type
    [RawData] or [Unknown] raises [InvalidDataType] whatever the right-hand
    side is.  Numbers and reals go together, but not the same way round: an
    integer on the left is compared with the floor of a real on the right,
    a real on the left with the [double] of an integer on the right; so
    [1 == 1.5] holds and [1.5 == 1] does not. *)
Theorem variant_comparison_by_left_type (v rhs : PdfVariant) (n : Z) (d : spec_float) (q : Q) :
  (well_formed v = true -> m_bDelayedLoadDone rhs = true ->
   m_eDataType v <> ePdfDataType_RawData -> m_eDataType v <> ePdfDataType_Unknown ->
   comparable (m_eDataType v) (m_eDataType rhs) = false ->
   PdfVariant_eq PdfString_eq PdfName_eq PdfReference_eq PdfArray_eq PdfDictionary_eq v rhs
   = Ok false)
  /\ (m_bDelayedLoadDone v = true ->
      m_eDataType v = ePdfDataType_RawData \/ m_eDataType v = ePdfDataType_Unknown ->
      PdfVariant_eq PdfString_eq PdfName_eq PdfReference_eq PdfArray_eq PdfDictionary_eq v rhs
      = Raise InvalidDataType)
  /\ (SF2Q d = Some q -> - 2 ^ 63 <= Qfloor q < 2 ^ 63 ->
      PdfVariant_eq PdfString_eq PdfName_eq PdfReference_eq PdfArray_eq PdfDictionary_eq
        (PdfVariant_number n) (PdfVariant_real d) = Ok (n =? Qfloor q))
  /\ PdfVariant_eq PdfString_eq PdfName_eq PdfReference_eq PdfArray_eq PdfDictionary_eq
       (PdfVariant_real d) (PdfVariant_number n) = Ok (SFeqb d (long_to_double n))
  /\ PdfVariant_eq PdfString_eq PdfName_eq PdfReference_eq PdfArray_eq PdfDictionary_eq
       (PdfVariant_number 1) (PdfVariant_real one_and_a_half) = Ok true
  /\ PdfVariant_eq PdfString_eq PdfName_eq PdfReference_eq PdfArray_eq PdfDictionary_eq
       (PdfVariant_real one_and_a_half) (PdfVariant_number 1) = Ok false.
Proof.
  split; [|split; [|split; [|split; [|split]]]].
  - intros Hv Hr Hraw Hunk Hc.
    destruct v as [data loaded dirty type immutable], rhs as [data' loaded' dirty' type' imm'].
    simpl in Hr, Hraw, Hunk, Hc. subst loaded'.
    destruct loaded; [|discriminate].
    destruct type; try congruence; destruct type'; try discriminate;
      destruct data as [| | | |[]]; try discriminate; reflexivity.
  - intros Hv [Ht|Ht]; destruct v as [data loaded dirty type immutable];
      simpl in *; subst; reflexivity.
  - intros Hq Hrange. unfold PdfVariant_eq. simpl.
    unfold GetNumber. simpl.
    rewrite (floor_double_Qfloor d q Hq). unfold double_to_long.
    destruct (Z.leb_spec (- 2 ^ 63) (Qfloor q)); [|lia].
    destruct (Z.ltb_spec (Qfloor q) (2 ^ 63)); [|lia]. reflexivity.
  - reflexivity.
  - vm_compute. reflexivity.
  - vm_compute. reflexivity.
Qed.

End Comparison.

End VariantAccess.

(** ** The dirty flag and copies, in full *)

Section Flags.
Import Variant Spec.

Section ElementwiseValues.
Context {A : Type}.

Lemma any_dirty_existsb (flag : A -> outcome bool) (g : A -> bool) (l : list (PdfName * A)) :
  Forall (fun kv => flag (snd kv) = Ok (g (snd kv))) l ->
  any_dirty flag l = Ok (existsb (fun kv => g (snd kv)) l).
Proof.
  induction 1 as [|[k x] l Hx _ IH]; simpl in *; [reflexivity|].
  rewrite Hx. simpl. destruct (g x); [reflexivity | exact IH].
Qed.

Lemma any_dirty_elem_existsb (flag : A -> outcome bool) (g : A -> bool) (l : list A) :
  Forall (fun x => flag x = Ok (g x)) l ->
  any_dirty_elem flag l = Ok (existsb g l).
Proof.
  induction 1 as [|x l Hx _ IH]; simpl in *; [reflexivity|].
  rewrite Hx. simpl. destruct (g x); [reflexivity | exact IH].
Qed.

Lemma set_dirty_all_map (f : A -> bool -> outcome A) (h : A -> A) (l : list (PdfName * A)) :
  Forall (fun kv => f (snd kv) false = Ok (h (snd kv))) l ->
  set_dirty_all f false l = Ok (map (fun '(first, second) => (first, h second)) l).
Proof.
  induction 1 as [|[k x] l Hx _ IH]; simpl in *; [reflexivity|].
  rewrite Hx. simpl. rewrite IH. reflexivity.
Qed.

Lemma set_dirty_elems_map (f : A -> bool -> outcome A) (h : A -> A) (l : list A) :
  Forall (fun x => f x false = Ok (h x)) l ->
  set_dirty_elems f false l = Ok (map h l).
Proof.
  induction 1 as [|x l Hx _ IH]; simpl in *; [reflexivity|].
  rewrite Hx. simpl. rewrite IH. reflexivity.
Qed.



Lemma existsb_negb_forallb (g : A -> bool) (l : list A) :
  existsb (fun x => negb (g x)) l = negb (forallb g l).
Proof.
  induction l as [|x l IH]; simpl; [reflexivity|].
  rewrite IH. destruct (g x); reflexivity.
Qed.

End ElementwiseValues.

Lemma forallb_snd (g : PdfVariant -> bool) (l : list (PdfName * PdfVariant)) :
  forallb (fun '(_, second) => g second) l = forallb (fun kv => g (snd kv)) l.
Proof. induction l as [|[k x] l IH]; simpl; [reflexivity | rewrite IH; reflexivity]. Qed.

(** Takes the hypothesis on the elements of a container to the elements. *)
Ltac on_elements IH Hwf :=
  rewrite Forall_forall in *; intros x Hx; apply (IH x Hx); apply (Hwf x Hx).

(** X17.  A variant whose payload is that of its type reports itself
    dirty exactly when a dirty flag is set somewhere in it: its own, that
    of a container it holds, or one in an element of that container. *)
Theorem IsDirty_iff_some_flag_is_set (v : PdfVariant) :
  well_formed v = true -> IsDirty v = Ok (negb (all_clean v)).
Proof.
  induction v as [v IHa IHd] using PdfVariant_elements_ind.
  destruct v as [data loaded dirty ty imm]. simpl in *.
  destruct loaded; simpl; [|discriminate].
  destruct dirty; simpl; [reflexivity|].
  destruct ty; destruct data as [| | | |[| | |a|d|]]; try discriminate; intros Hwf;
    try reflexivity.
  - apply forallb_Forall_true in Hwf. specialize (IHa a eq_refl).
    unfold Array_IsDirty. destruct (arr_bDirty a); [reflexivity|]. simpl.
    rewrite (any_dirty_elem_existsb IsDirty (fun x => negb (all_clean x))).
    + rewrite existsb_negb_forallb. reflexivity.
    + on_elements IHa Hwf.
  - apply forallb_entries in Hwf. specialize (IHd d eq_refl).
    unfold Dictionary_IsDirty. destruct (dict_bDirty d); [reflexivity|]. simpl.
    rewrite (any_dirty_existsb IsDirty (fun x => negb (all_clean x))).
    + rewrite forallb_snd.
      rewrite (existsb_negb_forallb (fun kv : PdfName * PdfVariant => all_clean (snd kv))).
      reflexivity.
    + on_elements IHd Hwf.
Qed.

Lemma IsDirty_iff_some_flag_is_set_witness :
  well_formed dirty_nest = true /\ IsDirty dirty_nest = Ok (negb (all_clean dirty_nest)).
Proof.
  split; [reflexivity|]. apply IsDirty_iff_some_flag_is_set. reflexivity.
Defined.

Lemma SetDirty_false_erases (v : PdfVariant) :
  well_formed v = true -> SetDirty v false = Ok (erase_dirty v).
Proof.
  induction v as [v IHa IHd] using PdfVariant_elements_ind.
  destruct v as [data loaded dirty ty imm]. simpl in *.
  destruct loaded; simpl; [|discriminate].
  destruct ty; destruct data as [| | | |[| | |a|d|]]; try discriminate; intros Hwf;
    try reflexivity.
  - apply forallb_Forall_true in Hwf. specialize (IHa a eq_refl).
    unfold Array_SetDirty. simpl.
    rewrite (set_dirty_elems_map SetDirty erase_dirty); [reflexivity|].
    on_elements IHa Hwf.
  - apply forallb_entries in Hwf. specialize (IHd d eq_refl).
    unfold Dictionary_SetDirty. simpl.
    rewrite (set_dirty_all_map SetDirty erase_dirty); [reflexivity|].
    on_elements IHd Hwf.
Qed.

Lemma erase_dirty_clean (v : PdfVariant) :
  well_formed v = true -> well_formed (erase_dirty v) = true /\ all_clean (erase_dirty v) = true.
Proof.
  intros Hwf. destruct (SetDirty_false_clears v Hwf) as (v' & Hv' & Hwf' & Hclean).
  rewrite (SetDirty_false_erases v Hwf) in Hv'. injection Hv' as <-. split; assumption.
Qed.

(** X18.  [SetDirty(false)] on a variant whose payload is that of its type
    clears every dirty flag in it and changes nothing else, after which
    [IsDirty] is [false]; [SetDirty(true)] sets the flag of the variant
    itself and leaves those inside alone, after which [IsDirty] is [true]. *)
Theorem SetDirty_false_is_deep_true_is_shallow (v : PdfVariant) :
  well_formed v = true ->
  SetDirty v false = Ok (erase_dirty v)
  /\ IsDirty (erase_dirty v) = Ok false
  /\ SetDirty v true = Ok (with_dirty v true)
  /\ IsDirty (with_dirty v true) = Ok true
  /\ m_Data (with_dirty v true) = m_Data v.
Proof.
  intros Hwf. split; [apply SetDirty_false_erases; exact Hwf|].
  split; [apply IsDirty_all_clean, erase_dirty_clean; exact Hwf|].
  destruct v; repeat split.
Qed.

Lemma SetDirty_false_is_deep_true_is_shallow_witness :
  well_formed dirty_nest = true
  /\ SetDirty dirty_nest false = Ok (erase_dirty dirty_nest)
  /\ IsDirty (erase_dirty dirty_nest) = Ok false.
Proof.
  split; [reflexivity|].
  destruct (SetDirty_false_is_deep_true_is_shallow dirty_nest eq_refl) as (H1 & H2 & _).
  split; assumption.
Defined.








End Flags.

(** ** The dictionary as a map *)

Section DictionaryMap.
Import Variant Spec.

Lemma name_lt_trans (a b c : PdfName) :
  String.ltb a b = true -> String.ltb b c = true -> String.ltb a c = true.
Proof.
  unfold String.ltb. intros Hab Hbc.
  destruct (String.compare a b) eqn:Eab; try discriminate.
  destruct (String.compare b c) eqn:Ebc; try discriminate.
  apply OrderedTypeEx.String_as_OT.cmp_lt in Eab, Ebc.
  pose proof (OrderedTypeEx.String_as_OT.lt_trans _ _ _ Eab Ebc) as Hac.
  apply OrderedTypeEx.String_as_OT.cmp_lt in Hac.
  unfold OrderedTypeEx.String_as_OT.cmp in Hac. rewrite Hac. reflexivity.
Qed.

Lemma name_lt_ne (a b : PdfName) : String.ltb a b = true -> String.eqb b a = false.
Proof.
  unfold String.ltb. intros H. apply String.eqb_neq. intros ->.
  destruct (String.compare a a) eqn:E; try discriminate.
  pose proof (String.compare_antisym a a) as H'. rewrite E in H'. discriminate.
Qed.

(** Of two names, one is before the other, or they are the same. *)
Lemma name_lt_total (a b : PdfName) :
  String.ltb a b = false -> String.eqb a b = false -> String.ltb b a = true.
Proof.
  unfold String.ltb. intros Hlt Hne.
  destruct (String.compare a b) eqn:E; try discriminate.
  - apply String.compare_eq_iff in E. subst. rewrite String.eqb_refl in Hne. discriminate.
  - rewrite String.compare_antisym, E. reflexivity.
Qed.

Section Entries.
Context {A : Type}.
Implicit Types (m : list (PdfName * A)) (key : PdfName) (v : A).

Lemma map_find_below key m :
  Forall (fun k => String.ltb key k = true) (map fst m) -> map_find key m = None.
Proof.
  induction m as [|[k w] m IH]; simpl; [reflexivity|].
  intros H. apply Forall_cons in H. destruct H as [Hk H].
  rewrite (name_lt_ne _ _ Hk). apply IH, H.
Qed.

Lemma map_insert_keys key v m (x : PdfName) :
  x ∈ map fst (fst (map_insert key v m)) <-> x = key \/ x ∈ map fst m.
Proof.
  induction m as [|[k w] m IH]; simpl.
  - rewrite elem_of_cons. tauto.
  - destruct (String.ltb key k); simpl.
    + rewrite !elem_of_cons. tauto.
    + destruct (String.eqb_spec key k) as [->|Hne]; simpl.
      * rewrite !elem_of_cons. tauto.
      * destruct (map_insert key v m) as [rest' inserted]. simpl in *.
        rewrite !elem_of_cons, IH. tauto.
Qed.

Lemma map_insert_sorted key v m :
  StronglySorted name_lt (map fst m) ->
  StronglySorted name_lt (map fst (fst (map_insert key v m))).
Proof.
  induction m as [|[k w] m IH]; simpl; intros Hs.
  - repeat constructor.
  - apply StronglySorted_inv in Hs. destruct Hs as [Hs Hall].
    destruct (String.ltb key k) eqn:Elt; simpl.
    + constructor; [constructor; assumption|].
      constructor; [assumption|].
      eapply Forall_impl; [exact Hall|]. unfold name_lt. intros a Ha.
      eapply name_lt_trans; eassumption.
    + destruct (String.eqb key k) eqn:Eeq; simpl.
      * constructor; assumption.
      * pose proof (map_insert_keys key v m) as Hkeys.
        destruct (map_insert key v m) as [rest' inserted]. simpl in *.
        constructor; [apply IH, Hs|].
        rewrite Forall_forall in *. intros x Hx. apply Hkeys in Hx.
        destruct Hx as [->|Hx]; [apply name_lt_total; assumption | apply Hall, Hx].
Qed.

(** On a sorted map, the insertion goes in exactly when the key is new. *)
Lemma map_insert_flag key v m :
  StronglySorted name_lt (map fst m) ->
  snd (map_insert key v m) = match map_find key m with Some _ => false | None => true end.
Proof.
  induction m as [|[k w] m IH]; simpl; intros Hs; [reflexivity|].
  apply StronglySorted_inv in Hs. destruct Hs as [Hs Hall].
  destruct (String.ltb key k) eqn:Elt; simpl.
  - rewrite (name_lt_ne _ _ Elt).
    rewrite map_find_below; [reflexivity|].
    eapply Forall_impl; [exact Hall|]. unfold name_lt. intros a Ha.
    eapply name_lt_trans; eassumption.
  - rewrite (String.eqb_sym k key).
    destruct (String.eqb key k) eqn:Eeq; simpl; [reflexivity|].
    specialize (IH Hs). destruct (map_insert key v m) as [rest' inserted]. exact IH.
Qed.

Lemma map_insert_new key v m :
  snd (map_insert key v m) = true ->
  map_find key (fst (map_insert key v m)) = Some v
  /\ length (fst (map_insert key v m)) = S (length m).
Proof.
  induction m as [|[k w] m IH]; simpl.
  - rewrite String.eqb_refl. auto.
  - destruct (String.ltb key k) eqn:Elt; simpl.
    + rewrite String.eqb_refl. auto.
    + destruct (String.eqb key k) eqn:Eeq; simpl; [discriminate|].
      destruct (map_insert key v m) as [rest' inserted]. simpl in *.
      rewrite (String.eqb_sym k key), Eeq. intros H. destruct (IH H) as [-> ->]. auto.
Qed.

Lemma map_insert_old key v m :
  snd (map_insert key v m) = false -> fst (map_insert key v m) = m.
Proof.
  induction m as [|[k w] m IH]; simpl; [discriminate|].
  destruct (String.ltb key k); simpl; [discriminate|].
  destruct (String.eqb key k); simpl; [reflexivity|].
  destruct (map_insert key v m) as [rest' inserted]. simpl in *.
  intros H. rewrite (IH H). reflexivity.
Qed.

Lemma map_insert_other key key' v m :
  key' <> key -> map_find key' (fst (map_insert key v m)) = map_find key' m.
Proof.
  intros Hne. induction m as [|[k w] m IH]; simpl.
  - destruct (String.eqb_spec key key'); [congruence | reflexivity].
  - destruct (String.ltb key k); simpl.
    + destruct (String.eqb_spec key key'); [congruence | reflexivity].
    + destruct (String.eqb key k); simpl; [reflexivity|].
      destruct (map_insert key v m) as [rest' inserted]. simpl in *.
      rewrite IH. reflexivity.
Qed.

Lemma map_store_other key key' v m :
  key' <> key -> map_find key' (map_store key v m) = map_find key' m.
Proof.
  intros Hne. induction m as [|[k w] m IH]; simpl; [reflexivity|].
  destruct (String.eqb_spec k key) as [->|Hk]; simpl.
  - destruct (String.eqb_spec key key'); [congruence | reflexivity].
  - rewrite IH. reflexivity.
Qed.

Lemma map_store_keys key v m : map fst (map_store key v m) = map fst m.
Proof.
  induction m as [|[k w] m IH]; simpl; [reflexivity|].
  destruct (String.eqb k key); simpl; [reflexivity | rewrite IH; reflexivity].
Qed.

Lemma map_erase_other key key' m :
  key' <> key -> map_find key' (map_erase key m) = map_find key' m.
Proof.
  intros Hne. induction m as [|[k w] m IH]; simpl; [reflexivity|].
  destruct (String.eqb_spec k key) as [->|Hk]; simpl.
  - destruct (String.eqb_spec key key'); [congruence | reflexivity].
  - rewrite IH. reflexivity.
Qed.

Lemma map_erase_sorted key m :
  StronglySorted name_lt (map fst m) -> StronglySorted name_lt (map fst (map_erase key m)).
Proof.
  induction m as [|[k w] m IH]; simpl; intros Hs; [constructor|].
  apply StronglySorted_inv in Hs. destruct Hs as [Hs Hall].
  destruct (String.eqb k key); simpl; [exact Hs|].
  constructor; [apply IH, Hs|].
  rewrite Forall_forall in *. intros x Hx. apply Hall.
  clear -Hx. induction m as [|[k' w'] m IH]; simpl in *; [inversion Hx|].
  destruct (String.eqb k' key); simpl in *.
  - right. exact Hx.
  - apply elem_of_cons in Hx. destruct Hx as [->|Hx]; [left | right; apply IH, Hx].
Qed.

Lemma map_erase_gone key m :
  StronglySorted name_lt (map fst m) -> map_find key (map_erase key m) = None.
Proof.
  induction m as [|[k w] m IH]; simpl; intros Hs; [reflexivity|].
  apply StronglySorted_inv in Hs. destruct Hs as [Hs Hall].
  destruct (String.eqb_spec k key) as [->|Hk]; simpl.
  - apply map_find_below. exact Hall.
  - destruct (String.eqb_spec k key); [contradiction|]. apply IH, Hs.
Qed.

Lemma map_erase_length key m :
  map_find key m <> None -> S (length (map_erase key m)) = length m.
Proof.
  induction m as [|[k w] m IH]; simpl; [congruence|].
  destruct (String.eqb k key); simpl; [reflexivity|].
  intros H. rewrite (IH H). reflexivity.
Qed.

Variables CopyA AssignA : A -> outcome A.

Lemma AddKey_entries (d d' : PdfDictionary A) (identifier : PdfName) (rObject : A) :
  keys_sorted d ->
  AddKey CopyA AssignA d identifier rObject = Ok d' ->
  keys_sorted d'
  /\ dict_bDirty d' = true
  /\ dict_bImmutable d = false /\ dict_bImmutable d' = false
  /\ HasKey d' identifier = true
  /\ (forall key, key <> identifier ->
        map_find key (m_mapKeys d') = map_find key (m_mapKeys d))
  /\ (HasKey d identifier = false ->
        length (m_mapKeys d') = S (length (m_mapKeys d))
        /\ exists paired node,
             CopyA rObject = Ok paired /\ CopyA paired = Ok node
             /\ map_find identifier (m_mapKeys d') = Some node)
  /\ (HasKey d identifier = true ->
        length (m_mapKeys d') = length (m_mapKeys d)
        /\ exists assigned,
             AssignA rObject = Ok assigned
             /\ map_find identifier (m_mapKeys d') = Some assigned).
Proof.
  unfold keys_sorted, AddKey, Dictionary_AssertMutable, HasKey. intros Hs H.
  destruct (dict_bImmutable d) eqn:Himm; [discriminate|]. simpl in H.
  inv_bind H. rename x into paired. inv_bind H. rename x into node.
  pose proof (map_insert_sorted identifier node (m_mapKeys d) Hs) as Hs'.
  pose proof (map_insert_flag identifier node (m_mapKeys d) Hs) as Hflag.
  pose proof (map_insert_new identifier node (m_mapKeys d)) as Hnew.
  pose proof (map_insert_old identifier node (m_mapKeys d)) as Hold.
  pose proof (fun key => map_insert_other identifier key node (m_mapKeys d)) as Hother.
  destruct (map_insert identifier node (m_mapKeys d)) as [keys inserted]. simpl in *.
  destruct inserted; simpl in H.
  - injection H as <-. simpl.
    destruct (Hnew eq_refl) as [Hfound Hlen].
    destruct (map_find identifier (m_mapKeys d)); [discriminate|].
    rewrite Hfound.
    refine (conj Hs' (conj eq_refl (conj eq_refl (conj eq_refl (conj eq_refl
              (conj Hother (conj _ _))))))); [|discriminate].
    intros _. split; [exact Hlen|]. exists paired, node. auto.
  - inv_bind H. rename x into keys'. injection H as <-.
    inv_bind Hx1. rename x into assigned. injection Hx1 as <-. simpl.
    rewrite (Hold eq_refl) in *.
    destruct (map_find identifier (m_mapKeys d)) as [old|] eqn:Efind; [|discriminate].
    rewrite map_store_keys.
    rewrite (map_find_store identifier assigned) by congruence.
    refine (conj Hs (conj eq_refl (conj eq_refl (conj eq_refl (conj eq_refl
              (conj _ (conj _ _))))))); [| discriminate |].
    + intros key Hne. apply map_store_other. exact Hne.
    + intros _. split; [|exists assigned; auto].
      rewrite <- (length_map fst (map_store _ _ _)), map_store_keys, length_map.
      reflexivity.
Qed.

Lemma RemoveKey_Clear_cases (d : PdfDictionary A) (identifier : PdfName) :
  keys_sorted d ->
  (dict_bImmutable d = true ->
   RemoveKey d identifier = Raise ChangeOnImmutable
   /\ Dictionary_Clear d = Raise ChangeOnImmutable)
  /\ (dict_bImmutable d = false ->
      (HasKey d identifier = false -> RemoveKey d identifier = Ok (d, false))
      /\ (HasKey d identifier = true ->
          exists d', RemoveKey d identifier = Ok (d', true)
                     /\ keys_sorted d' /\ dict_bDirty d' = true
                     /\ HasKey d' identifier = false
                     /\ S (length (m_mapKeys d')) = length (m_mapKeys d)
                     /\ forall key, key <> identifier ->
                          map_find key (m_mapKeys d') = map_find key (m_mapKeys d))
      /\ (m_mapKeys d = [] -> Dictionary_Clear d = Ok d)
      /\ (m_mapKeys d <> [] ->
          Dictionary_Clear d = Ok (mkDictionary [] true false))).
Proof.
  unfold keys_sorted, RemoveKey, Dictionary_Clear, Dictionary_AssertMutable, HasKey.
  intros Hs. split; intros Himm; rewrite Himm; simpl; [split; reflexivity|].
  split; [|split; [|split]].
  - destruct (map_find identifier (m_mapKeys d)); [discriminate | reflexivity].
  - destruct (map_find identifier (m_mapKeys d)) eqn:Efind; [|discriminate]. intros _.
    eexists. split; [reflexivity|]. simpl.
    split; [apply map_erase_sorted, Hs|]. split; [reflexivity|].
    split; [rewrite (map_erase_gone identifier _ Hs); reflexivity|].
    split; [apply map_erase_length; congruence|].
    intros key Hne. apply map_erase_other. exact Hne.
  - intros ->. reflexivity.
  - destruct (m_mapKeys d); [congruence | reflexivity].
Qed.

(** X20.  [AddKey] on a dictionary with its keys in order: the keys stay
    in order, the dictionary is dirty, the key is there, the other keys
    have what they had.  Under a new key the dictionary holds a copy of a
    copy of the object and has one entry more; under a key it had, it
    holds what the assignment of the object gives, in place of the
    entry. *)
Theorem AddKey_adds_or_replaces (d d' : PdfDictionary A) (identifier : PdfName) (rObject : A) :
  keys_sorted d ->
  AddKey CopyA AssignA d identifier rObject = Ok d' ->
  keys_sorted d'
  /\ dict_bDirty d' = true
  /\ dict_bImmutable d = false /\ dict_bImmutable d' = false
  /\ HasKey d' identifier = true
  /\ (forall key, key <> identifier ->
        map_find key (m_mapKeys d') = map_find key (m_mapKeys d))
  /\ (HasKey d identifier = false ->
        length (m_mapKeys d') = S (length (m_mapKeys d))
        /\ exists paired node,
             CopyA rObject = Ok paired /\ CopyA paired = Ok node
             /\ map_find identifier (m_mapKeys d') = Some node)
  /\ (HasKey d identifier = true ->
        length (m_mapKeys d') = length (m_mapKeys d)
        /\ exists assigned,
             AssignA rObject = Ok assigned
             /\ map_find identifier (m_mapKeys d') = Some assigned).
Proof. apply AddKey_entries. Qed.

(** X21.  The mutators that find nothing to do leave the dictionary as it
    is, its dirty flag too: [RemoveKey] of a key it has not, and [Clear] of
    an empty dictionary; both refuse an immutable dictionary all the same.
    [RemoveKey] of a key it has takes the key out, leaves the other keys
    and their order, and makes the dictionary dirty; [Clear] of a
    dictionary that is not empty empties it and makes it dirty. *)
Theorem RemoveKey_and_Clear (d : PdfDictionary A) (identifier : PdfName) :
  keys_sorted d ->
  (dict_bImmutable d = true ->
   RemoveKey d identifier = Raise ChangeOnImmutable
   /\ Dictionary_Clear d = Raise ChangeOnImmutable)
  /\ (dict_bImmutable d = false ->
      (HasKey d identifier = false -> RemoveKey d identifier = Ok (d, false))
      /\ (HasKey d identifier = true ->
          exists d', RemoveKey d identifier = Ok (d', true)
                     /\ keys_sorted d' /\ dict_bDirty d' = true
                     /\ HasKey d' identifier = false
                     /\ S (length (m_mapKeys d')) = length (m_mapKeys d)
                     /\ forall key, key <> identifier ->
                          map_find key (m_mapKeys d') = map_find key (m_mapKeys d))
      /\ (m_mapKeys d = [] -> Dictionary_Clear d = Ok d)
      /\ (m_mapKeys d <> [] ->
          Dictionary_Clear d = Ok (mkDictionary [] true false))).
Proof. apply RemoveKey_Clear_cases. Qed.

End Entries.


Lemma AddKey_adds_or_replaces_witness :
  keys_sorted dict_A1
  /\ AddKey PdfVariant_copy PdfVariant_assign dict_A1 name_B (PdfVariant_number 2)
     = Ok dict_A1_B2
  /\ keys_sorted dict_A1_B2
  /\ HasKey dict_A1_B2 name_B = true
  /\ length (m_mapKeys dict_A1_B2) = S (length (m_mapKeys dict_A1)).
Proof.
  assert (Hs : keys_sorted dict_A1) by (unfold keys_sorted; simpl; repeat constructor).
  assert (E : AddKey PdfVariant_copy PdfVariant_assign dict_A1 name_B (PdfVariant_number 2)
              = Ok dict_A1_B2) by reflexivity.
  destruct (AddKey_adds_or_replaces PdfVariant_copy PdfVariant_assign dict_A1 dict_A1_B2
              name_B (PdfVariant_number 2) Hs E)
    as (H1 & _ & _ & _ & H2 & _ & H3 & _).
  split; [exact Hs|]. split; [exact E|]. split; [exact H1|]. split; [exact H2|].
  exact (proj1 (H3 eq_refl)).
Defined.

Lemma RemoveKey_and_Clear_witness :
  keys_sorted dict_A1_B2
  /\ RemoveKey dict_A1_B2 name_B = Ok (mkDictionary [(name_A, PdfVariant_number 1)] true false, true)
  /\ (exists d', RemoveKey dict_A1_B2 name_B = Ok (d', true) /\ HasKey d' name_B = false)
  /\ RemoveKey dict_A1 name_B = Ok (dict_A1, false).
Proof.
  assert (Hs : keys_sorted dict_A1_B2)
    by (unfold keys_sorted; simpl; repeat constructor).
  split; [exact Hs|]. split; [reflexivity|].
  destruct (RemoveKey_and_Clear dict_A1_B2 name_B Hs) as (_ & H).
  destruct (H eq_refl) as (_ & Hhas & _).
  destruct (Hhas eq_refl) as (d' & Hd' & _ & _ & Hgone & _).
  split; [exists d'; split; assumption|]. reflexivity.
Defined.



End DictionaryMap.

(** ** Typed lookups, the walk to the parents, and the writer of a dictionary *)

Section Lookups.
Import Variant Spec.

(** X23.  The typed lookups of a dictionary give the default when the key
    is not found, which is always so for the empty key, and when the value
    is of another type; they never raise [InvalidDataType].  An integer is
    read as a real by [GetKeyAsReal], a real is not read as an integer by
    [GetKeyAsLong]. *)
Theorem typed_lookups_fall_back (d : PdfDictionary PdfVariant) (key : PdfName)
    (lDefault : Z) (dDefault : spec_float) (bDefault : bool) :
  (getKey d key = None ->
     GetKeyAsLong d key lDefault = Ok lDefault
     /\ GetKeyAsReal d key dDefault = Ok dDefault
     /\ GetKeyAsBool d key bDefault = Ok bDefault
     /\ GetKeyAsName d key = Ok EmptyString)
  /\ (GetKeyAsLong d EmptyString lDefault = Ok lDefault
      /\ GetKeyAsReal d EmptyString dDefault = Ok dDefault
      /\ GetKeyAsBool d EmptyString bDefault = Ok bDefault
      /\ GetKeyAsName d EmptyString = Ok EmptyString)
  /\ (forall pObject, getKey d key = Some pObject -> well_formed pObject = true ->
        (m_eDataType pObject <> ePdfDataType_Number ->
         GetKeyAsLong d key lDefault = Ok lDefault)
        /\ (m_eDataType pObject <> ePdfDataType_Number ->
            m_eDataType pObject <> ePdfDataType_Real ->
            GetKeyAsReal d key dDefault = Ok dDefault)
        /\ (m_eDataType pObject <> ePdfDataType_Bool ->
            GetKeyAsBool d key bDefault = Ok bDefault)
        /\ (m_eDataType pObject <> ePdfDataType_Name ->
            GetKeyAsName d key = Ok EmptyString)
        /\ (forall n, m_Data pObject = nNumber n ->
              GetKeyAsLong d key lDefault = Ok n
              /\ GetKeyAsReal d key dDefault = Ok (long_to_double n))
        /\ (forall x, m_Data pObject = dNumber x ->
              GetKeyAsLong d key lDefault = Ok lDefault
              /\ GetKeyAsReal d key dDefault = Ok x)
        /\ (forall b, m_Data pObject = bBoolValue b -> GetKeyAsBool d key bDefault = Ok b)
        /\ (forall name, m_Data pObject = pData (DataName name) ->
              GetKeyAsName d key = Ok name))
  /\ GetKeyAsLong d key lDefault <> Raise InvalidDataType
  /\ GetKeyAsReal d key dDefault <> Raise InvalidDataType
  /\ GetKeyAsBool d key bDefault <> Raise InvalidDataType
  /\ GetKeyAsName d key <> Raise InvalidDataType.
Proof.
  unfold GetKeyAsLong, GetKeyAsReal, GetKeyAsBool, GetKeyAsName, GetKey.
  split; [intros ->; repeat split|]. split; [repeat split|]. split.
  - intros pObject -> Hwf.
    destruct pObject as [data loaded dirty ty imm]. simpl in Hwf.
    destruct loaded; simpl in Hwf; [|discriminate]. simpl.
    destruct ty; destruct data as [| | | |[| | | | |]]; try discriminate;
      (split; [intros H; try reflexivity; congruence|]);
      (split; [intros H H'; try reflexivity; congruence|]);
      (split; [intros H; try reflexivity; congruence|]);
      (split; [intros H; try reflexivity; congruence|]);
      (split; [intros ? [=]; subst; split; reflexivity|]);
      (split; [intros ? [=]; subst; split; reflexivity|]);
      (split; [intros ? [=]; subst; reflexivity|]);
      intros ? [=]; subst; reflexivity.
  - destruct (getKey d key) as [pObject|]; [|repeat split; discriminate].
    destruct pObject as [data loaded dirty ty imm].
    destruct loaded; [|repeat split; discriminate].
    destruct ty; simpl; repeat split; try discriminate;
      destruct data as [| | | |[| | | | |]]; simpl; try discriminate;
      unfold GetNumber; simpl;
      match goal with
      | |- context [double_to_long ?x] => destruct (double_to_long x); discriminate
      | _ => idtac
      end.
Qed.

Section Parents.

Variable GetIndirectObject : PdfReference -> outcome (option PdfVariant).

Lemma GetReference_IsReference (obj : PdfVariant) (r : PdfReference) :
  GetReference obj = Ok r -> IsReference obj = Ok true.
Proof.
  destruct obj as [data loaded dirty ty imm]. destruct loaded; [|discriminate].
  destruct ty; try discriminate. reflexivity.
Qed.

Lemma GetDictionary_IsDictionary (obj : PdfVariant) (d : PdfDictionary PdfVariant) :
  GetDictionary obj = Ok d -> IsDictionary obj = Ok true.
Proof.
  destruct obj as [data loaded dirty ty imm]. destruct loaded; [|discriminate].
  destruct ty; try discriminate. reflexivity.
Qed.

(** X24.  [findKeyParent] gives the value the dictionary itself has for
    the key, when it has one that is not a reference; when it has none, it
    goes on in the dictionary of [/Parent].  Nothing keeps track of where
    it has been: in a dictionary without the key whose [/Parent] is a
    reference to an object with that same dictionary, the call never
    returns. *)
Theorem findKeyParent_walks_without_memory (d : PdfDictionary PdfVariant) (key : PdfName) :
  (forall fuel obj,
      getKey d key = Some obj -> IsReference obj = Ok false ->
      findKeyParent GetIndirectObject (S fuel) d key = Ok (Some obj))
  /\ (forall fuel parent parentDictionary,
        getKey d key = None ->
        getKey d KeyParent = Some parent -> IsReference parent = Ok false ->
        GetDictionary parent = Ok parentDictionary ->
        findKeyParent GetIndirectObject (S fuel) d key
        = findKeyParent GetIndirectObject fuel parentDictionary key)
  /\ (getKey d key = None -> getKey d KeyParent = None ->
      forall fuel, findKeyParent GetIndirectObject (S fuel) d key = Ok None)
  /\ (forall ref r parent,
        getKey d key = None ->
        getKey d KeyParent = Some ref -> GetReference ref = Ok r ->
        GetIndirectObject r = Ok (Some parent) -> GetDictionary parent = Ok d ->
        forall fuel, findKeyParent GetIndirectObject fuel d key = OutOfFuel).
Proof.
  split; [|split; [|split]].
  - intros fuel obj Hget Href. simpl. unfold findKey. rewrite Hget, Href. reflexivity.
  - intros fuel parent pd Hnone Hget Href Hdict. simpl. unfold findKey.
    rewrite Hnone, Hget, Href. simpl.
    rewrite (GetDictionary_IsDictionary _ _ Hdict). simpl. rewrite Hdict. reflexivity.
  - intros Hnone Hparent fuel. simpl. unfold findKey. rewrite Hnone, Hparent. reflexivity.
  - intros ref r parent Hnone Hget Href Hind Hdict fuel.
    induction fuel as [|fuel IH]; [reflexivity|].
    simpl. unfold findKey. rewrite Hnone, Hget. simpl.
    rewrite (GetReference_IsReference _ _ Href). simpl. rewrite Href. simpl.
    rewrite Hind. simpl.
    rewrite (GetDictionary_IsDictionary _ _ Hdict). simpl. rewrite Hdict. simpl.
    exact IH.
Qed.

End Parents.

Lemma findKeyParent_walks_without_memory_witness :
  getKey own_parent name_A = None
  /\ getKey own_parent KeyParent = Some (PdfVariant_reference (mkReference 1 0))
  /\ resolve_own_parent (mkReference 1 0) = Ok (Some own_parent_object)
  /\ GetDictionary own_parent_object = Ok own_parent
  /\ forall fuel, findKeyParent resolve_own_parent fuel own_parent name_A = OutOfFuel.
Proof.
  split; [reflexivity|]. split; [reflexivity|]. split; [reflexivity|].
  split; [reflexivity|].
  exact (proj2 (proj2 (proj2
           (findKeyParent_walks_without_memory resolve_own_parent own_parent name_A)))
           (PdfVariant_reference (mkReference 1 0)) (mkReference 1 0) own_parent_object
           eq_refl eq_refl eq_refl eq_refl eq_refl).
Defined.

End Lookups.

Section WriterOfDictionaries.
Import Variant Spec.

Context {A : Type}.
Variable KeyNull : PdfName.
Variable KeyType : PdfName.
Variable WriteName : PdfName -> Z -> outcome (list ascii).
Variable WriteObject : A -> Z -> outcome (list ascii).

Lemma stops_at_KeyNull (key : PdfName) : stops_at KeyNull KeyNull key = false.
Proof. unfold stops_at. rewrite String.eqb_refl. reflexivity. Qed.

(** What has gone to the device stays at the front of what is written. *)
Lemma write_keys_extends (eWriteMode : Z) (keyStop : PdfName) (itKeys : list (PdfName * A)) :
  forall out out',
    write_keys KeyNull KeyType WriteName WriteObject itKeys eWriteMode keyStop out = Ok out' ->
    out `prefix_of` out'.
Proof.
  induction itKeys as [|[first second] itKeys IH]; simpl; intros out out' H.
  - injection H as <-. apply prefix_app_r. reflexivity.
  - destruct (negb (String.eqb first KeyType)); [|apply IH, H].
    destruct (stops_at KeyNull keyStop first); [injection H as <-; reflexivity|].
    inv_bind H. inv_bind H. apply IH in H.
    etransitivity; [|exact H]. apply prefix_app_r. reflexivity.
Qed.

(** Written to the end, the dictionary is closed. *)
Lemma write_keys_closes (eWriteMode : Z) (itKeys : list (PdfName * A)) :
  forall out out',
    write_keys KeyNull KeyType WriteName WriteObject itKeys eWriteMode KeyNull out = Ok out' ->
    chars ">>" `suffix_of` out' /\ (length out + 2 <= length out')%nat.
Proof.
  induction itKeys as [|[first second] itKeys IH]; simpl; intros out out' H.
  - injection H as <-. split; [apply suffix_app_r; reflexivity|].
    rewrite length_app. simpl. lia.
  - destruct (negb (String.eqb first KeyType)); [|apply IH, H].
    rewrite stops_at_KeyNull in H.
    inv_bind H. inv_bind H. apply IH in H. destruct H as [Hs Hl].
    split; [exact Hs|]. rewrite !length_app in Hl. lia.
Qed.

(** The keys that the loop stops at, for the stop key [keyStop]. *)
Lemma write_keys_stop (eWriteMode : Z) (keyStop : PdfName) (itKeys : list (PdfName * A)) :
  forall out full,
    write_keys KeyNull KeyType WriteName WriteObject itKeys eWriteMode KeyNull out = Ok full ->
    exists out',
      write_keys KeyNull KeyType WriteName WriteObject itKeys eWriteMode keyStop out = Ok out'
      /\ out' `prefix_of` full
      /\ (existsb (fun kv => negb (String.eqb (fst kv) KeyType)
                             && stops_at KeyNull keyStop (fst kv)) itKeys = false ->
          out' = full)
      /\ (existsb (fun kv => negb (String.eqb (fst kv) KeyType)
                             && stops_at KeyNull keyStop (fst kv)) itKeys = true ->
          (length out' + 2 <= length full)%nat).
Proof.
  induction itKeys as [|[first second] itKeys IH]; intros out full H.
  - exists full. split; [exact H|]. split; [reflexivity|]. split; [reflexivity | discriminate].
  - pose proof (write_keys_extends eWriteMode KeyNull ((first, second) :: itKeys) out full H)
      as Hext.
    simpl in H |- *.
    destruct (negb (String.eqb first KeyType)); simpl; [|apply IH, H].
    rewrite stops_at_KeyNull in H.
    destruct (stops_at KeyNull keyStop first); simpl.
    + exists out. split; [reflexivity|]. split; [exact Hext|].
      split; [discriminate|]. intros _.
      inv_bind H. inv_bind H. apply write_keys_closes in H.
      rewrite !length_app in H. lia.
    + inv_bind H. rewrite Hx. simpl. inv_bind H. rewrite Hx0. simpl. apply IH, H.
Qed.

(** X25.  [PdfDictionary::Write] with a stop key writes the beginning of
    what it writes without one.  Without a stop key the output begins with
    the opening brackets and ends with the closing ones.  With a stop key
    that is met (a name other than the null name and the empty one that is
    [/Type] or a key of the dictionary other than [/Type]), the output
    ends before that key and the closing brackets are not written; with
    one that is not met, it is the whole output. *)
Theorem Dictionary_Write_stops_short (d : PdfDictionary A) (eWriteMode : Z)
    (keyStop : PdfName) (full : list ascii) :
  Dictionary_Write KeyNull KeyType WriteName WriteObject d eWriteMode KeyNull = Ok full ->
  (if is_clean eWriteMode then chars "<<" ++ newline else chars "<<") `prefix_of` full
  /\ chars ">>" `suffix_of` full
  /\ exists out,
       Dictionary_Write KeyNull KeyType WriteName WriteObject d eWriteMode keyStop = Ok out
       /\ out `prefix_of` full
       /\ (stops_at KeyNull keyStop KeyType
           || existsb (fun kv => negb (String.eqb (fst kv) KeyType)
                                 && stops_at KeyNull keyStop (fst kv)) (m_mapKeys d) = false ->
           out = full)
       /\ (stops_at KeyNull keyStop KeyType
           || existsb (fun kv => negb (String.eqb (fst kv) KeyType)
                                 && stops_at KeyNull keyStop (fst kv)) (m_mapKeys d) = true ->
           (length out + 2 <= length full)%nat).
Proof.
  unfold Dictionary_Write. rewrite stops_at_KeyNull. intros H.
  inv_bind H. rename x into out1.
  pose proof (write_keys_extends _ _ _ _ _ H) as Hext.
  pose proof (write_keys_closes _ _ _ _ H) as [Hclose Hlen].
  assert (Hopen : (if is_clean eWriteMode then chars "<<" ++ newline else chars "<<")
                    `prefix_of` out1).
  { destruct (HasKey d KeyType); [|injection Hx as <-; reflexivity].
    destruct (GetKey d KeyType); [|discriminate].
    inv_bind Hx. injection Hx as <-. apply prefix_app_r. reflexivity. }
  split; [etransitivity; eassumption|]. split; [exact Hclose|].
  destruct (stops_at KeyNull keyStop KeyType); cbn [orb].
  - eexists. split; [reflexivity|]. split; [etransitivity; eassumption|].
    split; [discriminate|]. intros _.
    apply prefix_length in Hopen. destruct (is_clean eWriteMode); simpl in *; lia.
  - rewrite Hx. simpl. apply write_keys_stop. exact H.
Qed.

End WriterOfDictionaries.

Section WriterWitness.
Import Variant Spec.

Lemma Dictionary_Write_stops_short_witness :
  Dictionary_Write EmptyString name_Type slash_name write_plain typed_dictionary
                   ePdfWriteMode_Compact EmptyString
  = Ok (chars "<</Type 3/A 1/B 2>>")
  /\ Dictionary_Write EmptyString name_Type slash_name write_plain typed_dictionary
                      ePdfWriteMode_Compact name_B
     = Ok (chars "<</Type 3/A 1")
  /\ exists out,
       Dictionary_Write EmptyString name_Type slash_name write_plain typed_dictionary
                        ePdfWriteMode_Compact name_B = Ok out
       /\ out `prefix_of` chars "<</Type 3/A 1/B 2>>".
Proof.
  split; [reflexivity|]. split; [reflexivity|].
  destruct (Dictionary_Write_stops_short EmptyString name_Type slash_name write_plain
              typed_dictionary ePdfWriteMode_Compact name_B
              (chars "<</Type 3/A 1/B 2>>") eq_refl)
    as (_ & _ & out & Hout & Hprefix & _).
  exists out. split; assumption.
Defined.

End WriterWitness.

(** ** The tables of the font program *)

Section Tables.
Import TrueTypeSubset Fixture Spec.

Lemma GetTableOffset_missing (tables : list TrueTypeTable) (tag : Z) :
  GetTableOffset tables tag = Raise InternalLogic
  <-> Forall (fun t => Tag t <> tag) tables.
Proof.
  induction tables as [|t tables IH]; simpl.
  - split; [constructor | reflexivity].
  - destruct (Z.eqb_spec (Tag t) tag) as [E|E].
    + split; [discriminate|]. intros H. apply Forall_inv in H. contradiction.
    + rewrite IH. split; [constructor; assumption | apply Forall_inv_tail].
Qed.

Lemma GetTableOffset_found (tables : list TrueTypeTable) (tag off : Z) :
  GetTableOffset tables tag = Ok off
  <-> exists pre t post,
        tables = pre ++ t :: post /\ Forall (fun t => Tag t <> tag) pre
        /\ Tag t = tag /\ Offset t = off.
Proof.
  induction tables as [|t tables IH]; simpl.
  - split; [discriminate|]. intros (pre & t & post & H & _). destruct pre; discriminate.
  - destruct (Z.eqb_spec (Tag t) tag) as [E|E].
    + split.
      * intros [= <-]. exists [], t, tables. repeat split; [constructor | exact E].
      * intros (pre & t' & post & H & Hpre & Ht & Hoff). destruct pre as [|p pre].
        -- injection H as -> ->. rewrite Hoff. reflexivity.
        -- injection H as -> ->. apply Forall_inv in Hpre. contradiction.
    + rewrite IH. split.
      * intros (pre & t' & post & -> & Hpre & Ht & Hoff).
        exists (t :: pre), t', post. repeat split; [constructor|..]; assumption.
      * intros (pre & t' & post & H & Hpre & Ht & Hoff). destruct pre as [|p pre].
        -- injection H as -> ->. contradiction.
        -- injection H as -> ->. exists pre, t', post.
           repeat split; [apply Forall_inv_tail in Hpre|..]; assumption.
Qed.

Lemma GetTableOffset_outcomes (tables : list TrueTypeTable) (tag : Z) :
  GetTableOffset tables tag = Raise InternalLogic
  \/ exists off, GetTableOffset tables tag = Ok off.
Proof.
  induction tables as [|t tables IH]; simpl; [left; reflexivity|].
  destruct (Tag t =? tag); [right; eauto | exact IH].
Qed.

(** X1.  [GetTableOffset] gives the offset of the first table of
    [m_tables] that has the tag, and raises [InternalLogic] exactly when no
    table has it; it does nothing else. *)
Theorem GetTableOffset_first_match (tables : list TrueTypeTable) (tag : Z) :
  (GetTableOffset tables tag = Raise InternalLogic
   <-> Forall (fun t => Tag t <> tag) tables)
  /\ (forall off,
        GetTableOffset tables tag = Ok off
        <-> exists pre t post,
              tables = pre ++ t :: post /\ Forall (fun t => Tag t <> tag) pre
              /\ Tag t = tag /\ Offset t = off)
  /\ (GetTableOffset tables tag = Raise InternalLogic
      \/ exists off, GetTableOffset tables tag = Ok off).
Proof.
  split; [apply GetTableOffset_missing|].
  split; [intros off; apply GetTableOffset_found | apply GetTableOffset_outcomes].
Qed.


(** The [switch] of [InitTables] keeps known tables only. *)
Lemma classify_table_known (tableMask : Z) (tbl : TrueTypeTable) :
  let '(_, skipTable, tbl') := classify_table tableMask tbl in
  skipTable = false ->
  Tag tbl' = Tag tbl /\ Checksum tbl' = Checksum tbl /\ Offset tbl' = Offset tbl
  /\ Tag tbl ∈ known_tags
  /\ (if Tag tbl =? TTAG_post then 32 <= Length tbl /\ Length tbl' = 32
      else Length tbl' = Length tbl).
Proof.
  unfold classify_table, known_tags.
  repeat match goal with
         | |- context [Tag tbl =? ?t] =>
             lazymatch t with
             | TTAG_post => fail
             | _ => destruct (Z.eqb_spec (Tag tbl) t) as [E|?];
                    [rewrite E; simpl; intros _; repeat split; set_solver|]
             end
         end.
  simpl. destruct (Z.eqb_spec (Tag tbl) TTAG_post) as [E|?]; [|discriminate].
  destruct (Z.ltb_spec (Length tbl) 32); [discriminate|].
  intros _. simpl. rewrite E. repeat split; [set_solver | lia].
Qed.

Lemma scan_entries_kept (dev : device) (n : nat) :
  forall i st st' hi,
    scan_entries dev n i st = Ok st' -> 0 <= i -> i + Z.of_nat n <= hi ->
    Forall (kept_table dev hi) (snd st) -> Forall (kept_table dev hi) (snd st').
Proof.
  induction n as [|n IH]; intros i st st' hi H Hi Hhi Hst; simpl in H.
  - injection H as <-. exact Hst.
  - inv_bind H. apply (IH _ _ _ hi H); [lia | lia|]. clear H IH.
    destruct st as [tableMask tables]. unfold scan_entry in Hx.
    unfold LENGTH_HEADER12, LENGTH_OFFSETTABLE16 in Hx.
    inv_bind Hx. inv_bind Hx. inv_bind Hx. inv_bind Hx.
    pose proof (classify_table_known tableMask (mkTable x0 x1 x3 x2)) as Hc.
    destruct (classify_table tableMask (mkTable x0 x1 x3 x2)) as [[tableMask' skipTable] tbl'].
    injection Hx as <-. simpl in *. destruct skipTable; [exact Hst|].
    apply Forall_app. split; [exact Hst|]. constructor; [|constructor].
    destruct (Hc eq_refl) as (Htag & Hchk & Hoff & Hknown & Hlen).
    split; [rewrite Htag; exact Hknown|]. exists i. split; [lia|].
    unfold directory_entry. rewrite Htag, Hchk, Hoff.
    split; [exact Hx0|]. split; [exact Hx1|]. split; [exact Hx2|].
    exists x3. split; [exact Hx3 | exact Hlen].
Qed.

Lemma InitTables_kept (dev : device) (tables : list TrueTypeTable) :
  InitTables dev = Ok tables ->
  exists tableCount,
    ReadUInt16BE dev 4 = Ok tableCount
    /\ Forall (kept_table dev tableCount) tables
    /\ Exists (fun t => required_bit (Tag t) <> 0) tables.
Proof.
  intros H. pose proof H as H0. unfold InitTables in H. change (4 * 1) with 4 in H.
  inv_bind H. rename x into tableCount. inv_bind H. destruct x as [tableMask tables'].
  assert (tables' = tables) as ->
    by (destruct (Z.land tableMask ReqTable_all =? ReqTable_none); congruence).
  exists tableCount. split; [exact Hx|]. split.
  - assert (0 <= tableCount).
    { unfold ReadUInt16BE in Hx. inv_bind Hx. injection Hx as <-. apply be_combine_nonneg. }
    apply (scan_entries_kept dev _ _ _ _ tableCount Hx0); [lia | lia | constructor].
  - apply (InitTables_refuses_iff_none dev tableCount tableMask tables Hx Hx0). exact H0.
Qed.

(** X2.  The tables that [InitTables] keeps are entries of the table
    directory of the font program, with the tag, the checksum, the offset
    and the length the directory gives, and each is one of the ten tables
    the subsetter knows; of a [post] table the length is put to 32, and one
    shorter than that is not kept.  One of the six required tables is among
    them. *)
Theorem InitTables_keeps_known_tables (dev : device) (tables : list TrueTypeTable) :
  InitTables dev = Ok tables ->
  exists tableCount,
    ReadUInt16BE dev 4 = Ok tableCount
    /\ Forall (kept_table dev tableCount) tables
    /\ Exists (fun t => required_bit (Tag t) <> 0) tables.
Proof. apply InitTables_kept. Qed.

Lemma InitTables_keeps_known_tables_witness :
  exists tables tableCount,
    InitTables closure_font = Ok tables
    /\ ReadUInt16BE closure_font 4 = Ok tableCount
    /\ Forall (kept_table closure_font tableCount) tables.
Proof.
  destruct (InitTables closure_font) as [tables| | |] eqn:E;
    [|vm_compute in E; discriminate..].
  destruct (InitTables_keeps_known_tables closure_font tables E)
    as (tableCount & H1 & H2 & _).
  exists tables, tableCount. split; [reflexivity|]. split; assumption.
Defined.

End Tables.

(** ** [BuildFont] as a whole: what it needs and how it fails *)

Section Errors.
Import TrueTypeSubset Fixture Spec.


















Section Loading.

Variable ctx : GlyphContext.








(** A call of the loader changes the map of the glyphs only. *)
Lemma load_frame (fuel : nat) :
  (forall this gid this',
      LoadGID fuel this ctx gid = Ok this' ->
      this' = set_glyphDatas this (m_glyphDatas this'))
  /\ (forall this data offset this',
        LoadCompound fuel this ctx data offset = Ok this' ->
        this' = set_glyphDatas this (m_glyphDatas this')).
Proof.
  induction fuel as [|fuel [IHg IHc]]; [split; intros; discriminate|]. split.
  - intros this gid this'. rewrite LoadGID_S.
    destruct (m_glyphCount this <=? gid); [discriminate|].
    destruct (gd_find gid (m_glyphDatas this));
      [intros [= <-]; apply set_glyphDatas_same|].
    cbv zeta. intros H. inv_bind H. inv_bind H.
    destruct (x0 <? 0).
    + apply IHc in H. rewrite H. reflexivity.
    + injection H as <-. reflexivity.
  - intros this data offset this'. rewrite LoadCompound_S. intros H.
    inv_bind H. inv_bind H. apply IHg in Hx0.
    destruct (TryAdvanceCompoundOffset offset (Flags x)) as [[|] offset'].
    + apply IHc in H. rewrite H, Hx0. reflexivity.
    + injection H as <-. exact Hx0.
Qed.



End Loading.















End Errors.

(** ** [BuildFont] comes to an end, and the glyphs of the subset are glyphs
    of the font *)

Section Ends.
Import TrueTypeSubset Fixture Spec.



















End Ends.

Section InRange.
Import TrueTypeSubset Fixture Spec.

Variable ctx : GlyphContext.

Lemma load_in_range (fuel : nat) :
  (forall this gid this',
      LoadGID fuel this ctx gid = Ok this' -> 0 <= gid ->
      keys_in_range (m_glyphCount this) (m_glyphDatas this) ->
      gid < m_glyphCount this
      /\ keys_in_range (m_glyphCount this) (m_glyphDatas this'))
  /\ (forall this data offset this',
        LoadCompound fuel this ctx data offset = Ok this' ->
        keys_in_range (m_glyphCount this) (m_glyphDatas this) ->
        keys_in_range (m_glyphCount this) (m_glyphDatas this')).
Proof.
  induction fuel as [|fuel [IHg IHc]]; [split; intros; discriminate|]. split.
  - intros this gid this'. rewrite LoadGID_S.
    destruct (Z.leb_spec (m_glyphCount this) gid) as [|Hlt]; [discriminate|].
    destruct (gd_find gid (m_glyphDatas this));
      [intros [= <-] Hgid Hr; split; assumption|].
    cbv zeta. intros H Hgid Hr. split; [exact Hlt|].
    inv_bind H. inv_bind H. rewrite ?m_glyphDatas_set, ?set_glyphDatas_twice in H.
    assert (Hput : forall v v',
               keys_in_range (m_glyphCount this)
                 (gd_put gid v (gd_put gid v' (m_glyphDatas this))))
      by (intros; repeat apply keys_in_range_put; auto; lia).
    destruct (x0 <? 0).
    + apply IHc in H; [exact H|]. simpl.
      apply keys_in_range_put; [lia | apply Hput].
    + injection H as <-. apply Hput.
  - intros this data offset this'. rewrite LoadCompound_S. intros H Hr.
    inv_bind H. inv_bind H.
    apply ReadGlyphCompoundData_inside in Hx. destruct Hx as (_ & _ & Hidx).
    pose proof (proj1 (load_frame ctx fuel) _ _ _ Hx0) as Hframe.
    destruct (IHg _ _ _ Hx0 Hidx Hr) as [_ Hr'].
    destruct (TryAdvanceCompoundOffset offset (Flags x)) as [[|] offset'].
    + apply IHc in H; rewrite Hframe in *; simpl in *; assumption.
    + injection H as <-. exact Hr'.
Qed.

Lemma LoadGIDs_in_range (fuel : nat) (gids : list Z) :
  forall this this',
    LoadGIDs fuel this ctx gids = Ok this' -> Forall (fun gid => 0 <= gid) gids ->
    keys_in_range (m_glyphCount this) (m_glyphDatas this) ->
    Forall (fun gid => gid < m_glyphCount this) gids
    /\ keys_in_range (m_glyphCount this) (m_glyphDatas this').
Proof.
  induction gids as [|gid gids IH]; intros this this' H Hgids Hr; simpl in H.
  - injection H as <-. split; [constructor | exact Hr].
  - inv_bind H. apply Forall_cons in Hgids. destruct Hgids as [Hgid Hgids].
    pose proof (proj1 (load_frame ctx fuel) _ _ _ Hx) as Hframe.
    destruct (proj1 (load_in_range fuel) _ _ _ Hx Hgid Hr) as [Hlt Hr'].
    assert (Hc : m_glyphCount x = m_glyphCount this) by (rewrite Hframe; reflexivity).
    rewrite <- Hc in Hr'. destruct (IH _ _ H Hgids Hr') as [Hall Hr''].
    rewrite Hc in Hall, Hr''. split; [constructor; assumption | exact Hr''].
Qed.

Lemma remap_glyphs_keys (fuel : nat) (dev : device) (entries : GlyphDatas) :
  forall glyphIndexMap ordered entries' glyphIndexMap' ordered',
    remap_glyphs fuel dev entries glyphIndexMap ordered
      = Ok (entries', glyphIndexMap', ordered') ->
    gd_keys entries' = gd_keys entries.
Proof.
  induction entries as [|[gid glyphData] entries IH];
    intros gim ordered entries' gim' ordered' H; simpl in H.
  - injection H as <- _ _. reflexivity.
  - inv_bind H. destruct x as [[glyphData' gim1] ordered1].
    inv_bind H. destruct x as [[rest' gim2] ordered2]. injection H as <- _ _.
    simpl. f_equal. eapply IH. exact Hx0.
Qed.

(** X6.  After [LoadGlyphs], every glyph of the subset is a glyph of the
    font: the keys of the map and the entries of the ordered list are
    below the number of glyphs of the font.  So [LoadGlyphs] does not return
    for a font without glyphs, nor when the list, or a component record
    that is reached, names a glyph that the font has not. *)
Theorem LoadGlyphs_stays_in_font (fuel : nat) (this : Subset) (gidList : list Z)
    (s : Subset) (glyphIndexMap : gmap Z Z) :
  LoadGlyphs fuel this ctx gidList = Ok (s, glyphIndexMap) ->
  m_glyphDatas this = [] -> m_orderedGIDs this = [] ->
  Forall (fun gid => 0 <= gid) gidList ->
  0 < m_glyphCount this
  /\ Forall (fun gid => gid < m_glyphCount this) gidList
  /\ Forall (fun gid => 0 <= gid < m_glyphCount this) (gd_keys (m_glyphDatas s))
  /\ Forall (fun gid => 0 <= gid < m_glyphCount this) (m_orderedGIDs s).
Proof.
  intros H Hempty Hnone Hgids.
  destruct (LoadGlyphs_spec ctx fuel this gidList s glyphIndexMap H Hempty Hnone)
    as (_ & _ & _ & _ & _ & _ & _ & Hordered).
  unfold LoadGlyphs in H. inv_bind H. rename x into this0. inv_bind H. rename x into this1.
  destruct (number_gids gidList _ _) as [gim ordered].
  inv_bind H. destruct x as [[glyphDatas gim'] ordered']. injection H as <- <-.
  assert (Hr : keys_in_range (m_glyphCount this) (m_glyphDatas this))
    by (rewrite Hempty; constructor).
  destruct (proj1 (load_in_range fuel) _ _ _ Hx ltac:(lia) Hr) as [Hzero Hr0].
  pose proof (proj1 (load_frame ctx fuel) _ _ _ Hx) as Hframe.
  assert (Hc : m_glyphCount this0 = m_glyphCount this) by (rewrite Hframe; reflexivity).
  rewrite <- Hc in Hr0. destruct (LoadGIDs_in_range _ _ _ _ Hx0 Hgids Hr0) as [Hall Hr1].
  rewrite Hc in Hall, Hr1.
  apply remap_glyphs_keys in Hx1.
  assert (Hkeys : keys_in_range (m_glyphCount this) glyphDatas)
    by (unfold keys_in_range; rewrite Hx1; exact Hr1).
  split; [exact Hzero|]. split; [exact Hall|]. split; [exact Hkeys|].
  simpl in *. unfold keys_in_range in Hkeys. rewrite Forall_forall in *.
  intros g Hg. apply Hkeys, Hordered, Hg.
Qed.

End InRange.

Section InRangeWitness.
Import TrueTypeSubset Fixture Spec.

Lemma LoadGlyphs_stays_in_font_witness :
  LoadGlyphs 10 closure_this closure_ctx [10] = Ok (scenario_subset, scenario_map)
  /\ m_glyphCount closure_this = 11
  /\ Forall (fun gid => 0 <= gid < 11) (m_orderedGIDs scenario_subset).
Proof.
  assert (E : LoadGlyphs 10 closure_this closure_ctx [10] = Ok (scenario_subset, scenario_map))
    by (vm_compute; reflexivity).
  assert (Hgids : Forall (fun gid => 0 <= gid) [10]) by (repeat constructor; lia).
  split; [exact E|]. split; [reflexivity|].
  exact (proj2 (proj2 (proj2
           (LoadGlyphs_stays_in_font closure_ctx 10 closure_this [10] scenario_subset
              scenario_map E eq_refl eq_refl Hgids)))).
Defined.

End InRangeWitness.

(** ** Component records and the checksum, byte by byte *)

Section ComponentRecords.
Import TrueTypeSubset Spec.

Lemma land_bit (a k : Z) :
  0 <= k -> Z.land a (2 ^ k) = if Z.testbit a k then 2 ^ k else 0.
Proof.
  intros Hk. apply Z.bits_inj'. intros n Hn.
  rewrite Z.land_spec, Z.pow2_bits_eqb by lia.
  destruct (Z.eqb_spec k n) as [->|Hne].
  - destruct (Z.testbit a n); simpl.
    + rewrite Z.pow2_bits_eqb, Z.eqb_refl by lia. reflexivity.
    + rewrite Z.bits_0. reflexivity.
  - rewrite andb_false_r. destruct (Z.testbit a k).
    + rewrite Z.pow2_bits_eqb by lia. destruct (Z.eqb_spec k n); [contradiction | reflexivity].
    + rewrite Z.bits_0. reflexivity.
Qed.

Lemma land_bit_zero (a k : Z) :
  0 <= k -> (Z.land a (2 ^ k) =? 0) = negb (Z.testbit a k).
Proof.
  intros Hk. rewrite land_bit by exact Hk.
  destruct (Z.testbit a k); simpl; [|reflexivity].
  apply Z.eqb_neq. pose proof (Z.pow_pos_nonneg 2 k). lia.
Qed.

Lemma u32_add_u32 (a b : Z) : u32 (u32 a + b) = u32 (a + b).
Proof. unfold u32. rewrite Z.add_mod_idemp_l by lia. reflexivity. Qed.

(** X7.  [TryAdvanceCompoundOffset] answers whether the flags of a
    component record have [MORE_COMPONENTS] set; if not, the offset is left
    as it is, and if so, the offset is moved on by the size of the record
    that the flags describe, between 6 and 16 bytes. *)
Theorem TryAdvanceCompoundOffset_steps_over_record (offset flags : Z) :
  TryAdvanceCompoundOffset offset flags
  = (Z.testbit flags 5,
     if Z.testbit flags 5 then u32 (offset + component_record_size flags) else offset)
  /\ 6 <= component_record_size flags <= 16
  /\ component_record_size flags mod 2 = 0.
Proof.
  split.
  - unfold TryAdvanceCompoundOffset, component_record_size,
      MORE_COMPONENTS, ARG_1_AND_2_ARE_WORDS, WE_HAVE_A_SCALE,
      WE_HAVE_AN_X_AND_Y_SCALE, WE_HAVE_TWO_BY_TWO.
    change 32 with (2 ^ 5). change 1 with (2 ^ 0). change 8 with (2 ^ 3) at 1.
    change 64 with (2 ^ 6). change 128 with (2 ^ 7).
    rewrite !land_bit_zero by lia. rewrite !negb_involutive.
    destruct (Z.testbit flags 5); [|reflexivity]. simpl negb. cbv iota.
    f_equal.
    destruct (Z.testbit flags 0), (Z.testbit flags 3), (Z.testbit flags 6),
      (Z.testbit flags 7); rewrite ?u32_add_u32; f_equal; lia.
  - unfold component_record_size.
    destruct (Z.testbit flags 0), (Z.testbit flags 3), (Z.testbit flags 6),
      (Z.testbit flags 7); split; try lia; reflexivity.
Qed.

End ComponentRecords.

Section CharSign.
Import TrueTypeSubset Spec.

Lemma sum_chars_take (sgn : bool) (n : nat) :
  forall sum buf r,
    sum_chars sgn sum n buf = Ok r ->
    (n <= length buf)%nat
    /\ r = foldl (fun acc c => u32 (acc + char_value sgn c)) sum (take n buf).
Proof.
  induction n as [|n IH]; intros sum buf r H; simpl in H.
  - injection H as <-. split; [lia | rewrite take_0; reflexivity].
  - destruct buf as [|c buf]; [discriminate|].
    apply IH in H. destruct H as [Hlen ->]. simpl. split; [lia | reflexivity].
Qed.

Lemma sum_chars_short (sgn : bool) (n : nat) :
  forall sum buf, (length buf < n)%nat -> sum_chars sgn sum n buf = Undefined.
Proof.
  induction n as [|n IH]; intros sum buf H; simpl; [lia|].
  destruct buf as [|c buf]; [reflexivity|]. apply IH. simpl in H. lia.
Qed.

Lemma char_value_signed (c : byte) :
  char_value true c = char_value false c - 256 * (if 128 <=? Z_of_byte c then 1 else 0).
Proof. unfold char_value. simpl. destruct (128 <=? Z_of_byte c); lia. Qed.

Lemma sums_differ_by_high_bytes (bs : list byte) :
  forall s u k,
    s = u32 (u - 256 * k) ->
    foldl (fun acc c => u32 (acc + char_value true c)) s bs
    = u32 (foldl (fun acc c => u32 (acc + char_value false c)) u bs
           - 256 * (k + high_bytes bs)).
Proof.
  induction bs as [|c bs IH]; intros s u k ->; simpl.
  - unfold high_bytes. simpl. f_equal. lia.
  - rewrite (IH _ (u32 (u + char_value false c))
               (k + (if 128 <=? Z_of_byte c then 1 else 0))).
    + f_equal. unfold high_bytes. rewrite filter_cons.
      destruct (decide _) as [Hd|Hd]; destruct (128 <=? Z_of_byte c);
        simpl in Hd |- *; try contradiction; try lia.
    + rewrite char_value_signed, !u32_add_u32.
      unfold u32. rewrite Zminus_mod_idemp_l. f_equal. lia.
Qed.

(** X8.  The sum that [GetTableCheksum] computes depends on whether plain
    [char] is signed: where it is, the sum is less, modulo [2^32], by 256
    for each of the bytes read that is [0x80] or more.  The bytes read are
    the first [(size + 3) / 4] of the buffer, and the two sums are the same
    when none of them is that high. *)
Theorem GetTableCheksum_depends_on_char_sign (buf : list byte) (size s u : Z) :
  GetTableCheksum true buf size = Ok s ->
  GetTableCheksum false buf size = Ok u ->
  s = u32 (u - 256 * high_bytes (take (Z.to_nat (u32 (size + 3) / 4)) buf))
  /\ (high_bytes (take (Z.to_nat (u32 (size + 3) / 4)) buf) = 0 -> s = u)
  /\ 0 <= u < 2 ^ 32.
Proof.
  unfold GetTableCheksum. intros Hs Hu.
  apply sum_chars_take in Hs, Hu. destruct Hs as [_ ->], Hu as [_ ->].
  set (bs := take _ buf).
  assert (Hrange : forall bs u0, 0 <= u0 < 2 ^ 32 ->
            0 <= foldl (fun acc c => u32 (acc + char_value false c)) u0 bs < 2 ^ 32).
  { clear. induction bs as [|c bs IH]; intros u0 H0; simpl; [exact H0|].
    apply IH. unfold u32. apply Z.mod_pos_bound. lia. }
  pose proof (sums_differ_by_high_bytes bs 0 0 0 eq_refl) as Hd.
  rewrite Z.add_0_l in Hd. split; [exact Hd|]. split; [|apply Hrange; lia].
  intros Hnone. rewrite Hd, Hnone, Z.mul_0_r, Z.sub_0_r.
  unfold u32. apply Z.mod_small. apply Hrange. lia.
Qed.

Lemma GetTableCheksum_depends_on_char_sign_witness :
  GetTableCheksum true [xff; x00; x00; x00] 4 = Ok 4294967295
  /\ GetTableCheksum false [xff; x00; x00; x00] 4 = Ok 255
  /\ 4294967295 = u32 (255 - 256 * high_bytes (take (Z.to_nat (u32 (4 + 3) / 4))
                                                   [xff; x00; x00; x00])).
Proof.
  split; [reflexivity|]. split; [reflexivity|].
  exact (proj1 (GetTableCheksum_depends_on_char_sign [xff; x00; x00; x00] 4
                  4294967295 255 eq_refl eq_refl)).
Defined.

End CharSign.

(** ** The renumbering of the glyphs ([LoadGlyphs]) *)

Section Renumbering.
Import TrueTypeSubset Fixture Spec.

Lemma numbered_elem (glyphIndexMap : gmap Z Z) (ordered : list Z) (g : Z) :
  numbered_by_place glyphIndexMap ordered ->
  g ∈ ordered <-> glyphIndexMap !! g <> None.
Proof.
  intros Hn. split.
  - intros Hin. apply list_elem_of_lookup in Hin. destruct Hin as [i Hi].
    assert (Hg : glyphIndexMap !! g = Some (Z.of_nat i)).
    { apply Hn. rewrite Nat2Z.id. split; [lia | exact Hi]. }
    rewrite Hg. discriminate.
  - destruct (glyphIndexMap !! g) as [i|] eqn:E; [intros _ | congruence].
    apply Hn in E. destruct E as [_ E]. eapply list_elem_of_lookup_2. exact E.
Qed.

Lemma numbered_NoDup (glyphIndexMap : gmap Z Z) (ordered : list Z) :
  numbered_by_place glyphIndexMap ordered -> NoDup ordered.
Proof.
  intros Hn. apply NoDup_alt. intros i j g Hi Hj.
  assert (Hgi : glyphIndexMap !! g = Some (Z.of_nat i))
    by (apply Hn; rewrite Nat2Z.id; split; [lia | exact Hi]).
  assert (Hgj : glyphIndexMap !! g = Some (Z.of_nat j))
    by (apply Hn; rewrite Nat2Z.id; split; [lia | exact Hj]).
  rewrite Hgi in Hgj. injection Hgj as Hij. lia.
Qed.

(** One insertion of a glyph that has no number yet. *)
Lemma numbered_insert (glyphIndexMap : gmap Z Z) (ordered : list Z) (g : Z) :
  size glyphIndexMap = length ordered ->
  numbered_by_place glyphIndexMap ordered ->
  glyphIndexMap !! g = None ->
  size (<[g := Z.of_nat (size glyphIndexMap)]> glyphIndexMap) = length (ordered ++ [g])
  /\ numbered_by_place (<[g := Z.of_nat (size glyphIndexMap)]> glyphIndexMap) (ordered ++ [g]).
Proof.
  intros Hsize Hn Hnew. split.
  - rewrite map_size_insert_None by exact Hnew. rewrite length_app. simpl. lia.
  - assert (Hout : g ∉ ordered).
    { intros Hin. apply (numbered_elem _ _ _ Hn) in Hin. contradiction. }
    intros g' i. destruct (decide (g' = g)) as [->|Hne].
    + rewrite lookup_insert_eq. rewrite Hsize. split.
      * intros [= <-]. rewrite Nat2Z.id. split; [lia|].
        rewrite lookup_app_r by lia. rewrite Nat.sub_diag. reflexivity.
      * intros [Hi Hl]. destruct (decide (Z.to_nat i < length ordered)%nat) as [Hlt|Hge].
        -- rewrite lookup_app_l in Hl by exact Hlt. exfalso. apply Hout.
           eapply list_elem_of_lookup_2. exact Hl.
        -- assert (Hlen : (Z.to_nat i < length (ordered ++ [g]))%nat)
             by (eapply lookup_lt_Some; exact Hl).
           rewrite length_app in Hlen. simpl in Hlen. f_equal. lia.
    + rewrite lookup_insert_ne by congruence. rewrite (Hn g' i). split.
      * intros [Hi Hl]. split; [exact Hi|].
        rewrite lookup_app_l by (eapply lookup_lt_Some; exact Hl). exact Hl.
      * intros [Hi Hl]. split; [exact Hi|].
        destruct (decide (Z.to_nat i < length ordered)%nat) as [Hlt|Hge].
        -- rewrite lookup_app_l in Hl by exact Hlt. exact Hl.
        -- rewrite lookup_app_r in Hl by lia.
           destruct (Z.to_nat i - length ordered)%nat; simpl in Hl; [congruence|].
           discriminate.
Qed.

(** The first loop of the renumbering, on glyphs that have no number yet
    and are named once. *)
Lemma number_gids_places (gids : list Z) :
  forall (glyphIndexMap : gmap Z Z) (ordered : list Z),
    size glyphIndexMap = length ordered ->
    numbered_by_place glyphIndexMap ordered ->
    NoDup (ordered ++ gids) ->
    let '(glyphIndexMap', ordered') := number_gids gids glyphIndexMap ordered in
    size glyphIndexMap' = length ordered'
    /\ numbered_by_place glyphIndexMap' ordered'.
Proof.
  induction gids as [|gid gids IH]; intros gim ordered Hsize Hn Hnd; simpl.
  - split; assumption.
  - assert (Hout : gid ∉ ordered).
    { apply NoDup_app in Hnd. destruct Hnd as (_ & Hsep & _).
      intros Hin. apply (Hsep _ Hin). left. }
    assert (Hnew : gim !! gid = None).
    { destruct (gim !! gid) eqn:E; [|reflexivity]. exfalso. apply Hout.
      apply (numbered_elem _ _ _ Hn). rewrite E. discriminate. }
    rewrite Hnew. destruct (numbered_insert _ _ _ Hsize Hn Hnew) as [Hsize1 Hn1].
    apply IH; [exact Hsize1 | exact Hn1|].
    rewrite <- app_assoc. exact Hnd.
Qed.

(** The loop over the components of one compound glyph: every record it
    adds holds the number of the glyph that the component record names. *)
Lemma remap_components_places (fuel : nat) (dev : device) :
  forall (glyphData : GlyphData) (offset : Z) (glyphIndexMap : gmap Z Z) (ordered : list Z)
         (glyphData' : GlyphData) (glyphIndexMap' : gmap Z Z) (ordered' : list Z),
  remap_components fuel dev glyphData offset glyphIndexMap ordered
    = Ok (glyphData', glyphIndexMap', ordered') ->
  size glyphIndexMap = length ordered ->
  numbered_by_place glyphIndexMap ordered ->
  size glyphIndexMap' = length ordered'
  /\ numbered_by_place glyphIndexMap' ordered'
  /\ glyphIndexMap ⊆ glyphIndexMap'
  /\ IsCompound glyphData' = IsCompound glyphData
  /\ GlyphAdvOffset glyphData' = GlyphAdvOffset glyphData
  /\ exists cs added,
       component_gids fuel dev (GlyphAdvOffset glyphData) offset = Ok cs
       /\ CompoundComponents glyphData' = CompoundComponents glyphData ++ added
       /\ Forall2 (fun c g => glyphIndexMap' !! g = Some (cmp_GlyphIndex c)) added cs.
Proof.
  induction fuel as [|fuel IH]; intros gd offset gim ord gd' gim' ord' H Hsize Hn;
    [discriminate|].
  simpl in H. inv_bind H. rename x into cmpData, Hx into Hread.
  simpl component_gids. rewrite Hread. simpl.
  set (gi := GlyphIndex cmpData) in *.
  assert (Hstep : exists map1 ord1 assigned,
             (match gim !! gi with
              | Some assigned => (gim, ord, assigned)
              | None => (<[gi:=Z.of_nat (size gim)]> gim, ord ++ [gi], Z.of_nat (size gim))
              end) = (map1, ord1, assigned)
             /\ size map1 = length ord1
             /\ numbered_by_place map1 ord1
             /\ gim ⊆ map1
             /\ map1 !! gi = Some assigned).
  { destruct (gim !! gi) as [a|] eqn:E.
    - exists gim, ord, a. split; [reflexivity|]. split; [exact Hsize|].
      split; [exact Hn|]. split; [reflexivity | exact E].
    - destruct (numbered_insert _ _ _ Hsize Hn E) as [Hsize1 Hn1].
      exists (<[gi:=Z.of_nat (size gim)]> gim), (ord ++ [gi]), (Z.of_nat (size gim)).
      split; [reflexivity|]. split; [exact Hsize1|]. split; [exact Hn1|].
      split; [apply insert_subseteq; exact E | apply lookup_insert_eq]. }
  destruct Hstep as (map1 & ord1 & assigned & Estep & Hsize1 & Hn1 & Hsub1 & Hgi).
  rewrite Estep in H.
  destruct (TryAdvanceCompoundOffset offset (Flags cmpData)) as [[|] offset'] eqn:Eadv.
  - apply IH in H; [|exact Hsize1 | exact Hn1].
    destruct H as (Hsize' & Hn' & Hsub' & Hcompound & Hadv & cs & added & Hcs & Hadded & Hall).
    simpl in Hcs, Hcompound, Hadv, Hadded. rewrite Hcs. simpl.
    split; [exact Hsize'|]. split; [exact Hn'|].
    split; [etransitivity; eassumption|]. split; [exact Hcompound|]. split; [exact Hadv|].
    eexists (gi :: cs), (_ :: added). split; [reflexivity|].
    split; [rewrite Hadded, <- app_assoc; reflexivity|].
    constructor; [|exact Hall]. simpl.
    eapply lookup_weaken; [exact Hgi | exact Hsub'].
  - injection H as <- <- <-.
    split; [exact Hsize1|]. split; [exact Hn1|]. split; [exact Hsub1|].
    split; [reflexivity|]. split; [reflexivity|].
    eexists [gi], [_]. split; [reflexivity|]. split; [reflexivity|].
    constructor; [exact Hgi | constructor].
Qed.

Lemma remapped_mono (fuel : nat) (dev : device) (m m' : gmap Z Z) (e e' : Z * GlyphData) :
  m ⊆ m' -> remapped fuel dev m e e' -> remapped fuel dev m' e e'.
Proof.
  intros Hsub (Hk & Hc & Ha & cs & added & Hcs & Hadded & Hall).
  split; [exact Hk|]. split; [exact Hc|]. split; [exact Ha|].
  exists cs, added. split; [exact Hcs|]. split; [exact Hadded|].
  eapply Forall2_impl; [exact Hall|]. intros c g Hg. simpl in Hg.
  eapply lookup_weaken; [exact Hg | exact Hsub].
Qed.

Lemma remap_glyphs_places (fuel : nat) (dev : device) :
  forall (entries : GlyphDatas) (glyphIndexMap : gmap Z Z) (ordered : list Z)
         (entries' : GlyphDatas) (glyphIndexMap' : gmap Z Z) (ordered' : list Z),
  remap_glyphs fuel dev entries glyphIndexMap ordered
    = Ok (entries', glyphIndexMap', ordered') ->
  size glyphIndexMap = length ordered ->
  numbered_by_place glyphIndexMap ordered ->
  size glyphIndexMap' = length ordered'
  /\ numbered_by_place glyphIndexMap' ordered'
  /\ glyphIndexMap ⊆ glyphIndexMap'
  /\ Forall2 (remapped fuel dev glyphIndexMap') entries entries'.
Proof.
  induction entries as [|[gid gd] entries IH]; intros gim ord entries' gim' ord' H Hsize Hn;
    simpl in H.
  - injection H as <- <- <-. split; [exact Hsize|]. split; [exact Hn|].
    split; [reflexivity | constructor].
  - inv_bind H. destruct x as [[gd1 map1] ord1].
    inv_bind H. destruct x as [[rest' map2] ord2]. injection H as <- <- <-.
    assert (Hone : size map1 = length ord1 /\ numbered_by_place map1 ord1 /\ gim ⊆ map1
                   /\ remapped fuel dev map1 (gid, gd) (gid, gd1)).
    { destruct (IsCompound gd) eqn:Ec.
      - destruct (remap_components_places fuel dev _ _ _ _ _ _ _ Hx Hsize Hn)
          as (Hs & Hn1 & Hsub & Hc & Ha & cs & added & Hcs & Hadded & Hall).
        split; [exact Hs|]. split; [exact Hn1|]. split; [exact Hsub|].
        split; [reflexivity|]. split; [exact Hc|]. split; [exact Ha|].
        exists cs, added. simpl. rewrite Ec. auto.
      - injection Hx as <- <- <-. split; [exact Hsize|]. split; [exact Hn|].
        split; [reflexivity|]. split; [reflexivity|]. split; [reflexivity|].
        split; [reflexivity|]. exists [], []. simpl. rewrite Ec, app_nil_r.
        split; [reflexivity|]. split; [reflexivity | constructor]. }
    destruct Hone as (Hsize1 & Hn1 & Hsub1 & Hrem).
    destruct (IH map1 ord1 rest' map2 ord2 Hx0 Hsize1 Hn1) as (Hsize2 & Hn2 & Hsub2 & Hrest).
    split; [exact Hsize2|]. split; [exact Hn2|]. split; [etransitivity; eassumption|].
    constructor; [|exact Hrest]. eapply remapped_mono; [exact Hsub2 | exact Hrem].
Qed.

Lemma remapped_find (fuel : nat) (dev : device) (m : gmap Z Z)
    (entries entries' : GlyphDatas) (k : Z) (gd' : GlyphData) :
  Forall2 (remapped fuel dev m) entries entries' ->
  gd_find k entries' = Some gd' ->
  exists gd, gd_find k entries = Some gd /\ remapped fuel dev m (k, gd) (k, gd').
Proof.
  induction 1 as [|[k0 gd0] [k1 gd1] l l' Hrem _ IH]; simpl; [discriminate|].
  pose proof Hrem as (Hk & _). simpl in Hk. subst k1.
  destruct (Z.eqb_spec k0 k) as [->|Hne].
  - intros [= <-]. exists gd0. split; [reflexivity | exact Hrem].
  - exact IH.
Qed.

Lemma glyph_entry_no_components (dev : device) (isLong : bool) (ctx : GlyphContext)
    (gid : Z) (gd : GlyphData) :
  glyph_entry dev isLong ctx gid = Ok gd -> CompoundComponents gd = [].
Proof.
  unfold glyph_entry, read_glyph_location. simpl. intros H.
  inv_bind H. inv_bind H. injection H as <-.
  assert (Hx' : CompoundComponents x = []).
  { destruct isLong; inv_bind Hx; inv_bind Hx; injection Hx as <-; reflexivity. }
  destruct (x0 <? 0); simpl; exact Hx'.
Qed.

Variable ctx : GlyphContext.

(** X9.  When glyph 0 is not in the list and no glyph is in it twice,
    [LoadGlyphs] numbers the glyphs of the subset by their place in the
    ordered list: the map gives a glyph the number [i] exactly when the
    glyph is at place [i] of the list; the list has each loaded glyph
    once; and the records that the loop adds to a compound glyph hold, one
    for each component record of the font program and in their order, the
    number of the component. *)
Theorem LoadGlyphs_numbers_by_place (fuel : nat) (this : Subset) (gidList : list Z)
    (s : Subset) (glyphIndexMap : gmap Z Z) :
  LoadGlyphs fuel this ctx gidList = Ok (s, glyphIndexMap) ->
  m_glyphDatas this = [] -> m_orderedGIDs this = [] ->
  NoDup (0 :: gidList) ->
  numbered_by_place glyphIndexMap (m_orderedGIDs s)
  /\ m_orderedGIDs s ≡ₚ gd_keys (m_glyphDatas s)
  /\ forall k gd,
       gd_find k (m_glyphDatas s) = Some gd -> IsCompound gd = true ->
       exists cs,
         component_gids fuel (m_device this) (GlyphAdvOffset gd) 0 = Ok cs
         /\ Forall2 (fun c g => glyphIndexMap !! g = Some (cmp_GlyphIndex c))
                    (CompoundComponents gd) cs.
Proof.
  intros H Hempty Hnone Hnd.
  destruct (LoadGlyphs_spec ctx fuel this gidList s glyphIndexMap H Hempty Hnone)
    as (_ & _ & _ & _ & Hlen & _ & _ & Hordered).
  unfold LoadGlyphs in H.
  inv_bind H. rename x into this0, Hx into Hload0.
  inv_bind H. rename x into this1, Hx into Hload1.
  assert (Hclosed : loaded_closed (m_device this) (m_isLongLoca this) ctx []
                                  (m_glyphDatas this))
    by (rewrite Hempty; apply loaded_closed_nil).
  destruct (LoadGID_closed ctx fuel this this0 [] 0 Hclosed Hload0) as (Hframe0 & Hclosed0).
  destruct (LoadGIDs_closed ctx fuel gidList this0 this1 ([] ++ [0])) as (Hframe1 & Hclosed1);
    [rewrite Hframe0; simpl; exact Hclosed0 | exact Hload1 |].
  rewrite Hframe0 in Hclosed1. simpl in Hclosed1.
  assert (Hord1 : m_orderedGIDs this1 = []).
  { rewrite Hframe1, m_orderedGIDs_set_glyphDatas, Hframe0, m_orderedGIDs_set_glyphDatas.
    exact Hnone. }
  assert (Hdev1 : m_device this1 = m_device this).
  { rewrite Hframe1. simpl. rewrite Hframe0. reflexivity. }
  rewrite Hord1, Hdev1 in H. simpl app in H.
  assert (Hn0 : numbered_by_place (<[0:=0]> (∅ : gmap Z Z)) [0]).
  { intros g i. destruct (decide (g = 0)) as [->|Hne].
    - rewrite lookup_insert_eq. split.
      + intros [= <-]. split; [lia | reflexivity].
      + intros [Hi Hl]. destruct (Z.to_nat i) eqn:E; [f_equal; lia | discriminate].
    - rewrite lookup_insert_ne, lookup_empty by congruence. split; [discriminate|].
      intros [Hi Hl]. destruct (Z.to_nat i); simpl in Hl; [congruence | discriminate]. }
  assert (Hs0 : size (<[0:=0]> (∅ : gmap Z Z)) = length [0])
    by (rewrite map_size_insert_None, map_size_empty by apply lookup_empty; reflexivity).
  pose proof (number_gids_places gidList _ _ Hs0 Hn0 Hnd) as Hnum.
  destruct (number_gids gidList (<[0:=0]> ∅) [0]) as [map2 ord2].
  destruct Hnum as (Hsize2 & Hn2).
  inv_bind H. destruct x as [[entries' map'] ord']. injection H as <- <-.
  destruct (remap_glyphs_places fuel (m_device this) _ _ _ _ _ _ Hx Hsize2 Hn2)
    as (Hsize' & Hn' & _ & Hrem).
  simpl m_glyphDatas in *. simpl m_orderedGIDs in *.
  split; [exact Hn'|]. split.
  - apply submseteq_length_Permutation.
    + apply NoDup_submseteq; [eapply numbered_NoDup; exact Hn' | exact Hordered].
    + unfold gd_keys. rewrite length_map. lia.
  - intros k gd' Hfind Hcompound.
    destruct (remapped_find _ _ _ _ _ _ _ Hrem Hfind)
      as (gd & Hgd & _ & Hc & Ha & cs & added & Hcs & Hadded & Hall).
    simpl in Hc, Ha, Hcs, Hadded. rewrite <- Hc, Hcompound in Hcs.
    destruct Hclosed1 as ((_ & Hfont) & _).
    rewrite (glyph_entry_no_components _ _ _ _ _ (Hfont _ _ Hgd)) in Hadded.
    simpl in Hadded. exists cs. rewrite Ha, Hadded. split; [exact Hcs | exact Hall].
Qed.

End Renumbering.

Section RenumberingWitness.
Import TrueTypeSubset Fixture Spec.

Lemma LoadGlyphs_numbers_by_place_witness :
  LoadGlyphs 10 closure_this closure_ctx [10] = Ok (scenario_subset, scenario_map)
  /\ NoDup [0; 10]
  /\ numbered_by_place scenario_map (m_orderedGIDs scenario_subset).
Proof.
  assert (E : LoadGlyphs 10 closure_this closure_ctx [10] = Ok (scenario_subset, scenario_map))
    by (vm_compute; reflexivity).
  assert (Hnd : NoDup [0; 10]).
  { apply NoDup_cons. split; [rewrite list_elem_of_singleton; lia | apply NoDup_singleton]. }
  split; [exact E|]. split; [exact Hnd|].
  exact (proj1 (LoadGlyphs_numbers_by_place closure_ctx 10 closure_this [10] scenario_subset
                  scenario_map E eq_refl eq_refl Hnd)).
Defined.

End RenumberingWitness.

(** ** The [loca] table that is written ([WriteLocaTable]) *)

Section LocaEntries.
Import TrueTypeSubset Fixture Spec.

Lemma Z_of_byte_of_Z (z : Z) : Z_of_byte (byte_of_Z z) = z mod 256.
Proof.
  unfold Z_of_byte, byte_of_Z.
  assert (Hr : 0 <= z mod 256 < 256) by (apply Z.mod_pos_bound; lia).
  destruct (Byte.of_N (Z.to_N (z mod 256))) as [b|] eqn:E.
  - apply Byte.to_of_N in E. rewrite E. lia.
  - apply Byte.of_N_None_iff in E. lia.
Qed.

(** What [WriteUInt32BE] and [WriteUInt16BE] store, [ReadUInt32BE] and
    [ReadUInt16BE] read. *)
Lemma be_combine_be32 (v : Z) : be_combine (be32 v) = u32 v.
Proof.
  unfold be_combine, be32, u32. simpl fold_left. rewrite !Z_of_byte_of_Z.
  rewrite !Z.shiftr_div_pow2 by lia.
  change (2 ^ 24) with 16777216. change (2 ^ 16) with 65536.
  change (2 ^ 8) with 256. change (2 ^ 32) with 4294967296.
  Z.div_mod_to_equations. lia.
Qed.

Lemma be_combine_be16 (v : Z) : be_combine (be16 v) = u16 v.
Proof.
  unfold be_combine, be16, u16. simpl fold_left. rewrite !Z_of_byte_of_Z.
  rewrite !Z.shiftr_div_pow2 by lia.
  change (2 ^ 8) with 256. change (2 ^ 16) with 65536.
  Z.div_mod_to_equations. lia.
Qed.

Lemma Read_inside (pre bs post : list byte) :
  Read (pre ++ bs ++ post) (Z.of_nat (length pre)) (Z.of_nat (length bs)) = Ok bs.
Proof.
  unfold Read. rewrite !length_app.
  rewrite (proj2 (Z.leb_le 0 _)) by lia. rewrite (proj2 (Z.leb_le 0 _)) by lia.
  rewrite (proj2 (Z.leb_le _ _)) by lia. simpl.
  rewrite !Nat2Z.id, drop_app_length, take_app_length. reflexivity.
Qed.

Lemma write_loca_entries_extends (isLong : bool) (gids : list Z) :
  forall glyphDatas glyphAddress output,
    exists rest,
      fst (write_loca_entries isLong gids glyphDatas glyphAddress output)
      = output ++ (if isLong then be32 glyphAddress
                   else be16 (u16 (Z.shiftr glyphAddress 1))) ++ rest.
Proof.
  induction gids as [|gid gids IH]; intros glyphDatas glyphAddress output; simpl.
  - exists []. rewrite app_nil_r. reflexivity.
  - destruct (gd_index gid glyphDatas) as [glyphData glyphDatas'].
    destruct (IH glyphDatas' (u32 (glyphAddress + GlyphLength glyphData))
                 (output ++ (if isLong then be32 glyphAddress
                             else be16 (u16 (Z.shiftr glyphAddress 1))))) as [rest ->].
    eexists. rewrite <- !app_assoc. reflexivity.
Qed.

Lemma u32_Tell_add (glyphAddress : Z) (output bs : buffer) :
  glyphAddress = u32 (Tell output) ->
  u32 (glyphAddress + Z.of_nat (length bs)) = u32 (Tell (output ++ bs)).
Proof.
  intros ->. unfold u32, Tell. rewrite length_app, Nat2Z.inj_add.
  rewrite Zplus_mod_idemp_l. reflexivity.
Qed.

(** The two loops side by side: [WriteGlyphTable] on the first glyphs of
    the list, [WriteLocaTable] on the list. *)
Lemma loca_entry_at (dev : device) (isLong : bool) (pre : list Z) :
  forall (post : list Z) (glyphDatas : GlyphDatas) (glyphAddress : Z) (output glyf0 glyf : buffer)
         (glyphDatas' : GlyphDatas),
    WriteGlyphTable dev pre glyphDatas glyf0 = Ok (glyf, glyphDatas') ->
    glyphAddress = u32 (Tell glyf0) ->
    Read (fst (write_loca_entries isLong (pre ++ post) glyphDatas glyphAddress output))
         (Tell output + (if isLong then 4 else 2) * Z.of_nat (length pre))
         (if isLong then 4 else 2)
    = Ok (if isLong then be32 (u32 (Tell glyf))
          else be16 (u16 (Z.shiftr (u32 (Tell glyf)) 1))).
Proof.
  induction pre as [|gid pre IH];
    intros post glyphDatas glyphAddress output glyf0 glyf glyphDatas' H Haddr.
  - simpl in H. injection H as <- <-. simpl app. rewrite <- Haddr.
    destruct (write_loca_entries_extends isLong post glyphDatas glyphAddress output)
      as [rest ->].
    replace (Tell output + (if isLong then 4 else 2) * Z.of_nat (length (@nil Z)))
      with (Z.of_nat (length output)) by (unfold Tell; simpl; destruct isLong; lia).
    destruct isLong;
      [exact (Read_inside output (be32 glyphAddress) rest)
      |exact (Read_inside output (be16 (u16 (Z.shiftr glyphAddress 1))) rest)].
  - simpl in H. simpl app. simpl write_loca_entries.
    destruct (gd_index gid glyphDatas) as [glyphData glyphDatas1].
    assert (Hnext : exists glyf1,
               WriteGlyphTable dev pre glyphDatas1 glyf1 = Ok (glyf, glyphDatas')
               /\ u32 (glyphAddress + GlyphLength glyphData) = u32 (Tell glyf1)).
    { destruct (Z.eqb_spec (GlyphLength glyphData) 0) as [Hzero|Hlen].
      - exists glyf0. split; [exact H|]. rewrite Hzero, Z.add_0_r, Haddr.
        unfold u32. apply Z.mod_mod. lia.
      - destruct (IsCompound glyphData).
        + inv_bind H. inv_bind H. exists (glyf0 ++ x0). split; [exact H|].
          rewrite <- (u32_Tell_add glyphAddress glyf0 x0 Haddr).
          rewrite (fixups_keep_length _ (Ok x) x x0 eq_refl Hx0).
          apply Read_length in Hx as Hl. unfold Read in Hx.
          destruct (0 <=? GlyphLength glyphData) eqn:E;
            [|rewrite andb_false_r in Hx; discriminate].
          apply Z.leb_le in E. rewrite Hl. f_equal. lia.
        + inv_bind H. unfold CopyData in Hx. inv_bind Hx. injection Hx as <-.
          exists (glyf0 ++ x0). split; [exact H|].
          rewrite <- (u32_Tell_add glyphAddress glyf0 x0 Haddr).
          apply Read_length in Hx0 as Hl. unfold Read in Hx0.
          destruct (0 <=? GlyphLength glyphData) eqn:E;
            [|rewrite andb_false_r in Hx0; discriminate].
          apply Z.leb_le in E. rewrite Hl. f_equal. lia. }
    destruct Hnext as (glyf1 & Hrest & Haddr1).
    specialize (IH post glyphDatas1 (u32 (glyphAddress + GlyphLength glyphData))
                   (output ++ (if isLong then be32 glyphAddress
                               else be16 (u16 (Z.shiftr glyphAddress 1))))
                   glyf1 glyf glyphDatas' Hrest Haddr1).
    rewrite <- IH. f_equal. unfold Tell. rewrite length_app. simpl length.
    destruct isLong; simpl length; lia.
Qed.

(** X10.  The loader reads from the [loca] table that [WriteLocaTable]
    has written, as entry [n], the number of bytes that [WriteGlyphTable]
    writes for the first [n] glyphs of the ordered list, so the place of
    glyph [n] in the [glyf] table of the subset, and as the closing entry
    the length of that table: modulo [2^32] in the long format, and halved
    and cut to 16 bits in the short format. *)
Theorem WriteLocaTable_entries_are_glyf_offsets (this : Subset) (pre post : list Z)
    (glyf : buffer) (glyphDatas' : GlyphDatas) :
  m_orderedGIDs this = pre ++ post ->
  WriteGlyphTable (m_device this) pre (m_glyphDatas this) [] = Ok (glyf, glyphDatas') ->
  if m_isLongLoca this
  then ReadUInt32BE (fst (WriteLocaTable this [])) (4 * Z.of_nat (length pre))
       = Ok (u32 (Tell glyf))
  else ReadUInt16BE (fst (WriteLocaTable this [])) (2 * Z.of_nat (length pre))
       = Ok (u16 (Z.shiftr (u32 (Tell glyf)) 1)).
Proof.
  intros Hgids Hglyf. unfold WriteLocaTable. rewrite Hgids.
  pose proof (loca_entry_at (m_device this) (m_isLongLoca this) pre post (m_glyphDatas this)
                0 [] [] glyf glyphDatas' Hglyf eq_refl) as Hentry.
  change (Tell []) with 0 in Hentry. rewrite Z.add_0_l in Hentry.
  destruct (m_isLongLoca this).
  - unfold ReadUInt32BE. rewrite Hentry. simpl. rewrite be_combine_be32.
    f_equal. unfold u32. apply Z.mod_mod. lia.
  - unfold ReadUInt16BE. rewrite Hentry. simpl. rewrite be_combine_be16.
    f_equal. unfold u16. apply Z.mod_mod. lia.
Qed.

End LocaEntries.

Section LocaEntriesWitness.
Import TrueTypeSubset Fixture Spec.

Lemma WriteLocaTable_entries_are_glyf_offsets_witness :
  exists glyf,
    WriteGlyphTable (m_device scenario_subset) (m_orderedGIDs scenario_subset)
                    (m_glyphDatas scenario_subset) []
    = Ok (glyf, m_glyphDatas scenario_subset)
    /\ (if m_isLongLoca scenario_subset
        then ReadUInt32BE (fst (WriteLocaTable scenario_subset []))
                          (4 * Z.of_nat (length (m_orderedGIDs scenario_subset)))
             = Ok (u32 (Tell glyf))
        else ReadUInt16BE (fst (WriteLocaTable scenario_subset []))
                          (2 * Z.of_nat (length (m_orderedGIDs scenario_subset)))
             = Ok (u16 (Z.shiftr (u32 (Tell glyf)) 1))).
Proof.
  eexists. split; [vm_compute; reflexivity|].
  apply (WriteLocaTable_entries_are_glyf_offsets scenario_subset
           (m_orderedGIDs scenario_subset) [] _ (m_glyphDatas scenario_subset)).
  - symmetry. apply app_nil_r.
  - vm_compute. reflexivity.
Defined.

End LocaEntriesWitness.

(** ** The layout of the subset ([WriteTables]) *)

Section Layout.
Import TrueTypeSubset Fixture Spec.

Lemma Read_take (a b : list byte) (n : nat) (offset size : Z) :
  take n a = take n b -> (n <= length a)%nat -> (n <= length b)%nat ->
  0 <= offset -> 0 <= size -> offset + size <= Z.of_nat n ->
  Read a offset size = Read b offset size.
Proof.
  intros Heq Ha Hb Ho Hs Hn. unfold Read.
  rewrite (proj2 (Z.leb_le 0 offset)) by exact Ho.
  rewrite (proj2 (Z.leb_le 0 size)) by exact Hs.
  rewrite (proj2 (Z.leb_le _ (Z.of_nat (length a)))) by lia.
  rewrite (proj2 (Z.leb_le _ (Z.of_nat (length b)))) by lia. simpl. f_equal.
  rewrite !take_drop_commute.
  replace (take (Z.to_nat offset + Z.to_nat size) a)
    with (take (Z.to_nat offset + Z.to_nat size) (take n a))
    by (rewrite take_take; f_equal; lia).
  rewrite Heq, take_take. do 2 f_equal. lia.
Qed.

Lemma Read_app_l (a b : list byte) (offset size : Z) :
  0 <= offset -> 0 <= size -> offset + size <= Z.of_nat (length a) ->
  Read (a ++ b) offset size = Read a offset size.
Proof.
  intros Ho Hs Hn. apply (Read_take _ _ (length a)); try lia.
  - rewrite take_app_length, firstn_all. reflexivity.
  - rewrite length_app. lia.
Qed.

Lemma poke_inv (buf : buffer) (offset : Z) (bs : list byte) (buf' : buffer) :
  poke buf offset bs = Ok buf' ->
  0 <= offset /\ offset + Z.of_nat (length bs) <= Z.of_nat (length buf)
  /\ buf' = take (Z.to_nat offset) buf ++ bs ++ drop (Z.to_nat offset + length bs) buf.
Proof.
  unfold poke. destruct (_ && _) eqn:E; [|discriminate]. intros [= <-].
  apply andb_true_iff in E. destruct E as [E1 E2]. apply Z.leb_le in E1, E2. auto.
Qed.

(** A store leaves what is before it as it is. *)
Lemma take_poke (buf : buffer) (offset : Z) (bs : list byte) (buf' : buffer) (n : nat) :
  poke buf offset bs = Ok buf' -> Z.of_nat n <= offset -> take n buf' = take n buf.
Proof.
  intros H Hn. apply poke_inv in H. destruct H as (Ho & Hlen & ->).
  rewrite take_app_le by (rewrite length_take; lia).
  rewrite take_take. f_equal. lia.
Qed.

Lemma Read_poke_other (buf : buffer) (offset : Z) (bs : list byte) (buf' : buffer)
    (o size : Z) :
  poke buf offset bs = Ok buf' -> 0 <= o -> 0 <= size ->
  o + size <= offset \/ offset + Z.of_nat (length bs) <= o ->
  Read buf' o size = Read buf o size.
Proof.
  intros H Ho Hs Hout. pose proof (poke_length _ _ _ _ H) as Hl.
  destruct Hout as [Hbefore|Hafter].
  - pose proof (poke_inv _ _ _ _ H) as (Hoff & Hlen & _).
    apply (Read_take _ _ (Z.to_nat offset)); try lia.
    apply (take_poke _ _ _ _ _ H). lia.
  - apply poke_inv in H. destruct H as (Hoff & Hlen & Hbuf).
    unfold Read. rewrite Hl.
    destruct (_ && _); [|reflexivity]. f_equal. f_equal. rewrite Hbuf.
    rewrite app_assoc, drop_app_ge by (rewrite length_app, length_take; lia).
    rewrite drop_drop. f_equal. rewrite length_app, length_take. lia.
Qed.

Lemma Read_poke_same (buf : buffer) (offset : Z) (bs : list byte) (buf' : buffer) :
  poke buf offset bs = Ok buf' -> Read buf' offset (Z.of_nat (length bs)) = Ok bs.
Proof.
  intros H. pose proof (poke_length _ _ _ _ H) as Hl. pose proof (poke_read _ _ _ _ H) as Hr.
  apply poke_inv in H. destruct H as (Hoff & Hlen & _).
  unfold Read. rewrite Hl.
  rewrite (proj2 (Z.leb_le 0 offset)) by exact Hoff.
  rewrite (proj2 (Z.leb_le 0 _)) by lia.
  rewrite (proj2 (Z.leb_le _ _)) by exact Hlen. simpl. rewrite Nat2Z.id. f_equal. exact Hr.
Qed.

Lemma poke_prefix (buf : buffer) (offset : Z) (bs : list byte) (buf' p : buffer) :
  poke buf offset bs = Ok buf' -> p `prefix_of` buf -> Z.of_nat (length p) <= offset ->
  p `prefix_of` buf'.
Proof.
  intros H [rest Hp] Hn. pose proof (take_poke _ _ _ _ (length p) H Hn) as Ht.
  rewrite Hp, take_app_length in Ht. rewrite <- Ht. apply prefix_take.
Qed.

(** The padding of a table to a multiple of four bytes. *)
Lemma padded_length (tableLength : Z) :
  0 <= tableLength ->
  tableLength <= Z.land (tableLength + 3) (Z.lnot 3)
  /\ Z.land (tableLength + 3) (Z.lnot 3) mod 4 = 0.
Proof.
  intros H.
  assert (E : Z.land (tableLength + 3) (Z.lnot 3) = (tableLength + 3) / 4 * 4).
  { rewrite <- Z.ldiff_land. change 3 with (Z.ones 2) at 2.
    rewrite Z.ldiff_ones_r by lia. rewrite Z.shiftl_mul_pow2, Z.shiftr_div_pow2 by lia.
    reflexivity. }
  rewrite E. split.
  - Z.div_mod_to_equations. lia.
  - apply Z.mod_mul. lia.
Qed.

Lemma WriteGlyphTable_extends (dev : device) (gids : list Z) :
  forall glyphDatas output buf glyphDatas',
    WriteGlyphTable dev gids glyphDatas output = Ok (buf, glyphDatas') ->
    output `prefix_of` buf.
Proof.
  induction gids as [|gid gids IH]; intros glyphDatas output buf glyphDatas' H; simpl in H.
  - injection H as <- _. reflexivity.
  - destruct (gd_index gid glyphDatas) as [glyphData glyphDatas1].
    destruct (GlyphLength glyphData =? 0); [eapply IH; exact H|].
    destruct (IsCompound glyphData).
    + inv_bind H. inv_bind H. apply IH in H.
      etransitivity; [apply prefix_app_r; reflexivity | exact H].
    + inv_bind H. unfold CopyData in Hx. inv_bind Hx. injection Hx as <-. apply IH in H.
      etransitivity; [apply prefix_app_r; reflexivity | exact H].
Qed.

Lemma copy_metrics_extends (dev : device) (tableOffset : Z) (gids : list Z) :
  forall output buf,
    copy_metrics dev tableOffset gids output = Ok buf -> output `prefix_of` buf.
Proof.
  induction gids as [|gid gids IH]; intros output buf H; simpl in H.
  - injection H as <-. reflexivity.
  - inv_bind H. unfold CopyData in Hx. inv_bind Hx. injection Hx as <-. apply IH in H.
    etransitivity; [apply prefix_app_r; reflexivity | exact H].
Qed.

(** Writing a table appends to the output and stores behind the place
    where the table starts only. *)
Lemma write_table_extends (this : Subset) (table : TrueTypeTable) (output buf : buffer)
    (glyphDatas : GlyphDatas) :
  write_table this table output = Ok (buf, glyphDatas) -> output `prefix_of` buf.
Proof.
  unfold write_table. intros H.
  assert (Hcopy : forall o s b, CopyData (m_device this) output o s = Ok b ->
                                output `prefix_of` b).
  { intros o s b Hb. unfold CopyData in Hb. inv_bind Hb. injection Hb as <-.
    apply prefix_app_r. reflexivity. }
  assert (Hpoke : forall b d bs b', output `prefix_of` b -> 0 <= d ->
                    poke b (Tell output + d) bs = Ok b' -> output `prefix_of` b').
  { intros b d bs b' Hb Hd Hp. apply (poke_prefix _ _ _ _ _ Hp Hb). unfold Tell. lia. }
  destruct (Tag table =? TTAG_head).
  { inv_bind H. injection H as <- _. inv_bind Hx.
    eapply (Hpoke x0 4 _ x (Hcopy _ _ _ Hx0)); [lia | exact Hx]. }
  destruct (Tag table =? TTAG_maxp).
  { inv_bind H. injection H as <- _. inv_bind Hx.
    eapply (Hpoke x0 4 _ x (Hcopy _ _ _ Hx0)); [lia | exact Hx]. }
  destruct (Tag table =? TTAG_hhea).
  { inv_bind H. injection H as <- _. inv_bind Hx.
    eapply (Hpoke x0 34 _ x (Hcopy _ _ _ Hx0)); [lia | exact Hx]. }
  destruct (Tag table =? TTAG_post).
  { inv_bind H. injection H as <- _. inv_bind Hx. inv_bind Hx.
    eapply (Hpoke _ 16); [|lia | exact Hx].
    eapply (Hpoke _ 0); [eapply Hcopy; exact Hx0 | lia|].
    rewrite Z.add_0_r. exact Hx1. }
  destruct (Tag table =? TTAG_glyf); [eapply WriteGlyphTable_extends; exact H|].
  destruct (Tag table =? TTAG_loca).
  { injection H as H. unfold WriteLocaTable in H.
    destruct (write_loca_entries_extends (m_isLongLoca this) (m_orderedGIDs this)
                (m_glyphDatas this) 0 output) as [rest Hrest].
    rewrite H in Hrest. simpl in Hrest. rewrite Hrest. apply prefix_app_r. reflexivity. }
  destruct (Tag table =? TTAG_hmtx).
  { inv_bind H. injection H as <- _. unfold WriteHmtxTable in Hx. inv_bind Hx.
    eapply copy_metrics_extends. exact Hx. }
  destruct (_ || _); [|discriminate].
  inv_bind H. injection H as <- _. eapply Hcopy. exact Hx.
Qed.

Lemma take_shorter (a b : list byte) (n n' : nat) :
  take n' a = take n' b -> (n <= n')%nat -> take n a = take n b.
Proof.
  intros H Hn. replace n with (n `min` n')%nat by lia.
  rewrite <- !take_take, H. reflexivity.
Qed.

(** The three stores into one entry of the directory. *)
Lemma directory_entry_pokes (buf1 buf2 buf3 buf4 : buffer) (e sum offset len : Z) :
  poke buf1 (e + 4) (be32 sum) = Ok buf2 ->
  poke buf2 (e + 8) (be32 offset) = Ok buf3 ->
  poke buf3 (e + 12) (be32 len) = Ok buf4 ->
  0 <= e ->
  length buf4 = length buf1
  /\ e + 16 <= Tell buf1
  /\ (forall n, Z.of_nat n <= e + 4 -> take n buf4 = take n buf1)
  /\ Read buf4 (e + 8) 4 = Ok (be32 offset)
  /\ Read buf4 (e + 12) 4 = Ok (be32 len)
  /\ (forall p size, 0 <= p -> 0 <= size -> p + size <= e + 4 \/ e + 16 <= p ->
                     Read buf4 p size = Read buf1 p size).
Proof.
  intros H2 H3 H4 He.
  pose proof (poke_length _ _ _ _ H2) as L2. pose proof (poke_length _ _ _ _ H3) as L3.
  pose proof (poke_length _ _ _ _ H4) as L4.
  split; [congruence|]. split.
  { apply poke_inv in H4. destruct H4 as (_ & H4 & _). simpl length in H4.
    unfold Tell. lia. }
  split.
  { intros n Hn. rewrite (take_poke _ _ _ _ n H4) by lia.
    rewrite (take_poke _ _ _ _ n H3) by lia. apply (take_poke _ _ _ _ n H2). lia. }
  split.
  { rewrite (Read_poke_other _ _ _ _ (e + 8) 4 H4) by lia.
    exact (Read_poke_same _ _ _ _ H3). }
  split; [exact (Read_poke_same _ _ _ _ H4)|].
  intros p size Hp Hsize Hout.
  rewrite (Read_poke_other _ _ _ _ p size H4) by (simpl length; lia).
  rewrite (Read_poke_other _ _ _ _ p size H3) by (simpl length; lia).
  apply (Read_poke_other _ _ _ _ p size H2); simpl length; lia.
Qed.

(** The second loop of [WriteTables], from table [i] on: the output stays
    a multiple of four bytes long, what is before entry [i] of the
    directory stays as it is, and the entries from [i] on keep their tags
    and get the place and the length of their tables. *)
Lemma write_tables_layout (char_is_signed : bool) (tables : list TrueTypeTable) :
  forall this directoryTableOffset i headOffset output out headOffset',
    write_tables char_is_signed this directoryTableOffset i tables headOffset output
      = Ok (out, headOffset') ->
    0 <= directoryTableOffset -> 0 <= i ->
    Tell output mod 4 = 0 ->
    directoryTableOffset + 16 * (i + Z.of_nat (length tables)) <= Tell output ->
    (forall h, headOffset = Some h ->
               directoryTableOffset + 16 * (i + Z.of_nat (length tables)) <= h) ->
    Tell out mod 4 = 0
    /\ Tell output <= Tell out
    /\ take (Z.to_nat (directoryTableOffset + 16 * i)) out
       = take (Z.to_nat (directoryTableOffset + 16 * i)) output
    /\ (forall h, headOffset' = Some h ->
                  directoryTableOffset + 16 * (i + Z.of_nat (length tables)) <= h)
    /\ forall j t, tables !! j = Some t ->
         Read out (directoryTableOffset + 16 * (i + Z.of_nat j)) 4
         = Read output (directoryTableOffset + 16 * (i + Z.of_nat j)) 4
         /\ exists offset len,
              Read out (directoryTableOffset + 16 * (i + Z.of_nat j) + 8) 4
              = Ok (be32 (u32 offset))
              /\ Read out (directoryTableOffset + 16 * (i + Z.of_nat j) + 12) 4
                 = Ok (be32 (u32 len))
              /\ offset mod 4 = 0 /\ Tell output <= offset /\ 0 <= len
              /\ offset + len <= Tell out.
Proof.
  induction tables as [|table tables IH];
    intros this dto i headOffset output out headOffset' H Hdto Hi Haligned Hdir Hhead;
    simpl in H.
  - injection H as <- <-. split; [exact Haligned|]. split; [lia|]. split; [reflexivity|].
    split; [exact Hhead|]. intros j t Hj. discriminate.
  - simpl length in Hdir, Hhead |- *.
    inv_bind H. destruct x as [buf glyphDatas]. rename Hx into Htable.
    inv_bind H. rename x into sum, Hx into Hsum.
    inv_bind H. rename x into buf2, Hx into H2.
    inv_bind H. rename x into buf3, Hx into H3.
    inv_bind H. rename x into buf4, Hx into H4.
    unfold LENGTH_OFFSETTABLE16 in *.
    destruct (write_table_extends _ _ _ _ _ Htable) as [rest ->].
    assert (Hlen : Tell (output ++ rest) - Tell output = Z.of_nat (length rest))
      by (unfold Tell; rewrite length_app; lia).
    rewrite Hlen in *.
    destruct (padded_length (Z.of_nat (length rest))) as [Hpad1 Hpad2]; [lia|].
    set (padded := Z.land (Z.of_nat (length rest) + 3) (Z.lnot 3)) in *.
    set (buf1 := (output ++ rest) ++ replicate (Z.to_nat (padded - Z.of_nat (length rest))) x00)
      in *.
    assert (Hbuf1 : Tell buf1 = Tell output + padded).
    { unfold buf1, Tell. rewrite !length_app, length_replicate. lia. }
    destruct (directory_entry_pokes _ _ _ _ _ _ _ _ H2 H3 H4 ltac:(lia))
      as (Hlen4 & Hroom & Hbefore & Hoffset & Hlength & Hother).
    assert (Hbuf4 : Tell buf4 = Tell output + padded)
      by (unfold Tell in *; rewrite Hlen4; exact Hbuf1).
    apply IH in H; [|exact Hdto | lia | | | ].
    + destruct H as (Haligned' & Hgrows & Htake & Hhead' & Hentries).
      assert (Hpre : forall n, (n <= length output)%nat -> take n buf1 = take n output).
      { intros n Hn. unfold buf1. rewrite <- app_assoc. apply take_app_le. exact Hn. }
      split; [exact Haligned'|]. split; [lia|]. split.
      { rewrite <- (Hpre (Z.to_nat (dto + 16 * i))) by (unfold Tell in Hdir; lia).
        rewrite <- (Hbefore (Z.to_nat (dto + 16 * i))) by lia.
        apply (take_shorter _ _ _ _ Htake). lia. }
      split; [intros h Hh; specialize (Hhead' h Hh); lia|].
      assert (Hentry : forall p, dto + 16 * i <= p -> p + 4 <= dto + 16 * i + 16 ->
                                 Read out p 4 = Read buf4 p 4).
      { intros p Hp1 Hp2.
        apply (Read_take _ _ (Z.to_nat (dto + 16 * (i + 1))) p 4 Htake);
          unfold Tell in *; lia. }
      assert (Hkept : forall p, 0 <= p -> p + 4 <= Tell output ->
                                Read buf1 p 4 = Read output p 4).
      { intros p Hp1 Hp2. unfold buf1. rewrite <- app_assoc.
        apply Read_app_l; unfold Tell in *; lia. }
      intros [|j] t Hj.
      * injection Hj as ->. change (Z.of_nat 0) with 0. rewrite Z.add_0_r.
        replace (dto + i * 16) with (dto + 16 * i) in * by lia.
        split.
        { rewrite Hentry by lia. rewrite Hother by lia. apply Hkept; lia. }
        exists (Tell output), (Z.of_nat (length rest)).
        split; [rewrite Hentry by lia; exact Hoffset|].
        split; [rewrite Hentry by lia; exact Hlength|].
        split; [exact Haligned|]. split; [lia|]. split; [lia|]. lia.
      * simpl in Hj. destruct (Hentries j t Hj) as (Htag & offset & len & Ho & Hl & Ha & Hb & Hc & Hd).
        apply lookup_lt_Some in Hj.
        replace (dto + 16 * (i + Z.of_nat (S j))) with (dto + 16 * (i + 1 + Z.of_nat j)) by lia.
        replace (dto + i * 16) with (dto + 16 * i) in * by lia.
        split.
        { rewrite Htag. rewrite Hother by lia. apply Hkept; lia. }
        exists offset, len. split; [exact Ho|]. split; [exact Hl|].
        split; [exact Ha|]. split; [lia|]. split; [exact Hc | exact Hd].
    + rewrite Hbuf4. clear - Haligned Hpad2. Z.div_mod_to_equations. lia.
    + lia.
    + intros h Hh. destruct (Tag table =? TTAG_head).
      * injection Hh as <-. lia.
      * specialize (Hhead h Hh). lia.
Qed.

(** The first loop of [WriteTables]: one entry of 16 bytes for each
    table, with its tag. *)
Lemma placeholders_extend (tables : list TrueTypeTable) :
  forall output0,
    exists rest,
      foldl (fun out table => out ++ be32 (Tag table) ++ be32 0 ++ be32 0 ++ be32 0)
            output0 tables = output0 ++ rest
      /\ length rest = (16 * length tables)%nat.
Proof.
  induction tables as [|table tables IH]; intros output0; cbn [foldl].
  - exists []. rewrite app_nil_r. split; reflexivity.
  - destruct (IH (output0 ++ be32 (Tag table) ++ be32 0 ++ be32 0 ++ be32 0)) as (rest & -> & Hl).
    eexists. rewrite <- app_assoc. split; [reflexivity|].
    rewrite !length_app, Hl. simpl. lia.
Qed.

Lemma placeholders_read (tables : list TrueTypeTable) :
  forall output0 j t,
    tables !! j = Some t ->
    Read (foldl (fun out table => out ++ be32 (Tag table) ++ be32 0 ++ be32 0 ++ be32 0)
                output0 tables)
         (Tell output0 + 16 * Z.of_nat j) 4
    = Ok (be32 (Tag t)).
Proof.
  induction tables as [|table tables IH]; intros output0 j t Hj; [discriminate|].
  cbn [foldl]. destruct j as [|j].
  - injection Hj as ->.
    destruct (placeholders_extend tables
                (output0 ++ be32 (Tag t) ++ be32 0 ++ be32 0 ++ be32 0)) as (rest & -> & _).
    rewrite <- !app_assoc. replace (Tell output0 + 16 * Z.of_nat 0) with (Tell output0) by lia.
    exact (Read_inside output0 (be32 (Tag t)) _).
  - simpl in Hj.
    rewrite <- (IH (output0 ++ be32 (Tag table) ++ be32 0 ++ be32 0 ++ be32 0) j t Hj).
    f_equal.
    unfold Tell. rewrite !length_app. simpl length. lia.
Qed.

(** X11.  The subset that [WriteTables] returns is a multiple of four
    bytes long; it starts with the scaler type [0x00010000] and the number
    of tables; and entry [i] of its directory holds the tag of table [i]
    with the place and the length of a range of the subset, behind the
    directory and on a multiple of four bytes. *)
Theorem WriteTables_layout (char_is_signed : bool) (this : Subset) (out : buffer) :
  WriteTables char_is_signed this = Ok out ->
  Tell out mod 4 = 0
  /\ ReadUInt32BE out 0 = Ok 0x00010000
  /\ ReadUInt16BE out 4 = Ok (Z.of_nat (length (m_tables this)))
  /\ forall i t, m_tables this !! i = Some t ->
       recorded_table out (Z.of_nat (length (m_tables this))) (Z.of_nat i) t.
Proof.
  unfold WriteTables. set (numTables := Z.of_nat (length (m_tables this))).
  destruct (_ || _) eqn:Ecount; [discriminate|]. cbv zeta.
  apply orb_false_iff in Ecount. destruct Ecount as [E1 E2].
  apply Z.ltb_ge in E1, E2.
  set (output0 := be32 65536 ++ be16 (u16 numTables) ++ _).
  intros H. inv_bind H. destruct x as [buf [headOffset|]]; [|discriminate].
  inv_bind H. rename x into sum. rename H into Hadjust.
  destruct (placeholders_extend (m_tables this) output0) as (rest & Hout1 & Hrest).
  assert (Hlen0 : Tell output0 = 12) by reflexivity.
  rewrite Hlen0 in Hx.
  assert (Hlen1 : Tell (output0 ++ rest) = 12 + 16 * numTables).
  { unfold Tell in *. rewrite length_app, Hrest. unfold numTables. lia. }
  pose proof (placeholders_read (m_tables this) output0) as Htags.
  rewrite Hout1 in Hx, Htags. rewrite Hlen0 in Htags.
  apply write_tables_layout in Hx;
    [|lia | lia | rewrite Hlen1; clear; Z.div_mod_to_equations; lia
     |rewrite Hlen1; unfold numTables; lia | discriminate].
  destruct Hx as (Haligned & Hgrows & Htake & Hhead & Hentries).
  specialize (Hhead headOffset eq_refl). fold numTables in Hhead.
  pose proof (poke_length _ _ _ _ Hadjust) as Hlen.
  assert (Hlow : forall p size, 0 <= p -> 0 <= size -> p + size <= 12 + 16 * numTables ->
                                Read out p size = Read buf p size).
  { intros p size Hp Hs Hin. apply (Read_poke_other _ _ _ _ p size Hadjust); lia. }
  assert (Hheader : forall p size, 0 <= p -> 0 <= size -> p + size <= 12 ->
                                   Read out p size = Read output0 p size).
  { intros p size Hp Hs Hin. rewrite Hlow by lia.
    rewrite (Read_take _ _ 12 p size Htake) by (unfold Tell in *; lia).
    apply Read_app_l; unfold Tell in *; lia. }
  split; [unfold Tell in *; rewrite Hlen; exact Haligned|]. split.
  { unfold ReadUInt32BE. rewrite Hheader by lia. reflexivity. }
  split.
  { unfold ReadUInt16BE. rewrite Hheader by lia.
    change (Read output0 4 2) with (Read (be32 65536 ++ be16 (u16 numTables)
                                          ++ (be16 (u16 (2 ^ u16 (Z.log2_up numTables)))
                                              ++ be16 (u16 (Z.log2_up numTables))
                                              ++ be16 (u16 (16 * u16 numTables
                                                            - u16 (2 ^ u16 (Z.log2_up numTables))))))
                                         (Z.of_nat (length (be32 65536)))
                                         (Z.of_nat (length (be16 (u16 numTables))))).
    rewrite Read_inside. simpl. rewrite be_combine_be16. f_equal.
    unfold u16. rewrite Z.mod_mod by lia. apply Z.mod_small.
    change (2 ^ 16) with 65536. change (2 ^ 15) with 32768 in E2. lia. }
  intros i t Hi. destruct (Hentries i t Hi) as (Htag & offset & len & Ho & Hl & Ha & Hb & Hc & Hd).
  apply lookup_lt_Some in Hi as Hlt. rewrite Z.add_0_l in *.
  rewrite (Htags i t Hi) in Htag.
  assert (Hu : forall v, u32 (u32 v) = u32 v) by (intros; unfold u32; apply Z.mod_mod; lia).
  split.
  { unfold ReadUInt32BE. rewrite Hlow by (unfold numTables; lia). rewrite Htag. simpl.
    rewrite be_combine_be32. reflexivity. }
  exists offset, len.
  split; [unfold ReadUInt32BE; rewrite Hlow by (unfold numTables; lia); rewrite Ho; simpl;
          rewrite be_combine_be32, Hu; reflexivity|].
  split; [unfold ReadUInt32BE; rewrite Hlow by (unfold numTables; lia); rewrite Hl; simpl;
          rewrite be_combine_be32, Hu; reflexivity|].
  split; [exact Ha|]. split; [lia|]. split; [exact Hc|].
  unfold Tell in *. rewrite Hlen. exact Hd.
Qed.

End Layout.

Section LayoutWitness.
Import TrueTypeSubset Fixture Spec.

Lemma WriteTables_layout_witness :
  exists out,
    WriteTables true scenario_subset = Ok out
    /\ Tell out mod 4 = 0
    /\ ReadUInt16BE out 4 = Ok (Z.of_nat (length (m_tables scenario_subset))).
Proof.
  eexists. split; [vm_compute; reflexivity|].
  split; eapply (WriteTables_layout true scenario_subset); vm_compute; reflexivity.
Defined.

End LayoutWitness.

(** ** The records of the subset ([WriteHmtxTable], [WriteGlyphTable]) *)

Section Records.
Import TrueTypeSubset Fixture Spec.

Lemma copy_metrics_records (dev : device) (tableOffset : Z) (gids : list Z) :
  forall output buf n gid,
    copy_metrics dev tableOffset gids output = Ok buf ->
    gids !! n = Some gid ->
    exists record,
      Read dev (u32 (tableOffset + gid * 4)) 4 = Ok record
      /\ Read buf (Tell output + 4 * Z.of_nat n) 4 = Ok record.
Proof.
  induction gids as [|g gids IH]; intros output buf n gid H Hn; [discriminate|].
  simpl in H. inv_bind H. unfold CopyData in Hx. inv_bind Hx. injection Hx as <-.
  destruct n as [|n].
  - injection Hn as ->. exists x0. split; [exact Hx0|].
    destruct (copy_metrics_extends _ _ _ _ _ H) as [rest ->].
    apply Read_length in Hx0. rewrite <- app_assoc.
    replace (Tell output + 4 * Z.of_nat 0) with (Z.of_nat (length output))
      by (unfold Tell; lia).
    replace 4 with (Z.of_nat (length x0)) by lia.
    apply Read_inside.
  - simpl in Hn. destruct (IH _ _ n gid H Hn) as (record & Hfont & Hcopy).
    exists record. split; [exact Hfont|]. rewrite <- Hcopy. f_equal.
    apply Read_length in Hx0. unfold Tell. rewrite length_app. lia.
Qed.

(** X12.  Record [n] of the [hmtx] table that [WriteHmtxTable] writes is
    the four bytes that the font program has at [4 * gid] behind the start
    of its [hmtx] table, for the glyph [gid] at place [n] of the ordered
    list. *)
Theorem WriteHmtxTable_copies_records (this : Subset) (output buf : buffer)
    (n : nat) (gid : Z) :
  WriteHmtxTable this output = Ok buf ->
  m_orderedGIDs this !! n = Some gid ->
  exists tableOffset record,
    GetTableOffset (m_tables this) TTAG_hmtx = Ok tableOffset
    /\ Read (m_device this) (u32 (tableOffset + gid * 4)) 4 = Ok record
    /\ Read buf (Tell output + 4 * Z.of_nat n) 4 = Ok record.
Proof.
  intros H Hn. unfold WriteHmtxTable in H. inv_bind H. rename x into tableOffset.
  destruct (copy_metrics_records _ _ _ _ _ _ _ H Hn) as (record & Hfont & Hcopy).
  exists tableOffset, record. split; [exact Hx|]. split; [exact Hfont | exact Hcopy].
Qed.

Lemma WriteGlyphTable_app (dev : device) (pre post : list Z) :
  forall glyphDatas output,
    WriteGlyphTable dev (pre ++ post) glyphDatas output
    = (r ← WriteGlyphTable dev pre glyphDatas output;
       WriteGlyphTable dev post (snd r) (fst r)).
Proof.
  induction pre as [|gid pre IH]; intros glyphDatas output; simpl; [reflexivity|].
  destruct (gd_index gid glyphDatas) as [glyphData glyphDatas1].
  destruct (GlyphLength glyphData =? 0); [apply IH|].
  destruct (IsCompound glyphData).
  - destruct (Read dev _ _); try reflexivity. simpl.
    destruct (foldl _ _ _); try reflexivity. simpl. apply IH.
  - destruct (CopyData dev _ _ _); try reflexivity. simpl. apply IH.
Qed.

(** X13.  A simple glyph of the ordered list is copied as it is: where
    [WriteGlyphTable] has come to after the glyphs before it, the [glyf]
    table of the subset has the bytes of the glyph in the font program. *)
Theorem WriteGlyphTable_copies_simple_glyphs (dev : device) (pre post : list Z) (gid : Z)
    (glyphDatas glyphDatas1 glyphDatas2 : GlyphDatas) (before glyf : buffer)
    (glyphData : GlyphData) :
  WriteGlyphTable dev pre glyphDatas [] = Ok (before, glyphDatas1) ->
  WriteGlyphTable dev (pre ++ gid :: post) glyphDatas [] = Ok (glyf, glyphDatas2) ->
  gd_find gid glyphDatas1 = Some glyphData ->
  IsCompound glyphData = false ->
  GlyphLength glyphData <> 0 ->
  exists bytes,
    Read dev (GlyphOffset glyphData) (GlyphLength glyphData) = Ok bytes
    /\ Read glyf (Tell before) (GlyphLength glyphData) = Ok bytes.
Proof.
  intros Hpre H Hfind Hsimple Hlen.
  rewrite WriteGlyphTable_app, Hpre in H. simpl in H.
  unfold gd_index in H. rewrite Hfind, Hsimple in H.
  destruct (Z.eqb_spec (GlyphLength glyphData) 0) as [|_]; [contradiction|].
  inv_bind H. unfold CopyData in Hx. inv_bind Hx. injection Hx as <-.
  rename x0 into bytes. exists bytes. split; [exact Hx0|].
  destruct (WriteGlyphTable_extends _ _ _ _ _ _ H) as [rest ->].
  pose proof (Read_length _ _ _ _ Hx0) as Hl.
  assert (Hpos : 0 <= GlyphLength glyphData).
  { unfold Read in Hx0. destruct (0 <=? GlyphLength glyphData) eqn:E;
      [apply Z.leb_le in E; exact E | rewrite andb_false_r in Hx0; discriminate]. }
  rewrite <- app_assoc.
  replace (GlyphLength glyphData) with (Z.of_nat (length bytes)) by lia.
  apply Read_inside.
Qed.

End Records.

Section RecordsWitness.
Import TrueTypeSubset Fixture Spec.

Lemma WriteHmtxTable_copies_records_witness :
  exists buf record,
    WriteHmtxTable scenario_subset [] = Ok buf
    /\ m_orderedGIDs scenario_subset !! 1%nat = Some 10
    /\ Read buf 4 4 = Ok record.
Proof.
  assert (H : exists buf, WriteHmtxTable scenario_subset [] = Ok buf)
    by (eexists; vm_compute; reflexivity).
  destruct H as [buf H].
  destruct (WriteHmtxTable_copies_records scenario_subset [] buf 1 10 H eq_refl)
    as (tableOffset & record & _ & _ & Hrecord).
  exists buf, record. split; [exact H|]. split; [reflexivity | exact Hrecord].
Defined.

Lemma WriteGlyphTable_copies_simple_glyphs_witness :
  exists glyf bytes,
    WriteGlyphTable (m_device scenario_subset) [0; 10] (m_glyphDatas scenario_subset) []
    = Ok (glyf, m_glyphDatas scenario_subset)
    /\ Read glyf 0 (Z.of_nat (length bytes)) = Ok bytes
    /\ bytes <> [].
Proof.
  assert (H : exists glyf glyphData,
             WriteGlyphTable (m_device scenario_subset) ([] ++ 0 :: [10])
                             (m_glyphDatas scenario_subset) []
             = Ok (glyf, m_glyphDatas scenario_subset)
             /\ gd_find 0 (m_glyphDatas scenario_subset) = Some glyphData
             /\ IsCompound glyphData = false
             /\ GlyphLength glyphData <> 0).
  { eexists. eexists. split; [vm_compute; reflexivity|].
    split; [vm_compute; reflexivity|]. split; [reflexivity | discriminate]. }
  destruct H as (glyf & glyphData & Hglyf & Hfind & Hsimple & Hlen).
  destruct (WriteGlyphTable_copies_simple_glyphs (m_device scenario_subset) [] [10] 0
              (m_glyphDatas scenario_subset) (m_glyphDatas scenario_subset)
              (m_glyphDatas scenario_subset) [] glyf glyphData
              eq_refl Hglyf Hfind Hsimple Hlen) as (bytes & Hfont & Hcopy).
  exists glyf, bytes. split; [exact Hglyf|].
  pose proof (Read_length _ _ _ _ Hfont) as Hl.
  assert (Hpos : 0 <= GlyphLength glyphData).
  { unfold Read in Hfont. destruct (0 <=? GlyphLength glyphData) eqn:E;
      [apply Z.leb_le in E; exact E | rewrite andb_false_r in Hfont; discriminate]. }
  split.
  - replace (Z.of_nat (length bytes)) with (GlyphLength glyphData) by lia. exact Hcopy.
  - intros ->. simpl in Hl. lia.
Defined.

End RecordsWitness.
